(** * Arcade game templates: simulation core

    A shallow embedding of the two browser games of the repository:

    - [Dodge]   the Flappy-Bird style obstacle dodger
                (game-templates/dodge-the-danger/game.js, first script);
    - [Collect] the Snake style collector (second script of the same file);
    - [GameConfig] the shared asset configuration (game-config.js).

    JavaScript numbers are modelled exactly: grid coordinates and scores are
    integers ([Z]); pixel positions, velocities and times are rationals ([Q]),
    so the arithmetic of the scripts is followed without rounding.
    [Math.random] is an oracle: a stream of draws [nat -> Q] and a cursor that
    every call advances.  The network decides which image loads fail and
    in which order the three loads of a page settle.  [localStorage] is a
    finite map from keys to the integers whose decimal strings the scripts
    store ([parseInt] of [toString] is the identity on them).  Loops that
    the scripts run until a condition holds take a fuel argument and return
    [None] when it runs out.
    Canvas drawing and the background scroll offset have no effect on the
    simulation and are left out. *)

From Stdlib Require Import ZArith QArith Qround Qminmax Qabs Lqa Lia List Bool.
From stdpp Require Import gmap strings.
Import ListNotations.

Local Open Scope Z_scope.

(** ** Shared environment *)

(** An image object: one that loaded from a URL, or the 1x1 transparent GIF
    the loaders substitute. *)
Inductive Image : Type :=
| Loaded (src : string)
| Placeholder.

(** The order in which three loads started together settle, by their
    positions in the array handed to [Promise.all]: [Settle120] says the
    second load fires its [onload] or [onerror] first, then the third, then
    the first. *)
Inductive Settle : Type :=
| Settle012 | Settle021 | Settle102 | Settle120 | Settle201 | Settle210.

(** Three things given in array order, in the order [o] settles them; and
    three things given in that order, back in array order. *)
Definition in_settle_order {A : Type} (o : Settle) (a b c : A) : A * A * A :=
  match o with
  | Settle012 => (a, b, c) | Settle021 => (a, c, b)
  | Settle102 => (b, a, c) | Settle120 => (b, c, a)
  | Settle201 => (c, a, b) | Settle210 => (c, b, a)
  end.

Definition in_array_order {A : Type} (o : Settle) (p q r : A) : A * A * A :=
  match o with
  | Settle012 => (p, q, r) | Settle021 => (p, r, q)
  | Settle102 => (q, p, r) | Settle120 => (r, p, q)
  | Settle201 => (q, r, p) | Settle210 => (r, q, p)
  end.

(** The network as the loaders see it: does fetching this URL fire [onload]
    ([true]) or [onerror] ([false]), and in which order do the three loads
    of a page settle?  A network applied to a URL is its answer for it. *)
Record Network : Type := mkNetwork {
  fires_onload :> string -> bool;
  settles : Settle
}.

(** A network that answers every load alike. *)
Definition all_loads (ok : bool) (o : Settle) : Network :=
  {| fires_onload := fun _ => ok; settles := o |}.

(** The stream of values [Math.random()] returns. *)
Definition RandomSource : Type := nat -> Q.

Definition valid_random (rnd : RandomSource) : Prop :=
  forall n, (0 <= rnd n)%Q /\ (rnd n < 1)%Q.

(** [Math.floor(Math.random() * n)] at draw [r]. *)
Definition random_index (r : Q) (n : Z) : Z := Qfloor (r * inject_Z n).

(** [Math.random()] returning 0.5 at every call, and 0 at every call. *)
Definition constant_half : RandomSource := fun _ => (1 # 2)%Q.
Definition constant_zero : RandomSource := fun _ => 0%Q.

(** ** game-config.js *)
Module GameConfig.

Record Assets : Type := mkAssets {
  character : string;
  item : string;
  background : string;
  topic : string
}.

Definition baseUrl : string :=
  "https://raw.githubusercontent.com/nivave/ecn-ai-hackathon-2025"
  +:+ "/main/game-assets".

(** [configureGameAssets], with the topic [getTopicFromUrl] extracted. *)
Definition configureGameAssets (topic : string) : Assets :=
  {| character := baseUrl +:+ "/" +:+ topic +:+ "/character.png";
     item := baseUrl +:+ "/" +:+ topic +:+ "/item.png";
     background := baseUrl +:+ "/" +:+ topic +:+ "/background.png";
     topic := topic |}.

(** [loadImageWithFallback]: always resolves; the second component is what
    it writes to the console.  [if (fallbackSrc)] fails for an argument
    left out ([None]) and for the empty string. *)
Definition loadImageWithFallback (net : Network) (src : string)
    (fallbackSrc : option string) : Image * list string :=
  if net src then (Loaded src, [])
  else
    let w := "Failed to load image: " +:+ src +:+ ", trying fallback" in
    match fallbackSrc with
    | Some fb =>
        if String.eqb fb "" then (Placeholder, [w])
        else if net fb then (Loaded fb, [w])
        else (Placeholder, [w; "Failed to load fallback image: " +:+ fb])
    | None => (Placeholder, [w])
    end.

(** The assets of the default topic. *)
Definition default_assets : Assets := configureGameAssets "default".

End GameConfig.

(** ** Collect It (Snake style) *)
Module Collect.

Record Cell : Type := mkCell { cx : Z; cy : Z }.

Definition cell_eqb (a b : Cell) : bool :=
  (cx a =? cx b) && (cy a =? cy b).

(** [Character]: [gridW], [gridH] are the shared [gridSize] object. *)
Record Character : Type := mkCharacter {
  gridW : Z;
  gridH : Z;
  segments : list Cell;
  direction : Cell;
  nextDirection : Cell;
  lastTailPosition : option Cell
}.

(** [new Character(config, gridSize, cellSize)]; [Math.floor(n / 2)] is
    [n / 2] on integers. *)
Definition newCharacter (w h : Z) : Character :=
  {| gridW := w; gridH := h;
     segments := [mkCell (w / 2) (h / 2)];
     direction := mkCell 1 0;
     nextDirection := mkCell 1 0;
     lastTailPosition := None |}.

Definition setDirection (newDirection : Cell) (c : Character) : Character :=
  if (1 <? Z.of_nat (length (segments c)))
     && (cx newDirection =? - cx (direction c))
     && (cy newDirection =? - cy (direction c))
  then c
  else {| gridW := gridW c; gridH := gridH c;
          segments := segments c;
          direction := direction c;
          nextDirection := newDirection;
          lastTailPosition := lastTailPosition c |}.

(** The head cell [move] computes: the current head plus the direction. *)
Definition new_head (h dir : Cell) : Cell :=
  mkCell (cx h + cx dir) (cy h + cy dir).

Definition outside_grid (w h : Z) (c : Cell) : bool :=
  (cx c <? 0) || (w <=? cx c) || (cy c <? 0) || (h <=? cy c).

(** [segments.slice(1).some(s => s.x === head.x && s.y === head.y)]
    guarded by [segments.length > 1]. *)
Definition hits_body (segs : list Cell) (head : Cell) : bool :=
  (1 <? Z.of_nat (length segs))
  && existsb (fun s => (cx s =? cx head) && (cy s =? cy head)) (tl segs).

(** [Character.move]: the returned boolean is the method's result.  The
    direction is updated before any check, so it changes on a failed move
    too.  The array is never empty (the constructor makes one segment; see
    [segments_nonempty_move] and [segments_nonempty_grow] below); on an
    empty array the script would compute with [undefined] coordinates,
    which this model does not represent, and the branch only records the
    direction. *)
Definition move (c : Character) : bool * Character :=
  let dir := nextDirection c in
  let turned segs ltp :=
    {| gridW := gridW c; gridH := gridH c; segments := segs;
       direction := dir; nextDirection := nextDirection c;
       lastTailPosition := ltp |} in
  match segments c with
  | [] => (true, turned [] (lastTailPosition c))
  | h :: _ =>
      let head := new_head h dir in
      if outside_grid (gridW c) (gridH c) head then
        (false, turned (segments c) (lastTailPosition c))
      else if hits_body (segments c) head then
        (false, turned (segments c) (lastTailPosition c))
      else
        let tailPosition := last (segments c) in
        (true, turned (removelast (head :: segments c)) tailPosition)
  end.

(** [Character.grow]. *)
Definition grow (c : Character) : Character :=
  let pushed :=
    match lastTailPosition c with
    | Some t => segments c ++ [t]
    | None =>
        match last (segments c) with
        | Some t => segments c ++ [t]
        | None => segments c
        end
    end in
  {| gridW := gridW c; gridH := gridH c; segments := pushed;
     direction := direction c; nextDirection := nextDirection c;
     lastTailPosition := None |}.

Record Game : Type := mkGame {
  gridSizeW : Z;
  gridSizeH : Z;
  character : Character;
  item : Cell;
  characterImage : option Image;
  itemImage : option Image;
  backgroundImage : option Image;
  score : Z;
  highScore : Z;
  topic : string;
  gameOver : bool;
  (** is the interval timer of [startGameLoop] armed? *)
  gameLoopInterval : bool;
  localStorage : gmap string Z;
  console : list string
}.

Definition localStorageKey (g : Game) : string :=
  "collectIt_highScore_" +:+ topic g.

(** [loadImage] of the collector: never rejects.  An empty [src] is the
    falsy one. *)
Definition loadImage (net : Network) (src : string)
    : option Image * list string :=
  if String.eqb src "" then (None, [])
  else if net src then (Some (Loaded src), [])
  else (Some Placeholder, ["Failed to load image: " +:+ src]).

(** [spawnItem]'s loop: each round takes two draws; [k] is the cursor into
    the random stream.  The result is the accepted cell and the cursor
    after it. *)
Fixpoint spawnItem_loop (fuel : nat) (rnd : RandomSource) (k : nat)
    (w h : Z) (segs : list Cell) : option (Cell * nat) :=
  match fuel with
  | O => None
  | S fuel' =>
      let newItemX := random_index (rnd k) w in
      let newItemY := random_index (rnd (S k)) h in
      let collision :=
        existsb (fun s => (cx s =? newItemX) && (cy s =? newItemY)) segs in
      if collision then spawnItem_loop fuel' rnd (S (S k)) w h segs
      else Some (mkCell newItemX newItemY, S (S k))
  end.

Definition with_round (g : Game) (c : Character) (it : Cell) (sc : Z)
    (over loop : bool) : Game :=
  {| gridSizeW := gridSizeW g; gridSizeH := gridSizeH g;
     character := c; item := it;
     characterImage := characterImage g; itemImage := itemImage g;
     backgroundImage := backgroundImage g;
     score := sc; highScore := highScore g; topic := topic g;
     gameOver := over; gameLoopInterval := loop;
     localStorage := localStorage g; console := console g |}.

Definition spawnItem (fuel : nat) (rnd : RandomSource) (k : nat) (g : Game)
    : option (Game * nat) :=
  match spawnItem_loop fuel rnd k (gridSizeW g) (gridSizeH g)
          (segments (character g)) with
  | Some (c, k') =>
      Some (with_round g (character g) c (score g) (gameOver g)
              (gameLoopInterval g), k')
  | None => None
  end.

Definition saveHighScore (g : Game) : Game :=
  if highScore g <? score g then
    {| gridSizeW := gridSizeW g; gridSizeH := gridSizeH g;
       character := character g; item := item g;
       characterImage := characterImage g; itemImage := itemImage g;
       backgroundImage := backgroundImage g;
       score := score g; highScore := score g; topic := topic g;
       gameOver := gameOver g; gameLoopInterval := gameLoopInterval g;
       localStorage := <[localStorageKey g := score g]> (localStorage g);
       console := console g |}
  else g.

(** [endGame]: flag, [clearInterval], [saveHighScore] (and a last render). *)
Definition endGame (g : Game) : Game :=
  saveHighScore
    (with_round g (character g) (item g) (score g) true false).

(** [Game.update]. *)
Definition update (fuel : nat) (rnd : RandomSource) (k : nat) (g : Game)
    : option (Game * nat) :=
  let (moved, c) := move (character g) in
  let g1 := with_round g c (item g) (score g) (gameOver g)
              (gameLoopInterval g) in
  if negb moved then Some (endGame g1, k)
  else
    match segments c with
    | head :: _ =>
        if (cx head =? cx (item g)) && (cy head =? cy (item g)) then
          spawnItem fuel rnd k
            (with_round g1 (grow c) (item g) (score g + 1) (gameOver g)
               (gameLoopInterval g))
        else Some (g1, k)
    | [] => Some (g1, k)
    end.

(** The callback [startGameLoop] hands to [setInterval]. *)
Definition tick (fuel : nat) (rnd : RandomSource) (k : nat) (g : Game)
    : option (Game * nat) :=
  if negb (gameOver g) then update fuel rnd k g else Some (g, k).

(** [setup]. *)
Definition setup (fuel : nat) (rnd : RandomSource) (k : nat) (g : Game)
    : option (Game * nat) :=
  spawnItem fuel rnd k
    (with_round g (newCharacter (gridSizeW g) (gridSizeH g)) (item g) 0
       false (gameLoopInterval g)).

(** [startGameLoop]: re-arms the interval timer. *)
Definition startGameLoop (g : Game) : Game :=
  with_round g (character g) (item g) (score g) (gameOver g) true.

Definition restart (fuel : nat) (rnd : RandomSource) (k : nat) (g : Game)
    : option (Game * nat) :=
  match setup fuel rnd k g with
  | Some (g', k') => Some (startGameLoop g', k')
  | None => None
  end.

Definition handleButtonClick (d : Cell) (g : Game) : Game :=
  if negb (gameOver g) then
    with_round g (setDirection d (character g)) (item g) (score g)
      (gameOver g) (gameLoopInterval g)
  else g.

(** [loadHighScore]: a missing key leaves the constructor's 0. *)
Definition loadHighScore (store : gmap string Z) (key : string) : Z :=
  match store !! key with
  | Some v => v
  | None => 0
  end.

(** The configuration object of the collector. *)
Record Config : Type := mkConfig {
  characterSrc : string;
  itemSrc : string;
  backgroundSrc : string;
  gridWidth : Z;
  gridHeight : Z
}.

Definition gameConfig (a : GameConfig.Assets) : Config :=
  {| characterSrc := GameConfig.character a;
     itemSrc := GameConfig.item a;
     backgroundSrc := GameConfig.background a;
     gridWidth := 20; gridHeight := 20 |}.

(** [new Game(...)] followed by [init()]: the three loads are joined (none
    can reject), the high score is read, [setup] runs and the loop is
    started.  Each load writes its warning when its own [onerror] fires, so
    the console holds the warnings in the order the loads settle.  Before
    [setup] the character and the item are [null]; the record is built with
    the values [setup] is about to overwrite. *)
Definition init (cfg : Config) (tp : string) (net : Network)
    (store : gmap string Z) (fuel : nat) (rnd : RandomSource) (k : nat)
    : option (Game * nat) :=
  let (ci, l1) := loadImage net (characterSrc cfg) in
  let (ii, l2) := loadImage net (itemSrc cfg) in
  let (bi, l3) := loadImage net (backgroundSrc cfg) in
  let '(w1, w2, w3) := in_settle_order (settles net) l1 l2 l3 in
  let key := "collectIt_highScore_" +:+ tp in
  let g0 :=
    {| gridSizeW := gridWidth cfg; gridSizeH := gridHeight cfg;
       character := newCharacter (gridWidth cfg) (gridHeight cfg);
       item := mkCell 0 0;
       characterImage := ci; itemImage := ii; backgroundImage := bi;
       score := 0; highScore := loadHighScore store key; topic := tp;
       gameOver := false; gameLoopInterval := false;
       localStorage := store; console := w1 ++ w2 ++ w3 |} in
  match setup fuel rnd k g0 with
  | Some (g', k') => Some (startGameLoop g', k')
  | None => None
  end.

(** What the page can do to a running collector: fire the interval timer
    or press one of the four direction buttons. *)
Inductive Event : Type :=
| Tick
| Button (d : Cell).

Definition step (fuel : nat) (rnd : RandomSource) (e : Event)
    (s : Game * nat) : option (Game * nat) :=
  let (g, k) := s in
  match e with
  | Tick => if gameLoopInterval g then tick fuel rnd k g else Some (g, k)
  | Button d => Some (handleButtonClick d g, k)
  end.

Fixpoint run (fuel : nat) (rnd : RandomSource) (es : list Event)
    (s : Game * nat) : option (Game * nat) :=
  match es with
  | [] => Some s
  | e :: es' =>
      match step fuel rnd e s with
      | Some s' => run fuel rnd es' s'
      | None => None
      end
  end.

(** *** Vocabulary of the properties *)

Definition in_grid (w h : Z) (c : Cell) : Prop :=
  0 <= cx c < w /\ 0 <= cy c < h.

(** Every cell of the grid is occupied by a segment. *)
Definition grid_full (w h : Z) (segs : list Cell) : Prop :=
  forall c, in_grid w h c -> In c segs.

(** The cell the [n]-th round of the respawn loop draws, when the loop
    starts with the cursor at [k]. *)
Definition drawn_cell (rnd : RandomSource) (k : nat) (w h : Z) (n : nat)
    : Cell :=
  mkCell (random_index (rnd (k + 2 * n)%nat) w)
         (random_index (rnd (S (k + 2 * n))%nat) h).

(** A fair stream of draws: whatever the cursor, every cell of the grid is
    drawn in some later round of the respawn loop.  Independent uniform
    draws are fair with probability 1; a stream that leaves a cell out for
    ever is not one [Math.random()] produces. *)
Definition fair (rnd : RandomSource) (w h : Z) : Prop :=
  forall k c, in_grid w h c -> exists n, drawn_cell rnd k w h n = c.

(** The segments other than the tail (the last one). *)
Definition non_tail (segs : list Cell) : list Cell := removelast segs.

(** The segments behind the head: what [slice(1)] keeps. *)
Definition behind_head (segs : list Cell) : list Cell := tl segs.

(** *** Scenarios *)

(** A game on the 20x20 grid of [gameConfig] with the given character,
    item and score, every image loaded, nothing stored. *)
Definition scenario (c : Character) (it : Cell) (sc : Z) : Game :=
  {| gridSizeW := 20; gridSizeH := 20; character := c; item := it;
     characterImage :=
       Some (Loaded (GameConfig.character GameConfig.default_assets));
     itemImage := Some (Loaded (GameConfig.item GameConfig.default_assets));
     backgroundImage :=
       Some (Loaded (GameConfig.background GameConfig.default_assets));
     score := sc; highScore := 0; topic := "default";
     gameOver := false; gameLoopInterval := true;
     localStorage := ∅; console := [] |}.

(** A length-1 character at (10,10) moving right, the item at (11,10). *)
Definition first_item : Game :=
  scenario (newCharacter 20 20) (mkCell 11 10) 0.

(** A length-4 character curled in a 2x2 square: the head at (12,11) has
    just moved left, the tail is at (12,10), and the player has pressed
    "up". *)
Definition tail_chase : Game :=
  scenario
    {| gridW := 20; gridH := 20;
       segments := [mkCell 12 11; mkCell 13 11; mkCell 13 10; mkCell 12 10];
       direction := mkCell (-1) 0;
       nextDirection := mkCell 0 (-1);
       lastTailPosition := Some (mkCell 11 10) |}
    (mkCell 0 0) 3.

(** Draws and inputs that lead a fresh game to [tail_chase]: three items
    are placed right in front of the character, the fourth at (0,0). *)
Definition tail_chase_draws : RandomSource :=
  fun n => nth n [11 # 20; 1 # 2; 3 # 5; 1 # 2; 13 # 20; 1 # 2]%Q 0%Q.

(** Draws that sweep the grid cell by cell: they come in threes, a column,
    a row and a spare, and every cell comes twice in a row, so that the
    respawn loop meets it from even and from odd cursors. *)
Definition sweep (w h : Z) : RandomSource :=
  fun m =>
    let i := Z.of_nat m / 6 in
    if Z.of_nat m mod 3 =? 0 then (inject_Z (i mod w) / inject_Z w)%Q
    else if Z.of_nat m mod 3 =? 1
         then (inject_Z ((i / w) mod h) / inject_Z h)%Q
         else 0%Q.

Definition tail_chase_events : list Event :=
  [Tick; Tick; Tick; Button (mkCell 0 1); Tick; Button (mkCell (-1) 0);
   Tick; Button (mkCell 0 (-1))].

End Collect.

(** ** Dodge the Danger (Flappy-Bird style) *)
Module Dodge.

Local Open Scope Q_scope.

(** [a < b] on JavaScript numbers, as a boolean. *)
Definition Qltb (a b : Q) : bool := negb (Qle_bool b a).

Record Bird : Type := mkBird {
  bx : Q;
  by_ : Q;
  bwidth : Q;
  bheight : Q;
  velocity : Q
}.

Record Pipe : Type := mkPipe {
  image : option Image;
  width : Q;
  gapY : Q;
  gapHeight : Q;
  speed : Q;
  x : Q;
  scored : bool
}.

(** [new Pipe(image, gapY, gapHeight, width, speed, canvasWidth)]. *)
Definition newPipe (img : option Image) (gy gh w sp canvasWidth : Q) : Pipe :=
  {| image := img; width := w; gapY := gy; gapHeight := gh; speed := sp;
     x := canvasWidth; scored := false |}.

(** [Pipe.update]. *)
Definition Pipe_update (dt : Q) (p : Pipe) : Pipe :=
  {| image := image p; width := width p; gapY := gapY p;
     gapHeight := gapHeight p; speed := speed p;
     x := x p - speed p * dt; scored := scored p |}.

Definition set_scored (p : Pipe) : Pipe :=
  {| image := image p; width := width p; gapY := gapY p;
     gapHeight := gapHeight p; speed := speed p;
     x := x p; scored := true |}.

(** [Pipe.isColliding]. *)
Definition isColliding (p : Pipe) (bird : Bird) : bool :=
  if Qltb (x p) (bx bird + bwidth bird) && Qltb (bx bird) (x p + width p)
  then
    if Qltb (by_ bird) (gapY p)
       || Qltb (gapY p + gapHeight p) (by_ bird + bheight bird)
    then true
    else false
  else false.

(** The configuration object.  The script holds one such object
    ([gameConfig]); the game keeps a reference to it in [this.config] and
    writes to it, and nothing else reads it afterwards, so it is a field of
    the game state. *)
Record Config : Type := mkConfig {
  birdSrc : string;
  birdWidth : Q;
  birdHeight : Q;
  pipeSrc : string;
  pipeWidth : Q;
  pipeGapHeight : Q;
  pipeSpeed : Q;
  spawnInterval : Q;
  backgroundSrc : string;
  speedIncreaseRate : Q;
  gapDecreaseRate : Q
}.

Definition gameConfig (a : GameConfig.Assets) : Config :=
  {| birdSrc := GameConfig.character a;
     birdWidth := 40; birdHeight := 40;
     pipeSrc := GameConfig.item a;
     pipeWidth := 120; pipeGapHeight := 200; pipeSpeed := 200;
     spawnInterval := 2.5;
     backgroundSrc := GameConfig.background a;
     speedIncreaseRate := 2; gapDecreaseRate := 0.5 |}.

Record Game : Type := mkGame {
  canvasWidth : Q;
  canvasHeight : Q;
  config : Config;
  bird : Bird;
  birdImage : option Image;
  pipeImage : option Image;
  backgroundImage : option Image;
  pipes : list Pipe;
  pipeTimer : Q;
  score : Z;
  highScore : Z;
  topic : string;
  gameOver : bool;
  lastTime : Q;
  (** callbacks queued with [requestAnimationFrame] and not yet run *)
  pendingFrames : nat;
  localStorage : gmap string Z;
  console : list string
}.

Definition gravity : Q := 1500.
Definition jumpVelocity : Q := -500.

Definition localStorageKey (g : Game) : string :=
  "dodgeDanger_highScore_" +:+ topic g.

(** [new Game(canvasId, config)]; the canvas has no size yet. *)
Definition newGame (cfg : Config) (tp : string) (store : gmap string Z)
    : Game :=
  {| canvasWidth := 0; canvasHeight := 0; config := cfg;
     bird := mkBird 0 0 (birdWidth cfg) (birdHeight cfg) 0;
     birdImage := None; pipeImage := None; backgroundImage := None;
     pipes := []; pipeTimer := 0; score := 0%Z; highScore := 0%Z;
     topic := tp; gameOver := false; lastTime := 0; pendingFrames := 0%nat;
     localStorage := store; console := [] |}.

(** Field writes. *)
Definition set_bird (b : Bird) (g : Game) : Game :=
  {| canvasWidth := canvasWidth g; canvasHeight := canvasHeight g;
     config := config g; bird := b;
     birdImage := birdImage g; pipeImage := pipeImage g;
     backgroundImage := backgroundImage g;
     pipes := pipes g; pipeTimer := pipeTimer g; score := score g;
     highScore := highScore g; topic := topic g; gameOver := gameOver g;
     lastTime := lastTime g; pendingFrames := pendingFrames g;
     localStorage := localStorage g; console := console g |}.

Definition set_pipes (ps : list Pipe) (g : Game) : Game :=
  {| canvasWidth := canvasWidth g; canvasHeight := canvasHeight g;
     config := config g; bird := bird g;
     birdImage := birdImage g; pipeImage := pipeImage g;
     backgroundImage := backgroundImage g;
     pipes := ps; pipeTimer := pipeTimer g; score := score g;
     highScore := highScore g; topic := topic g; gameOver := gameOver g;
     lastTime := lastTime g; pendingFrames := pendingFrames g;
     localStorage := localStorage g; console := console g |}.

Definition set_pipeTimer (t : Q) (g : Game) : Game :=
  {| canvasWidth := canvasWidth g; canvasHeight := canvasHeight g;
     config := config g; bird := bird g;
     birdImage := birdImage g; pipeImage := pipeImage g;
     backgroundImage := backgroundImage g;
     pipes := pipes g; pipeTimer := t; score := score g;
     highScore := highScore g; topic := topic g; gameOver := gameOver g;
     lastTime := lastTime g; pendingFrames := pendingFrames g;
     localStorage := localStorage g; console := console g |}.

Definition set_config (c : Config) (g : Game) : Game :=
  {| canvasWidth := canvasWidth g; canvasHeight := canvasHeight g;
     config := c; bird := bird g;
     birdImage := birdImage g; pipeImage := pipeImage g;
     backgroundImage := backgroundImage g;
     pipes := pipes g; pipeTimer := pipeTimer g; score := score g;
     highScore := highScore g; topic := topic g; gameOver := gameOver g;
     lastTime := lastTime g; pendingFrames := pendingFrames g;
     localStorage := localStorage g; console := console g |}.

Definition set_score (s : Z) (g : Game) : Game :=
  {| canvasWidth := canvasWidth g; canvasHeight := canvasHeight g;
     config := config g; bird := bird g;
     birdImage := birdImage g; pipeImage := pipeImage g;
     backgroundImage := backgroundImage g;
     pipes := pipes g; pipeTimer := pipeTimer g; score := s;
     highScore := highScore g; topic := topic g; gameOver := gameOver g;
     lastTime := lastTime g; pendingFrames := pendingFrames g;
     localStorage := localStorage g; console := console g |}.

Definition set_gameOver (b : bool) (g : Game) : Game :=
  {| canvasWidth := canvasWidth g; canvasHeight := canvasHeight g;
     config := config g; bird := bird g;
     birdImage := birdImage g; pipeImage := pipeImage g;
     backgroundImage := backgroundImage g;
     pipes := pipes g; pipeTimer := pipeTimer g; score := score g;
     highScore := highScore g; topic := topic g; gameOver := b;
     lastTime := lastTime g; pendingFrames := pendingFrames g;
     localStorage := localStorage g; console := console g |}.

Definition set_clock (t : Q) (frames : nat) (g : Game) : Game :=
  {| canvasWidth := canvasWidth g; canvasHeight := canvasHeight g;
     config := config g; bird := bird g;
     birdImage := birdImage g; pipeImage := pipeImage g;
     backgroundImage := backgroundImage g;
     pipes := pipes g; pipeTimer := pipeTimer g; score := score g;
     highScore := highScore g; topic := topic g; gameOver := gameOver g;
     lastTime := t; pendingFrames := frames;
     localStorage := localStorage g; console := console g |}.

Definition set_canvas (w h : Q) (g : Game) : Game :=
  {| canvasWidth := w; canvasHeight := h;
     config := config g; bird := bird g;
     birdImage := birdImage g; pipeImage := pipeImage g;
     backgroundImage := backgroundImage g;
     pipes := pipes g; pipeTimer := pipeTimer g; score := score g;
     highScore := highScore g; topic := topic g; gameOver := gameOver g;
     lastTime := lastTime g; pendingFrames := pendingFrames g;
     localStorage := localStorage g; console := console g |}.

(** [loadHighScore]. *)
Definition loadHighScore (g : Game) : Game :=
  match localStorage g !! localStorageKey g with
  | Some v =>
      {| canvasWidth := canvasWidth g; canvasHeight := canvasHeight g;
         config := config g; bird := bird g;
         birdImage := birdImage g; pipeImage := pipeImage g;
         backgroundImage := backgroundImage g;
         pipes := pipes g; pipeTimer := pipeTimer g; score := score g;
         highScore := v; topic := topic g; gameOver := gameOver g;
         lastTime := lastTime g; pendingFrames := pendingFrames g;
         localStorage := localStorage g; console := console g |}
  | None => g
  end.

(** [saveHighScore]. *)
Definition saveHighScore (g : Game) : Game :=
  if (highScore g <? score g)%Z then
    {| canvasWidth := canvasWidth g; canvasHeight := canvasHeight g;
       config := config g; bird := bird g;
       birdImage := birdImage g; pipeImage := pipeImage g;
       backgroundImage := backgroundImage g;
       pipes := pipes g; pipeTimer := pipeTimer g; score := score g;
       highScore := score g; topic := topic g; gameOver := gameOver g;
       lastTime := lastTime g; pendingFrames := pendingFrames g;
       localStorage := <[localStorageKey g := score g]> (localStorage g);
       console := console g |}
  else g.

(** [restart]; [now] is what [performance.now()] returns. *)
Definition restart (now : Q) (g : Game) : Game :=
  let b := bird g in
  {| canvasWidth := canvasWidth g; canvasHeight := canvasHeight g;
     config := config g;
     bird := mkBird (bx b) (canvasHeight g / 2) (bwidth b) (bheight b) 0;
     birdImage := birdImage g; pipeImage := pipeImage g;
     backgroundImage := backgroundImage g;
     pipes := []; pipeTimer := 0; score := 0%Z;
     highScore := highScore g; topic := topic g; gameOver := false;
     lastTime := now; pendingFrames := S (pendingFrames g);
     localStorage := localStorage g; console := console g |}.

(** The gap position chosen at a spawn, for the draw [r]. *)
Definition spawn_gapY (gh canvasH r : Q) : Q :=
  let minY := gh * 0.5 in
  let maxY := canvasH - gh * 1.5 in
  minY + r * (maxY - minY).

(** The body of [if (this.pipeTimer <= 0) { ... }]: push a pipe, reset
    the timer, ramp the difficulty.  [r1] and [r2] are the two draws. *)
Definition spawnPipe (r1 r2 : Q) (g : Game) : Game :=
  let cfg := config g in
  let gh := pipeGapHeight cfg in
  let gy := spawn_gapY gh (canvasHeight g) r1 in
  let p := newPipe (pipeImage g) gy gh (pipeWidth cfg) (pipeSpeed cfg)
             (canvasWidth g) in
  let cfg' :=
    {| birdSrc := birdSrc cfg; birdWidth := birdWidth cfg;
       birdHeight := birdHeight cfg; pipeSrc := pipeSrc cfg;
       pipeWidth := pipeWidth cfg;
       pipeGapHeight := Qmax 80 (pipeGapHeight cfg - gapDecreaseRate cfg);
       pipeSpeed := pipeSpeed cfg + speedIncreaseRate cfg;
       spawnInterval := spawnInterval cfg;
       backgroundSrc := backgroundSrc cfg;
       speedIncreaseRate := speedIncreaseRate cfg;
       gapDecreaseRate := gapDecreaseRate cfg |} in
  set_config cfg'
    (set_pipeTimer (spawnInterval cfg * (0.8 + r2 * 0.4))
       (set_pipes (pipes g ++ [p]) g)).

(** The callback of [this.pipes.forEach] for one pipe: move it, score it,
    test the collision.  The game carries the score, the flag and the
    high score through the iteration. *)
Definition visitPipe (dt : Q) (p : Pipe) (g : Game) : Pipe * Game :=
  let p1 := Pipe_update dt p in
  let passed := negb (scored p1) && Qltb (x p1 + width p1) (bx (bird g)) in
  let p2 := if passed then set_scored p1 else p1 in
  let g1 := if passed then set_score (score g + 1)%Z g else g in
  let g2 := if isColliding p2 (bird g1)
            then saveHighScore (set_gameOver true g1) else g1 in
  (p2, g2).

Fixpoint forEachPipe (dt : Q) (ps : list Pipe) (g : Game)
    : list Pipe * Game :=
  match ps with
  | [] => ([], g)
  | p :: rest =>
      let (p', g1) := visitPipe dt p g in
      let (rest', g2) := forEachPipe dt rest g1 in
      (p' :: rest', g2)
  end.

(** [Game.update(dt)]; [k] is the cursor into the random stream. *)
Definition update (rnd : RandomSource) (k : nat) (dt : Q) (g : Game)
    : Game * nat :=
  if gameOver g then (g, k)
  else
    let b := bird g in
    let v := velocity b + gravity * dt in
    let y := by_ b + v * dt in
    let g1 := set_bird (mkBird (bx b) y (bwidth b) (bheight b) v) g in
    if Qltb y 0 || Qltb (canvasHeight g) (y + bheight b) then
      (saveHighScore (set_gameOver true g1), k)
    else
      let g2 := set_pipeTimer (pipeTimer g1 - dt) g1 in
      let (g3, k') :=
        if Qle_bool (pipeTimer g2) 0
        then (spawnPipe (rnd k) (rnd (S k)) g2, S (S k))
        else (g2, k) in
      let (ps, g4) := forEachPipe dt (pipes g3) g3 in
      (set_pipes (filter (fun p => Qltb (- width p) (x p)) ps) g4, k').

(** [Game.loop(timestamp)], one animation frame. *)
Definition loop (rnd : RandomSource) (k : nat) (timestamp : Q) (g : Game)
    : Game * nat :=
  let dt := Qmin ((timestamp - lastTime g) / 1000) 0.1 in
  let g1 := set_clock timestamp (Nat.pred (pendingFrames g)) g in
  let (g2, k') := update rnd k dt g1 in
  if negb (gameOver g2)
  then (set_clock (lastTime g2) (S (pendingFrames g2)) g2, k')
  else (g2, k').

(** The touch/click handler installed by [init]. *)
Definition jumpHandler (now : Q) (g : Game) : Game :=
  if negb (gameOver g) then
    let b := bird g in
    set_bird (mkBird (bx b) (by_ b) (bwidth b) (bheight b) jumpVelocity) g
  else restart now g.

(** The [resize] listener installed by [init]. *)
Definition onResize (innerWidth innerHeight : Q) (g : Game) : Game :=
  let g1 := set_canvas innerWidth innerHeight g in
  if negb (gameOver g1) then
    let b := bird g1 in
    set_bird (mkBird (innerWidth * 0.2) (by_ b) (bwidth b) (bheight b)
                (velocity b)) g1
  else g1.

(** [loadImage] of the dodge game: rejects with an [Error] on failure. *)
Definition loadImage (net : Network) (src : string) : Image + string :=
  if net src then inl (Loaded src)
  else inr ("Failed to load image: " +:+ src).

(** [Promise.all] over the three loads: the images, in array order, when
    every load fulfils; otherwise a rejection, whose reason is that of the
    load that is the first to fail in the order the loads settle. *)
Definition loadAll (net : Network) (cfg : Config)
    : (Image * Image * Image) + string :=
  match in_settle_order (settles net)
          (loadImage net (birdSrc cfg)) (loadImage net (pipeSrc cfg))
          (loadImage net (backgroundSrc cfg)) with
  | (inl p, inl q, inl r) => inl (in_array_order (settles net) p q r)
  | (inr e, _, _) => inr e
  | (_, inr e, _) => inr e
  | (_, _, inr e) => inr e
  end.

(** [Game.init()], run to the settlement of the asset promise: the [then]
    branch assigns the images, reads the high score and calls [restart];
    the [catch] branch writes the error to the console and does nothing
    else. *)
Definition init (net : Network) (innerWidth innerHeight now : Q) (g : Game)
    : Game :=
  let g1 := set_canvas innerWidth innerHeight g in
  let b := bird g1 in
  let g2 := set_bird (mkBird (innerWidth * 0.2) (innerHeight / 2)
                        (bwidth b) (bheight b) (velocity b)) g1 in
  match loadAll net (config g2) with
  | inl (bi, pi, gi) =>
      let g3 :=
        {| canvasWidth := canvasWidth g2; canvasHeight := canvasHeight g2;
           config := config g2; bird := bird g2;
           birdImage := Some bi; pipeImage := Some pi;
           backgroundImage := Some gi;
           pipes := pipes g2; pipeTimer := pipeTimer g2; score := score g2;
           highScore := highScore g2; topic := topic g2;
           gameOver := gameOver g2; lastTime := lastTime g2;
           pendingFrames := pendingFrames g2;
           localStorage := localStorage g2; console := console g2 |} in
      restart now (loadHighScore g3)
  | inr err =>
      {| canvasWidth := canvasWidth g2; canvasHeight := canvasHeight g2;
         config := config g2; bird := bird g2;
         birdImage := birdImage g2; pipeImage := pipeImage g2;
         backgroundImage := backgroundImage g2;
         pipes := pipes g2; pipeTimer := pipeTimer g2; score := score g2;
         highScore := highScore g2; topic := topic g2;
         gameOver := gameOver g2; lastTime := lastTime g2;
         pendingFrames := pendingFrames g2;
         localStorage := localStorage g2; console := console g2 ++ [err] |}
  end.

(** What the page can do to a game: run a queued animation frame at a
    timestamp, deliver a tap, or resize the window. *)
Inductive Event : Type :=
| Frame (timestamp : Q)
| Tap (now : Q)
| Resize (innerWidth innerHeight : Q).

Definition step (rnd : RandomSource) (e : Event) (s : Game * nat)
    : Game * nat :=
  let (g, k) := s in
  match e with
  | Frame t => if (0 <? pendingFrames g)%nat then loop rnd k t g else (g, k)
  | Tap now => (jumpHandler now g, k)
  | Resize w h => (onResize w h g, k)
  end.

Definition run (rnd : RandomSource) (es : list Event) (s : Game * nat)
    : Game * nat :=
  fold_left (fun s e => step rnd e s) es s.

(** *** Vocabulary of the properties *)

(** Two horizontal spans [(a1,a2)] and [(b1,b2)] overlap: some abscissa
    lies strictly inside both. *)
Definition spans_overlap (a1 a2 b1 b2 : Q) : Prop :=
  exists t, a1 < t /\ t < a2 /\ b1 < t /\ t < b2.

(** The vertical span [[lo,hi]] is outside the interval [[glo,ghi]]: it
    reaches a height that is not in the interval (it is not contained in
    it). *)
Definition span_outside (lo hi glo ghi : Q) : Prop :=
  exists t, lo <= t /\ t <= hi /\ (t < glo \/ ghi < t).

(** The successive states of one pipe over the frames that visit it; each
    visit comes with its time step and the game it happens in. *)
Fixpoint lifetime (visits : list (Q * Game)) (p : Pipe) : list Pipe :=
  match visits with
  | [] => []
  | (dt, g) :: vs =>
      let p' := fst (visitPipe dt p g) in
      p' :: lifetime vs p'
  end.

(** How often [scored] goes from [false] to [true] along [p :: ps]. *)
Fixpoint transitions (p : Pipe) (ps : list Pipe) : nat :=
  match ps with
  | [] => 0
  | p' :: ps' =>
      ((if negb (scored p) && scored p' then 1 else 0)
       + transitions p' ps')%nat
  end.

(** *** Scenarios *)

(** The page as loaded: a fresh game on the default topic with nothing
    stored, initialised in a window of the given size at time 0. *)
Definition loaded_page (net : Network) (innerWidth innerHeight : Q) : Game :=
  init net innerWidth innerHeight 0
    (newGame (gameConfig GameConfig.default_assets) "default" ∅).

Definition online : Network := all_loads true Settle012.

(** A network on which the background of the topic is missing. *)
Definition no_background : Network :=
  {| fires_onload := fun src =>
       negb (String.eqb src
               (GameConfig.background GameConfig.default_assets));
     settles := Settle012 |}.

(** A run in which a pipe spawned in a wide window is still on its way
    when the window is made narrow: the next pipe starts closer to the
    bird and overtakes it.  Frames come every 100 ms; the taps keep the
    bird inside the gap of the second pipe. *)
Definition overtaking_draws : RandomSource :=
  fun n => nth n [0; 0; 99 # 100; 0] 0.

Definition frames (from to : nat) : list Event :=
  map (fun n => Frame (inject_Z (100 * Z.of_nat n))) (seq from (S to - from)).

Definition overtaking_events : list Event :=
  [Frame 100; Resize 300 600] ++ frames 2 3
  ++ [Tap 300] ++ frames 4 9
  ++ [Tap 900] ++ frames 10 14
  ++ [Tap 1400] ++ frames 15 20
  ++ [Tap 2000] ++ frames 21 26
  ++ [Tap 2600] ++ frames 27 31
  ++ [Tap 3100] ++ frames 32 37
  ++ [Tap 3700].

End Dodge.

(** ** The collector's page: buttons, keyboard and swipes *)
Module CollectPage.
Import Collect.

Local Open Scope Z_scope.

(** [a > b] on JavaScript numbers, as a boolean. *)
Definition Qgtb (a b : Q) : bool := negb (Qle_bool a b).

(** The four buttons [addEventListeners] wires up. *)
Inductive ButtonId : Type := BtnUp | BtnDown | BtnLeft | BtnRight.

(** The direction the click listener of each button passes to
    [handleButtonClick]. *)
Definition buttonDirection (b : ButtonId) : Cell :=
  match b with
  | BtnUp => mkCell 0 (-1)
  | BtnDown => mkCell 0 1
  | BtnLeft => mkCell (-1) 0
  | BtnRight => mkCell 1 0
  end.

(** The [switch (e.key)] of [handleKeyDown]. *)
Definition keyDirection (key : string) : option Cell :=
  if String.eqb key "ArrowUp" then Some (mkCell 0 (-1))
  else if String.eqb key "ArrowDown" then Some (mkCell 0 1)
  else if String.eqb key "ArrowLeft" then Some (mkCell (-1) 0)
  else if String.eqb key "ArrowRight" then Some (mkCell 1 0)
  else None.

(** [this.character.setDirection(d)] on the game's character. *)
Definition steer (d : Cell) (g : Game) : Game :=
  with_round g (setDirection d (character g)) (item g) (score g)
    (gameOver g) (gameLoopInterval g).

(** [handleKeyDown]. *)
Definition handleKeyDown (fuel : nat) (rnd : RandomSource) (k : nat)
    (key : string) (g : Game) : option (Game * nat) :=
  if gameOver g && String.eqb key "Enter" then restart fuel rnd k g
  else if gameOver g then Some (g, k)
  else
    match keyDirection key with
    | Some d => Some (steer d g, k)
    | None => Some (g, k)
    end.

(** The game together with the swipe state of its constructor. *)
Record Page : Type := mkPage {
  game : Game;
  touchStartX : Q;
  touchStartY : Q
}.

Definition swipeThreshold : Q := 30.

(** The direction [handleCanvasTouchEnd] derives from the displacement of
    a touch, if any. *)
Definition swipeDirection (dx dy : Q) : option Cell :=
  if Qgtb (Qabs dx) (Qabs dy) then
    if Qgtb (Qabs dx) swipeThreshold
    then Some (if Qgtb dx 0 then mkCell 1 0 else mkCell (-1) 0)
    else None
  else
    if Qgtb (Qabs dy) swipeThreshold
    then Some (if Qgtb dy 0 then mkCell 0 1 else mkCell 0 (-1))
    else None.

(** [handleCanvasTouchStart] for a touch at [(clientX, clientY)]. *)
Definition handleCanvasTouchStart (fuel : nat) (rnd : RandomSource)
    (k : nat) (clientX clientY : Q) (p : Page) : option (Page * nat) :=
  if gameOver (game p) then
    match restart fuel rnd k (game p) with
    | Some (g', k') => Some (mkPage g' (touchStartX p) (touchStartY p), k')
    | None => None
    end
  else Some (mkPage (game p) clientX clientY, k).

(** [handleCanvasTouchEnd] for a touch released at [(clientX, clientY)]. *)
Definition handleCanvasTouchEnd (clientX clientY : Q) (p : Page) : Page :=
  if gameOver (game p) || Qeq_bool (touchStartX p) 0 then p
  else
    let dx := (clientX - touchStartX p)%Q in
    let dy := (clientY - touchStartY p)%Q in
    let g' :=
      match swipeDirection dx dy with
      | Some d => steer d (game p)
      | None => game p
      end in
    mkPage g' 0 0.

(** Everything the page delivers to the game. *)
Inductive Input : Type :=
| Timer
| Click (b : ButtonId)
| KeyDown (key : string)
| TouchStart (clientX clientY : Q)
| TouchEnd (clientX clientY : Q).

Definition deliver (fuel : nat) (rnd : RandomSource) (i : Input)
    (s : Page * nat) : option (Page * nat) :=
  let (p, k) := s in
  let same_touch r :=
    match r with
    | Some (g', k') => Some (mkPage g' (touchStartX p) (touchStartY p), k')
    | None => None
    end in
  match i with
  | Timer =>
      if gameLoopInterval (game p)
      then same_touch (tick fuel rnd k (game p))
      else Some (p, k)
  | Click b =>
      same_touch (Some (handleButtonClick (buttonDirection b) (game p), k))
  | KeyDown key => same_touch (handleKeyDown fuel rnd k key (game p))
  | TouchStart x y => handleCanvasTouchStart fuel rnd k x y p
  | TouchEnd x y => Some (handleCanvasTouchEnd x y p, k)
  end.

Fixpoint play (fuel : nat) (rnd : RandomSource) (inputs : list Input)
    (s : Page * nat) : option (Page * nat) :=
  match inputs with
  | [] => Some s
  | i :: rest =>
      match deliver fuel rnd i s with
      | Some s' => play fuel rnd rest s'
      | None => None
      end
  end.

(** The page after [new Game(...)] and [init()]. *)
Definition openPage (cfg : Config) (tp : string) (net : Network)
    (store : gmap string Z) (fuel : nat) (rnd : RandomSource) (k : nat)
    : option (Page * nat) :=
  match init cfg tp net store fuel rnd k with
  | Some (g, k') => Some (mkPage g 0 0, k')
  | None => None
  end.

(** *** Canvas layout *)

Record Layout : Type := mkLayout {
  canvasWidth : Q;
  canvasHeight : Q;
  cellSizeW : Q;
  cellSizeH : Q
}.

(** [resizeAndCalculate] for a container of the given client size: the
    canvas size and the cell size it assigns. *)
Definition resizeAndCalculate (availableWidth availableHeight : Q)
    (gridW gridH : Z) : Layout :=
  let gridAspectRatio := (inject_Z gridW / inject_Z gridH)%Q in
  let size :=
    if Qgtb (availableWidth / availableHeight) gridAspectRatio
    then ((availableHeight * gridAspectRatio)%Q, availableHeight)
    else (availableWidth, (availableWidth / gridAspectRatio)%Q) in
  {| canvasWidth := fst size; canvasHeight := snd size;
     cellSizeW := (fst size / inject_Z gridW)%Q;
     cellSizeH := (snd size / inject_Z gridH)%Q |}.

(** *** Vocabulary of the properties *)

(** One of the four grid directions. *)
Definition unit_step (d : Cell) : Prop :=
  d = mkCell 0 (-1) \/ d = mkCell 0 1 \/ d = mkCell (-1) 0 \/ d = mkCell 1 0.

Definition opposite (a b : Cell) : Prop :=
  cx a = - cx b /\ cy a = - cy b.

Definition adjacent (a b : Cell) : Prop :=
  Z.abs (cx a - cx b) + Z.abs (cy a - cy b) = 1.

(** Consecutive segments are one grid step apart. *)
Fixpoint chained (segs : list Cell) : Prop :=
  match segs with
  | a :: ((b :: _) as rest) => adjacent a b /\ chained rest
  | _ => True
  end.

(** The head is where the segment behind it was, plus the direction. *)
Definition heading (segs : list Cell) (dir : Cell) : Prop :=
  match segs with
  | h :: n :: _ => h = new_head n dir
  | _ => True
  end.

(** The state of a collector game between two inputs. *)
Record well_formed (g : Game) : Prop := mkWellFormed {
  wf_grid : 0 < gridSizeW g /\ 0 < gridSizeH g;
  wf_shared : gridW (character g) = gridSizeW g
              /\ gridH (character g) = gridSizeH g;
  wf_nonempty : segments (character g) <> [];
  wf_nodup : NoDup (segments (character g));
  wf_in_grid : Forall (in_grid (gridSizeW g) (gridSizeH g))
                 (segments (character g));
  wf_chained : chained (segments (character g));
  wf_length : Z.of_nat (length (segments (character g))) = score g + 1;
  wf_item : ~ In (item g) (segments (character g));
  wf_item_grid : in_grid (gridSizeW g) (gridSizeH g) (item g);
  wf_direction : unit_step (direction (character g))
                 /\ unit_step (nextDirection (character g));
  wf_timer : gameLoopInterval g = negb (gameOver g);
  wf_running :
    gameOver g = false ->
    heading (segments (character g)) (direction (character g))
    /\ ((1 < length (segments (character g)))%nat ->
        ~ opposite (nextDirection (character g)) (direction (character g)))
}.

(** What an input does to the scores: either it leaves the high score and
    the store alone (and does not end the run), or it ends the run and
    saves the score of that moment. *)
Definition quiet (g g' : Game) : Prop :=
  highScore g' = highScore g /\ localStorage g' = localStorage g
  /\ (gameOver g' = true -> gameOver g = true /\ score g' = score g).

Definition ended (g g' : Game) : Prop :=
  gameOver g = false /\ gameOver g' = true /\ score g' = score g
  /\ highScore g' = Z.max (highScore g) (score g)
  /\ localStorage g'
     = if highScore g <? score g
       then <[localStorageKey g := score g]> (localStorage g)
       else localStorage g.

(** *** Scenario *)

(** The inputs of [tail_chase_events], as the page delivers them. *)
Definition tail_chase_inputs : list Input :=
  [Timer; Timer; Timer; Click BtnDown; Timer; Click BtnLeft; Timer;
   Click BtnUp].

End CollectPage.

(** ** Topic and storage keys *)
Module Topic.

(** [getTopicFromUrl] and the constructors' [GAME_ASSETS.topic || 'default']:
    [param] is what [urlParams.get('topic')] returns, [None] for [null]. *)
Definition getTopicFromUrl (param : option string) : string :=
  match param with
  | Some t => if String.eqb t "" then "default" else t
  | None => "default"
  end.

Definition dodgeKey (topic : string) : string :=
  "dodgeDanger_highScore_" +:+ topic.

Definition collectKey (topic : string) : string :=
  "collectIt_highScore_" +:+ topic.

End Topic.

(** ** The stages of a dodge frame *)
Module DodgeParts.
Import Dodge.

Local Open Scope Q_scope.

(** The bird after the physics step of [update]. *)
Definition fallen (dt : Q) (b : Bird) : Bird :=
  let v := velocity b + gravity * dt in
  mkBird (bx b) (by_ b + v * dt) (bwidth b) (bheight b) v.

(** The test [bird.y < 0 || bird.y + bird.height > canvas.height]. *)
Definition out_of_bounds (canvasH : Q) (b : Bird) : bool :=
  Qltb (by_ b) 0 || Qltb canvasH (by_ b + bheight b).

(** The game of an in-bounds frame when the [forEach] starts: bird moved,
    timer counted down, and a pipe spawned if the timer ran out. *)
Definition before_pipes (rnd : RandomSource) (k : nat) (dt : Q) (g : Game)
    : Game :=
  let g2 :=
    set_pipeTimer (pipeTimer g - dt) (set_bird (fallen dt (bird g)) g) in
  if Qle_bool (pipeTimer g2) 0 then spawnPipe (rnd k) (rnd (S k)) g2 else g2.

(** The configuration after the difficulty ramp of a spawn. *)
Definition ramped (cfg : Config) : Config :=
  {| birdSrc := birdSrc cfg; birdWidth := birdWidth cfg;
     birdHeight := birdHeight cfg; pipeSrc := pipeSrc cfg;
     pipeWidth := pipeWidth cfg;
     pipeGapHeight := Qmax 80 (pipeGapHeight cfg - gapDecreaseRate cfg);
     pipeSpeed := pipeSpeed cfg + speedIncreaseRate cfg;
     spawnInterval := spawnInterval cfg;
     backgroundSrc := backgroundSrc cfg;
     speedIncreaseRate := speedIncreaseRate cfg;
     gapDecreaseRate := gapDecreaseRate cfg |}.

(** Does this frame take an unscored pipe past the bird's [x]? *)
Definition newly_passed (dt birdX : Q) (p : Pipe) : bool :=
  negb (scored p) && Qltb (x p - speed p * dt + width p) birdX.

(** The high score in memory and the stored one agree; a missing entry
    counts as 0. *)
Definition synced (highScore : Z) (store : gmap string Z) (key : string)
    : Prop :=
  store !! key = Some highScore \/ (store !! key = None /\ highScore = 0%Z).

End DodgeParts.

(** * Properties of the collector *)
Module CollectSpec.
Import Collect.

Local Open Scope Z_scope.

Lemma occupied_iff (segs : list Cell) (a b : Z) :
  existsb (fun s => (cx s =? a) && (cy s =? b)) segs = true
  <-> In (mkCell a b) segs.
Proof.
  rewrite existsb_exists. split.
  - intros [[sx sy] [Hin Heq]]. simpl in Heq.
    apply andb_true_iff in Heq. destruct Heq as [Hx Hy].
    apply Z.eqb_eq in Hx. apply Z.eqb_eq in Hy. subst. exact Hin.
  - intros Hin. exists (mkCell a b). split; [exact Hin|].
    simpl. now rewrite !Z.eqb_refl.
Qed.

Lemma occupied_false_iff (segs : list Cell) (a b : Z) :
  existsb (fun s => (cx s =? a) && (cy s =? b)) segs = false
  <-> ~ In (mkCell a b) segs.
Proof.
  rewrite <- occupied_iff. destruct (existsb _ segs); split; intros H;
    try reflexivity; try discriminate; try (intros H'; discriminate).
  exfalso. now apply H.
Qed.

Lemma outside_grid_false_iff (w h : Z) (c : Cell) :
  outside_grid w h c = false <-> in_grid w h c.
Proof.
  unfold outside_grid, in_grid.
  rewrite !orb_false_iff, !Z.ltb_ge, !Z.leb_gt. lia.
Qed.

Lemma random_index_range (r : Q) (n : Z) :
  (0 <= r)%Q -> (r < 1)%Q -> 0 < n -> 0 <= random_index r n < n.
Proof.
  intros H0 H1 Hn. unfold random_index.
  assert (Hq : (0 < inject_Z n)%Q).
  { change 0%Q with (inject_Z 0). now rewrite <- Zlt_Qlt. }
  split.
  - change 0 with (Qfloor (inject_Z 0)) at 1.
    apply Qfloor_resp_le. change (inject_Z 0) with 0%Q.
    apply Qmult_le_0_compat; [exact H0 | now apply Qlt_le_weak].
  - assert (Hlt : (r * inject_Z n < inject_Z n)%Q).
    { rewrite <- (Qmult_1_l (inject_Z n)) at 2.
      now apply Qmult_lt_compat_r. }
    pose proof (Qfloor_le (r * inject_Z n)) as Hfl.
    assert (Hc : (inject_Z (Qfloor (r * inject_Z n)) < inject_Z n)%Q).
    { eapply Qle_lt_trans; eauto. }
    now rewrite <- Zlt_Qlt in Hc.
Qed.

Lemma drawn_cell_in_grid (rnd : RandomSource) (k : nat) (w h : Z) (n : nat) :
  valid_random rnd -> 0 < w -> 0 < h -> in_grid w h (drawn_cell rnd k w h n).
Proof.
  intros Hv Hw Hh. unfold in_grid, drawn_cell. simpl.
  split; apply random_index_range; try apply Hv; assumption.
Qed.

(** The loop only ever returns a cell it drew and found free. *)
Lemma spawnItem_loop_sound (fuel : nat) (rnd : RandomSource) :
  forall (k : nat) (w h : Z) (segs : list Cell) (c : Cell) (k' : nat),
    spawnItem_loop fuel rnd k w h segs = Some (c, k') ->
    ~ In c segs /\ exists n, (n < fuel)%nat /\ c = drawn_cell rnd k w h n
                             /\ k' = (k + 2 * S n)%nat.
Proof.
  induction fuel as [|fuel IH]; intros k w h segs c k' H; simpl in H.
  - discriminate.
  - destruct (existsb _ segs) eqn:E.
    + apply IH in H. destruct H as [Hfree [n [Hn [Hc Hk]]]].
      split; [exact Hfree|]. exists (S n). split; [lia|].
      split.
      * rewrite Hc. unfold drawn_cell. f_equal; f_equal; f_equal; lia.
      * lia.
    + inversion H; subst. split.
      * now apply occupied_false_iff.
      * exists 0%nat. split; [lia|]. split.
        -- unfold drawn_cell. f_equal; f_equal; f_equal; lia.
        -- lia.
Qed.

(** As soon as some round draws a free cell the loop returns. *)
Lemma spawnItem_loop_returns (rnd : RandomSource) (w h : Z)
    (segs : list Cell) :
  forall (n k : nat),
    ~ In (drawn_cell rnd k w h n) segs ->
    exists c k', spawnItem_loop (S n) rnd k w h segs = Some (c, k').
Proof.
  induction n as [|n IH]; intros k Hfree.
  - simpl. unfold drawn_cell in Hfree.
    replace (k + 2 * 0)%nat with k in Hfree by lia.
    apply occupied_false_iff in Hfree. rewrite Hfree. eauto.
  - change (spawnItem_loop (S (S n)) rnd k w h segs)
      with (if existsb (fun s => (cx s =? random_index (rnd k) w)
                                 && (cy s =? random_index (rnd (S k)) h)) segs
            then spawnItem_loop (S n) rnd (S (S k)) w h segs
            else Some (mkCell (random_index (rnd k) w)
                         (random_index (rnd (S k)) h), S (S k))).
    destruct (existsb _ segs); [|eauto].
    apply IH. unfold drawn_cell in *.
    replace (S (S k) + 2 * n)%nat with (k + 2 * S n)%nat by lia.
    exact Hfree.
Qed.

(** More fuel does not change a result. *)
Lemma spawnItem_loop_fuel_mono (rnd : RandomSource) (w h : Z)
    (segs : list Cell) :
  forall (fuel fuel' k : nat) (r : Cell * nat),
    (fuel <= fuel')%nat ->
    spawnItem_loop fuel rnd k w h segs = Some r ->
    spawnItem_loop fuel' rnd k w h segs = Some r.
Proof.
  induction fuel as [|fuel IH]; intros fuel' k r Hle H; [discriminate|].
  destruct fuel' as [|fuel']; [lia|].
  simpl in *. destruct (existsb _ segs); [|exact H].
  apply IH; [lia|exact H].
Qed.

(** On a full grid every draw is rejected. *)
Lemma spawnItem_loop_full (rnd : RandomSource) (w h : Z) (segs : list Cell) :
  valid_random rnd -> 0 < w -> 0 < h -> grid_full w h segs ->
  forall fuel k, spawnItem_loop fuel rnd k w h segs = None.
Proof.
  intros Hv Hw Hh Hfull.
  induction fuel as [|fuel IH]; intros k; simpl; [reflexivity|].
  assert (Hocc : existsb (fun s => (cx s =? random_index (rnd k) w)
                             && (cy s =? random_index (rnd (S k)) h)) segs
                 = true).
  { apply occupied_iff. apply Hfull. split; simpl;
      apply random_index_range; try apply Hv; assumption. }
  rewrite Hocc. apply IH.
Qed.

Lemma segments_nonempty_move (c : Character) :
  segments c <> [] -> segments (snd (move c)) <> [].
Proof.
  unfold move. destruct (segments c) as [|h t] eqn:E; [congruence|].
  intros _.
  destruct (outside_grid _ _ _); simpl; [congruence|].
  destruct (hits_body _ _); simpl; [congruence|].
  destruct t; simpl; congruence.
Qed.

Lemma segments_nonempty_grow (c : Character) :
  segments c <> [] -> segments (grow c) <> [].
Proof.
  unfold grow. simpl. intros H.
  destruct (lastTailPosition c); [|destruct (last (segments c))];
    try assumption;
    destruct (segments c); simpl; congruence.
Qed.

Lemma hits_body_iff (h : Cell) (t : list Cell) (head : Cell) :
  hits_body (h :: t) head = true <-> In head t.
Proof.
  unfold hits_body. simpl tl. destruct head as [a b]. simpl cx. simpl cy.
  rewrite andb_true_iff, occupied_iff, Z.ltb_lt.
  split; [tauto|]. intros Hin. split; [|exact Hin].
  destruct t; [destruct Hin|]. simpl length. lia.
Qed.

(** [move] reports a collision exactly when the new head leaves the grid
    or lies on a segment behind the head. *)
Lemma move_false_iff (c : Character) (h : Cell) (t : list Cell) :
  segments c = h :: t ->
  (fst (move c) = false
   <-> (~ in_grid (gridW c) (gridH c) (new_head h (nextDirection c))
        \/ In (new_head h (nextDirection c)) t)).
Proof.
  intros E. unfold move. rewrite E.
  set (head := new_head h (nextDirection c)).
  destruct (outside_grid (gridW c) (gridH c) head) eqn:Ho.
  - simpl. split; [|reflexivity]. intros _. left.
    rewrite <- outside_grid_false_iff. congruence.
  - apply outside_grid_false_iff in Ho.
    destruct (hits_body (h :: t) head) eqn:Hb.
    + apply hits_body_iff in Hb. simpl.
      split; [intros _; now right | reflexivity].
    + assert (Hnin : ~ In head t).
      { intros Hin. apply (hits_body_iff h) in Hin. congruence. }
      simpl. split; [discriminate|]. intros [H|H]; contradiction.
Qed.

Lemma saveHighScore_gameOver (g : Game) :
  gameOver (saveHighScore g) = gameOver g.
Proof. unfold saveHighScore. now destruct (highScore g <? score g). Qed.

Lemma spawnItem_frame (fuel : nat) (rnd : RandomSource) (k : nat)
    (g g' : Game) (k' : nat) :
  spawnItem fuel rnd k g = Some (g', k') ->
  character g' = character g /\ score g' = score g
  /\ gameOver g' = gameOver g /\ highScore g' = highScore g
  /\ localStorage g' = localStorage g
  /\ ~ In (item g') (segments (character g)).
Proof.
  unfold spawnItem.
  destruct (spawnItem_loop _ _ _ _ _ _) as [[c k1]|] eqn:E; [|discriminate].
  intros H. inversion H; subst. simpl.
  apply spawnItem_loop_sound in E. tauto.
Qed.

(** Any cell of the grid is drawn by some pair of values of
    [Math.random()]. *)
Lemma every_cell_can_be_drawn (w h : Z) (c : Cell) :
  in_grid w h c ->
  exists r1 r2 : Q,
    (0 <= r1)%Q /\ (r1 < 1)%Q /\ (0 <= r2)%Q /\ (r2 < 1)%Q
    /\ mkCell (random_index r1 w) (random_index r2 h) = c.
Proof.
  intros [[Hx0 Hx1] [Hy0 Hy1]]. destruct c as [a b]. simpl in *.
  assert (Hidx : forall v n, 0 <= v < n ->
            (0 <= inject_Z v / inject_Z n)%Q
            /\ (inject_Z v / inject_Z n < 1)%Q
            /\ random_index (inject_Z v / inject_Z n) n = v).
  { intros v n [Hv0 Hv1].
    assert (Hn : (0 < inject_Z n)%Q).
    { change 0%Q with (inject_Z 0). rewrite <- Zlt_Qlt. lia. }
    assert (Hv : (0 <= inject_Z v)%Q).
    { change 0%Q with (inject_Z 0). now rewrite <- Zle_Qle. }
    assert (Hvn : (inject_Z v < inject_Z n)%Q) by now rewrite <- Zlt_Qlt.
    split; [|split].
    - apply Qle_shift_div_l; [exact Hn|]. now rewrite Qmult_0_l.
    - apply Qlt_shift_div_r; [exact Hn|]. now rewrite Qmult_1_l.
    - unfold random_index.
      assert (E : (inject_Z v / inject_Z n * inject_Z n == inject_Z v)%Q).
      { field. intros Hz. rewrite Hz in Hn. now apply Qlt_irrefl in Hn. }
      rewrite (Qfloor_comp _ _ E). apply Qfloor_Z. }
  destruct (Hidx a w (conj Hx0 Hx1)) as [A1 [A2 A3]].
  destruct (Hidx b h (conj Hy0 Hy1)) as [B1 [B2 B3]].
  exists (inject_Z a / inject_Z w)%Q, (inject_Z b / inject_Z h)%Q.
  rewrite A3, B3. tauto.
Qed.

(** A free cell of the grid can be the one the respawn picks: some draws
    make the first round choose it. *)
Lemma spawnItem_loop_can_choose (w h : Z) (segs : list Cell) (c : Cell) :
  in_grid w h c -> ~ In c segs ->
  exists rnd, valid_random rnd
              /\ spawnItem_loop 1 rnd 0 w h segs = Some (c, 2%nat).
Proof.
  intros Hgrid Hfree.
  destruct (every_cell_can_be_drawn w h c Hgrid)
    as [r1 [r2 [A1 [A2 [B1 [B2 Hc]]]]]].
  exists (fun n => match n with O => r1 | S _ => r2 end). split.
  - intros [|n]; split; assumption.
  - simpl. rewrite <- Hc in Hfree. apply occupied_false_iff in Hfree.
    rewrite Hfree, Hc. reflexivity.
Qed.

(** The draw [v / n] gives the index [v]. *)
Lemma random_index_ratio (v n : Z) :
  0 <= v < n ->
  (0 <= inject_Z v / inject_Z n)%Q /\ (inject_Z v / inject_Z n < 1)%Q
  /\ random_index (inject_Z v / inject_Z n) n = v.
Proof.
  intros [Hv0 Hv1].
  assert (Hn : (0 < inject_Z n)%Q).
  { change 0%Q with (inject_Z 0). rewrite <- Zlt_Qlt. lia. }
  assert (Hv : (0 <= inject_Z v)%Q).
  { change 0%Q with (inject_Z 0). now rewrite <- Zle_Qle. }
  assert (Hvn : (inject_Z v < inject_Z n)%Q) by now rewrite <- Zlt_Qlt.
  split; [|split].
  - apply Qle_shift_div_l; [exact Hn|]. now rewrite Qmult_0_l.
  - apply Qlt_shift_div_r; [exact Hn|]. now rewrite Qmult_1_l.
  - unfold random_index.
    assert (E : (inject_Z v / inject_Z n * inject_Z n == inject_Z v)%Q).
    { field. intros Hz. rewrite Hz in Hn. now apply Qlt_irrefl in Hn. }
    rewrite (Qfloor_comp _ _ E). apply Qfloor_Z.
Qed.

(** The sweep of a grid with cells is a stream of draws in [0,1). *)
Lemma valid_sweep (w h : Z) : 0 < w -> 0 < h -> valid_random (sweep w h).
Proof.
  intros Hw Hh m. unfold sweep. cbv zeta.
  destruct (Z.of_nat m mod 3 =? 0).
  - pose proof (random_index_ratio (Z.of_nat m / 6 mod w) w
                  (Z.mod_pos_bound _ _ Hw)) as [H0 [H1 _]].
    split; assumption.
  - destruct (Z.of_nat m mod 3 =? 1).
    + pose proof (random_index_ratio ((Z.of_nat m / 6 / w) mod h) h
                    (Z.mod_pos_bound _ _ Hh)) as [H0 [H1 _]].
      split; assumption.
    + split; lra.
Qed.

(** It is fair: the cell [(a, b)] fills the two threes of draws of index
    [a + w * (b + h * k)]; one of them starts at a draw of the parity of
    the cursor [k], and not before it. *)
Lemma fair_sweep (w h : Z) : 0 < w -> 0 < h -> fair (sweep w h) w h.
Proof.
  intros Hw Hh k [a b] [[Ha0 Ha1] [Hb0 Hb1]]. cbn [cx cy] in *.
  set (i := a + w * (b + h * Z.of_nat k)).
  assert (Hi : Z.of_nat k <= i).
  { unfold i.
    assert (H1 : Z.of_nat k <= h * Z.of_nat k) by nia.
    assert (H2 : b + h * Z.of_nat k <= w * (b + h * Z.of_nat k)) by nia.
    lia. }
  assert (Hq : (i / w) mod h = b /\ i mod w = a).
  { unfold i. split.
    - rewrite (Z.mul_comm w), Z.div_add by lia.
      rewrite Z.div_small by lia. rewrite Z.add_0_l.
      rewrite (Z.mul_comm h), Z.mod_add by lia. apply Z.mod_small; lia.
    - rewrite (Z.mul_comm w), Z.mod_add by lia. apply Z.mod_small; lia. }
  destruct Hq as [Hrow Hcol].
  assert (Hm : exists m : nat,
             (k <= m)%nat /\ Nat.even (m - k) = true
             /\ (Z.of_nat m = 6 * i \/ Z.of_nat m = 6 * i + 3)).
  { destruct (Nat.even k) eqn:Ek.
    - exists (Z.to_nat (6 * i)). split; [lia|]. split; [|left; lia].
      apply Nat.even_spec in Ek. destruct Ek as [q Eq].
      apply Nat.even_spec. exists (Z.to_nat (3 * i) - q)%nat. lia.
    - exists (Z.to_nat (6 * i + 3)). split; [lia|]. split; [|right; lia].
      assert (Eo : Nat.odd k = true) by now rewrite <- Nat.negb_even, Ek.
      apply Nat.odd_spec in Eo. destruct Eo as [q Eq].
      apply Nat.even_spec. exists (Z.to_nat (3 * i) + 1 - q)%nat. lia. }
  destruct Hm as [m [Hkm [Heven Hpos]]].
  apply Nat.even_spec in Heven. destruct Heven as [n Hn].
  exists n. unfold drawn_cell.
  replace (k + 2 * n)%nat with m by lia.
  assert (H1 : sweep w h m = (inject_Z a / inject_Z w)%Q).
  { unfold sweep. cbv zeta.
    replace (Z.of_nat m mod 3) with 0
      by (destruct Hpos as [E|E]; rewrite E; Z.div_mod_to_equations; lia).
    replace (Z.of_nat m / 6) with i
      by (destruct Hpos as [E|E]; rewrite E; Z.div_mod_to_equations; lia).
    cbn [Z.eqb]. now rewrite Hcol. }
  assert (H2 : sweep w h (S m) = (inject_Z b / inject_Z h)%Q).
  { unfold sweep. cbv zeta. rewrite Nat2Z.inj_succ.
    replace (Z.succ (Z.of_nat m) mod 3) with 1
      by (destruct Hpos as [E|E]; rewrite E; Z.div_mod_to_equations; lia).
    replace (Z.succ (Z.of_nat m) / 6) with i
      by (destruct Hpos as [E|E]; rewrite E; Z.div_mod_to_equations; lia).
    cbn [Z.eqb]. now rewrite Hrow. }
  rewrite H1, H2.
  destruct (random_index_ratio a w (conj Ha0 Ha1)) as [_ [_ ->]].
  destruct (random_index_ratio b h (conj Hb0 Hb1)) as [_ [_ ->]].
  reflexivity.
Qed.

Lemma valid_constant_half : valid_random constant_half.
Proof. intros n. unfold constant_half. split; lra. Qed.

Lemma valid_constant_zero : valid_random constant_zero.
Proof. intros n. unfold constant_zero. split; lra. Qed.

(** [tail_chase] is a state of play: the draws and inputs above lead to it
    from a freshly initialised game. *)
Lemma tail_chase_reachable :
  match init (gameConfig GameConfig.default_assets) "default"
          (all_loads true Settle012) ∅ 1 tail_chase_draws 0 with
  | Some s => run 1 tail_chase_draws tail_chase_events s
  | None => None
  end = Some (tail_chase, 8%nat).
Proof. vm_compute. reflexivity. Qed.

Lemma same_cell_false (a b : Cell) :
  a <> b -> (cx a =? cx b) && (cy a =? cy b) = false.
Proof.
  intros Hne. destruct ((cx a =? cx b) && (cy a =? cy b)) eqn:E;
    [|reflexivity].
  apply andb_true_iff in E. destruct E as [E1 E2].
  apply Z.eqb_eq in E1. apply Z.eqb_eq in E2.
  destruct a, b; simpl in *; subst. congruence.
Qed.

(** A tick that neither collides nor collects: the head advances, the
    tail is dropped, nothing else changes. *)
Lemma tick_plain_move (g : Game) (h : Cell) (t : list Cell) :
  gameOver g = false ->
  segments (character g) = h :: t ->
  let head := new_head h (nextDirection (character g)) in
  in_grid (gridW (character g)) (gridH (character g)) head ->
  ~ In head t ->
  head <> item g ->
  forall fuel rnd k,
    exists g', tick fuel rnd k g = Some (g', k)
               /\ segments (character g') = head :: removelast (h :: t)
               /\ score g' = score g
               /\ item g' = item g
               /\ gameOver g' = false.
Proof.
  intros Hrun Hseg head Hin Hnin Hitem fuel rnd k.
  unfold tick, update, move. rewrite Hrun, Hseg. fold head.
  apply outside_grid_false_iff in Hin. rewrite Hin.
  assert (Hb : hits_body (h :: t) head = false).
  { destruct (hits_body (h :: t) head) eqn:E; [|reflexivity].
    apply hits_body_iff in E. contradiction. }
  rewrite Hb. cbv iota. simpl negb. cbv iota.
  change (removelast (head :: h :: t)) with (head :: removelast (h :: t)).
  cbn [segments]. rewrite (same_cell_false _ _ Hitem).
  eexists. split; [reflexivity|]. simpl. repeat split.
Qed.

End CollectSpec.

(** * Properties of the dodge game *)
Module DodgeSpec.
Import Dodge.

Local Open Scope Q_scope.

Lemma Qltb_lt (a b : Q) : Qltb a b = true <-> a < b.
Proof.
  unfold Qltb. rewrite negb_true_iff.
  destruct (Qle_bool b a) eqn:E.
  - apply Qle_bool_iff in E. split; [discriminate|].
    intros H. exfalso. eapply Qlt_not_le; eauto.
  - split; [intros _|reflexivity].
    apply Qnot_le_lt. intros H. apply Qle_bool_iff in H. congruence.
Qed.

Lemma Qltb_ge (a b : Q) : Qltb a b = false <-> b <= a.
Proof.
  unfold Qltb. rewrite negb_false_iff. apply Qle_bool_iff.
Qed.

(** [saveHighScore] writes the high score and the store, nothing else. *)
(** Putting three things in settle order and back gives them in array
    order again. *)
Lemma in_array_order_settle {A : Type} (o : Settle) (a b c : A) :
  (let '(p, q, r) := in_settle_order o a b c in in_array_order o p q r)
  = (a, b, c).
Proof. destruct o; reflexivity. Qed.

(** [Promise.all] fulfils exactly when the three loads do, with the images
    in array order whatever the order they came in. *)
Lemma loadAll_fulfils (net : Network) (cfg : Config)
    (imgs : Image * Image * Image) :
  loadAll net cfg = inl imgs
  <-> (net (birdSrc cfg) = true /\ net (pipeSrc cfg) = true
       /\ net (backgroundSrc cfg) = true)
      /\ imgs = (Loaded (birdSrc cfg), Loaded (pipeSrc cfg),
                 Loaded (backgroundSrc cfg)).
Proof.
  unfold loadAll, loadImage.
  destruct (net (birdSrc cfg)), (net (pipeSrc cfg)),
    (net (backgroundSrc cfg)), (settles net);
    cbn [in_settle_order in_array_order];
    (split; [intros H; inversion H; tauto
            | intros [[H1 [H2 H3]] H];
              try discriminate; now subst imgs]).
Qed.

(** It rejects with the message of a load that failed. *)
Lemma loadAll_rejects (net : Network) (cfg : Config) (err : string) :
  loadAll net cfg = inr err ->
  exists src,
    In src [birdSrc cfg; pipeSrc cfg; backgroundSrc cfg]
    /\ net src = false /\ err = "Failed to load image: " +:+ src.
Proof.
  unfold loadAll, loadImage.
  destruct (net (birdSrc cfg)) eqn:E1, (net (pipeSrc cfg)) eqn:E2,
    (net (backgroundSrc cfg)) eqn:E3, (settles net);
    cbn [in_settle_order in_array_order]; intros H; inversion H;
    first [ exists (birdSrc cfg); split; [now left|];
            split; [exact E1|reflexivity]
          | exists (pipeSrc cfg); split; [right; now left|];
            split; [exact E2|reflexivity]
          | exists (backgroundSrc cfg); split; [right; right; now left|];
            split; [exact E3|reflexivity] ].
Qed.

(** When every load fails, the reason is that of the first to fail in
    time: the background's when it settles first. *)
Example loadAll_first_to_fail :
  loadAll (all_loads false Settle201)
    (gameConfig GameConfig.default_assets)
  = inr ("Failed to load image: "
         +:+ GameConfig.background GameConfig.default_assets)
  /\ loadAll (all_loads false Settle012)
       (gameConfig GameConfig.default_assets)
     = inr ("Failed to load image: "
            +:+ GameConfig.character GameConfig.default_assets).
Proof. split; reflexivity. Qed.

Lemma saveHighScore_frame (g : Game) :
  let g' := saveHighScore g in
  score g' = score g /\ bird g' = bird g /\ gameOver g' = gameOver g
  /\ config g' = config g /\ pipes g' = pipes g
  /\ pipeTimer g' = pipeTimer g /\ topic g' = topic g
  /\ pendingFrames g' = pendingFrames g /\ lastTime g' = lastTime g.
Proof.
  unfold saveHighScore. destruct (highScore g <? score g)%Z; simpl; tauto.
Qed.

Lemma saveHighScore_max (g : Game) :
  highScore (saveHighScore g) = Z.max (highScore g) (score g).
Proof.
  unfold saveHighScore.
  destruct (highScore g <? score g)%Z eqn:E; simpl.
  - apply Z.ltb_lt in E. lia.
  - apply Z.ltb_ge in E. lia.
Qed.

(** The store is written exactly when the score exceeds the high score,
    and only under the game's own key. *)
Lemma saveHighScore_store (g : Game) :
  localStorage (saveHighScore g)
  = if (highScore g <? score g)%Z
    then <[localStorageKey g := score g]> (localStorage g)
    else localStorage g.
Proof.
  unfold saveHighScore. now destruct (highScore g <? score g)%Z.
Qed.

Lemma visitPipe_pipe (dt : Q) (p : Pipe) (g : Game) :
  let p' := fst (visitPipe dt p g) in
  x p' = x p - speed p * dt /\ width p' = width p /\ speed p' = speed p
  /\ gapY p' = gapY p /\ gapHeight p' = gapHeight p
  /\ scored p'
     = scored p || Qltb (x p - speed p * dt + width p) (bx (bird g)).
Proof.
  unfold visitPipe. simpl.
  destruct (scored p) eqn:Es; simpl.
  - repeat split; try reflexivity. exact Es.
  - destruct (Qltb _ _); simpl; repeat split; try reflexivity; exact Es.
Qed.

Lemma visitPipe_game (dt : Q) (p : Pipe) (g : Game) :
  let g' := snd (visitPipe dt p g) in
  bird g' = bird g /\ config g' = config g
  /\ score g'
     = (score g
        + (if negb (scored p) && scored (fst (visitPipe dt p g))
           then 1 else 0))%Z.
Proof.
  unfold visitPipe. simpl.
  destruct (scored p) eqn:Es; simpl.
  - destruct (isColliding _ _); simpl.
    + destruct (saveHighScore_frame (set_gameOver true g))
        as [H1 [H2 [_ [H3 _]]]].
      rewrite H1, H2, H3. simpl. split; [reflexivity|].
      split; [reflexivity|lia].
    + split; [reflexivity|]. split; [reflexivity|lia].
  - destruct (Qltb _ _) eqn:Ep; simpl.
    + destruct (isColliding _ _); simpl.
      * destruct (saveHighScore_frame
                    (set_gameOver true (set_score (score g + 1)%Z g)))
          as [H1 [H2 [_ [H3 _]]]].
        rewrite H1, H2, H3. simpl. repeat split; reflexivity.
      * repeat split; reflexivity.
    + rewrite Es. simpl. destruct (isColliding _ _); simpl.
      * destruct (saveHighScore_frame (set_gameOver true g))
          as [H1 [H2 [_ [H3 _]]]].
        rewrite H1, H2, H3. simpl. split; [reflexivity|].
        split; [reflexivity|lia].
      * split; [reflexivity|]. split; [reflexivity|lia].
Qed.

(** Once [scored] is set it stays set. *)
Lemma scored_stays (dt : Q) (p : Pipe) (g : Game) :
  scored p = true -> scored (fst (visitPipe dt p g)) = true.
Proof.
  intros H. destruct (visitPipe_pipe dt p g) as [_ [_ [_ [_ [_ Hs]]]]].
  rewrite Hs, H. reflexivity.
Qed.

Lemma transitions_scored (visits : list (Q * Game)) :
  forall p, scored p = true -> transitions p (lifetime visits p) = 0%nat.
Proof.
  induction visits as [|[dt g] vs IH]; intros p Hp;
    cbn [lifetime transitions]; [reflexivity|].
  rewrite Hp. cbn [negb andb]. rewrite Nat.add_0_l.
  apply IH. now apply scored_stays.
Qed.

Lemma transitions_at_most_one (visits : list (Q * Game)) :
  forall p, (transitions p (lifetime visits p) <= 1)%nat.
Proof.
  induction visits as [|[dt g] vs IH]; intros p;
    cbn [lifetime transitions]; [lia|].
  destruct (scored p) eqn:Hp; cbn [negb andb].
  - rewrite Nat.add_0_l. apply IH.
  - destruct (scored (fst (visitPipe dt p g))) eqn:Hp'.
    + rewrite transitions_scored by exact Hp'. lia.
    + rewrite Nat.add_0_l. apply IH.
Qed.

(** The gap position drawn at a spawn lies between [minY] and [maxY] when
    the screen is at least two gaps high. *)
Lemma spawn_gapY_range (gh canvasH r : Q) :
  0 <= r -> r < 1 -> 2 * gh <= canvasH ->
  gh * 0.5 <= spawn_gapY gh canvasH r
  /\ spawn_gapY gh canvasH r <= canvasH - gh * 1.5.
Proof.
  intros H0 H1 Hh. unfold spawn_gapY. cbv zeta.
  assert (Hd : 0 <= canvasH - gh * 1.5 - gh * 0.5) by lra.
  remember (canvasH - gh * 1.5 - gh * 0.5) as d eqn:Ed.
  assert (Ed' : d == canvasH - gh * 1.5 - gh * 0.5) by (now rewrite Ed).
  clear Ed.
  assert (Hrd : 0 <= r * d) by (apply Qmult_le_0_compat; assumption).
  assert (Hrd' : r * d <= d).
  { rewrite <- (Qmult_1_l d) at 2.
    apply Qmult_le_compat_r; [now apply Qlt_le_weak | exact Hd]. }
  split; lra.
Qed.

(** A game that has no frame queued and is not over stays where it is:
    frames do not run, taps only set the velocity, a resize only moves the
    bird sideways. *)
Lemma idle_forever (rnd : RandomSource) (es : list Event) :
  forall (g : Game) (k : nat),
    pendingFrames g = 0%nat -> gameOver g = false ->
    let g' := fst (run rnd es (g, k)) in
    pendingFrames g' = 0%nat /\ gameOver g' = false
    /\ pipes g' = pipes g /\ score g' = score g
    /\ by_ (bird g') = by_ (bird g)
    /\ birdImage g' = birdImage g /\ console g' = console g.
Proof.
  induction es as [|e es IH]; intros g k Hp Ho.
  - simpl. tauto.
  - unfold run. simpl fold_left. fold (run rnd es).
    destruct e as [t|now|w h]; simpl step.
    + rewrite Hp. simpl. apply IH; assumption.
    + unfold jumpHandler. rewrite Ho. simpl negb. cbv iota.
      specialize (IH (set_bird
                        (mkBird (bx (bird g)) (by_ (bird g))
                           (bwidth (bird g)) (bheight (bird g))
                           jumpVelocity) g) k Hp Ho).
      simpl in IH. exact IH.
    + unfold onResize. simpl gameOver. rewrite Ho. simpl negb. cbv iota.
      specialize (IH (set_bird
                        (mkBird (w * 0.2)
                           (by_ (bird (set_canvas w h g)))
                           (bwidth (bird (set_canvas w h g)))
                           (bheight (bird (set_canvas w h g)))
                           (velocity (bird (set_canvas w h g))))
                        (set_canvas w h g)) k Hp Ho).
      simpl in IH. exact IH.
Qed.

End DodgeSpec.

(** * High score and start-up: both games *)
Module ScoreSpec.

Local Open Scope Z_scope.

(** ** Collector *)

Lemma collect_saveHighScore_max (g : Collect.Game) :
  Collect.highScore (Collect.saveHighScore g)
  = Z.max (Collect.highScore g) (Collect.score g).
Proof.
  unfold Collect.saveHighScore.
  destruct (Collect.highScore g <? Collect.score g) eqn:E; simpl.
  - apply Z.ltb_lt in E. lia.
  - apply Z.ltb_ge in E. lia.
Qed.

Lemma collect_saveHighScore_store (g : Collect.Game) :
  Collect.localStorage (Collect.saveHighScore g)
  = if Collect.highScore g <? Collect.score g
    then <[Collect.localStorageKey g := Collect.score g]>
           (Collect.localStorage g)
    else Collect.localStorage g.
Proof.
  unfold Collect.saveHighScore.
  now destruct (Collect.highScore g <? Collect.score g).
Qed.

(** In the collector the run ends in [endGame], which saves once, with
    the final score: the high score becomes the maximum, the store is
    written exactly when the score exceeds it, and the game stays over. *)
Lemma collect_endGame_saves (g : Collect.Game) :
  let g' := Collect.endGame g in
  Collect.gameOver g' = true
  /\ Collect.gameLoopInterval g' = false
  /\ Collect.score g' = Collect.score g
  /\ Collect.highScore g'
     = Z.max (Collect.highScore g) (Collect.score g)
  /\ Collect.localStorage g'
     = if Collect.highScore g <? Collect.score g
       then <[Collect.localStorageKey g := Collect.score g]>
              (Collect.localStorage g)
       else Collect.localStorage g.
Proof.
  unfold Collect.endGame. cbv zeta.
  rewrite collect_saveHighScore_max, collect_saveHighScore_store.
  unfold Collect.saveHighScore. simpl.
  destruct (Collect.highScore g <? Collect.score g); simpl;
    repeat split; reflexivity.
Qed.

(** No tick of the collector lowers the high score. *)
Lemma collect_tick_highScore (fuel : nat) (rnd : RandomSource) (k : nat)
    (g g' : Collect.Game) (k' : nat) :
  Collect.tick fuel rnd k g = Some (g', k') ->
  Collect.highScore g <= Collect.highScore g'.
Proof.
  unfold Collect.tick, Collect.update.
  destruct (Collect.gameOver g); simpl.
  - intros H. inversion H; subst. lia.
  - destruct (Collect.move (Collect.character g)) as [moved c].
    destruct moved; simpl.
    + destruct (Collect.segments c) as [|hd tl'].
      * intros H. inversion H; subst. simpl. lia.
      * destruct ((Collect.cx hd =? _) && _).
        -- intros H. apply CollectSpec.spawnItem_frame in H.
           destruct H as [_ [_ [_ [Hh _]]]]. rewrite Hh. simpl. lia.
        -- intros H. inversion H; subst. simpl. lia.
    + intros H. inversion H; subst.
      pose proof (collect_endGame_saves
                    (Collect.with_round g c (Collect.item g)
                       (Collect.score g) false
                       (Collect.gameLoopInterval g))) as [_ [_ [_ [Hm _]]]].
      rewrite Hm. simpl. lia.
Qed.

(** The collector starts whatever the network does: each failed load is
    replaced by the placeholder and logged, and [init] arms the loop. *)
Lemma collect_init_starts (cfg : Collect.Config) (tp : string)
    (net : Network) (store : gmap string Z) (fuel : nat)
    (rnd : RandomSource) (k : nat) (g : Collect.Game) (k' : nat) :
  Collect.init cfg tp net store fuel rnd k = Some (g, k') ->
  Collect.gameLoopInterval g = true /\ Collect.gameOver g = false
  /\ Collect.characterImage g
     = fst (Collect.loadImage net (Collect.characterSrc cfg))
  /\ Collect.itemImage g
     = fst (Collect.loadImage net (Collect.itemSrc cfg))
  /\ Collect.backgroundImage g
     = fst (Collect.loadImage net (Collect.backgroundSrc cfg)).
Proof.
  unfold Collect.init.
  destruct (Collect.loadImage net (Collect.characterSrc cfg)) as [ci l1].
  destruct (Collect.loadImage net (Collect.itemSrc cfg)) as [ii l2].
  destruct (Collect.loadImage net (Collect.backgroundSrc cfg)) as [bi l3].
  destruct (in_settle_order (settles net) l1 l2 l3) as [[w1 w2] w3].
  unfold Collect.setup, Collect.spawnItem. simpl.
  destruct (Collect.spawnItem_loop _ _ _ _ _ _) as [[c k1]|];
    [|discriminate].
  intros H. inversion H; subst. simpl. repeat split; reflexivity.
Qed.

Lemma collect_loadImage_recovers (net : Network) (src : string) :
  src <> "" -> net src = false ->
  Collect.loadImage net src
  = (Some Placeholder, ["Failed to load image: " +:+ src]).
Proof.
  intros Hsrc Hnet. unfold Collect.loadImage.
  destruct (String.eqb src "") eqn:E.
  - apply String.eqb_eq in E. contradiction.
  - now rewrite Hnet.
Qed.

(** ** Dodge *)

Lemma dodge_visitPipe_highScore (dt : Q) (p : Dodge.Pipe) (g : Dodge.Game) :
  Dodge.highScore g <= Dodge.highScore (snd (Dodge.visitPipe dt p g)).
Proof.
  unfold Dodge.visitPipe. cbn [snd].
  destruct (negb _ && _); destruct (Dodge.isColliding _ _);
    rewrite ?DodgeSpec.saveHighScore_max; simpl; lia.
Qed.

Lemma dodge_forEachPipe_highScore (dt : Q) (ps : list Dodge.Pipe) :
  forall g,
    Dodge.highScore g
    <= Dodge.highScore (snd (Dodge.forEachPipe dt ps g)).
Proof.
  induction ps as [|p ps IH]; intros g; cbn [Dodge.forEachPipe].
  - simpl. lia.
  - pose proof (dodge_visitPipe_highScore dt p g) as H1.
    destruct (Dodge.visitPipe dt p g) as [p' g1].
    specialize (IH g1).
    destruct (Dodge.forEachPipe dt ps g1) as [rest g2].
    cbn [snd] in *. lia.
Qed.

(** No frame of the dodge game lowers the high score. *)
Lemma dodge_update_highScore (rnd : RandomSource) (k : nat) (dt : Q)
    (g : Dodge.Game) :
  Dodge.highScore g <= Dodge.highScore (fst (Dodge.update rnd k dt g)).
Proof.
  unfold Dodge.update.
  destruct (Dodge.gameOver g); [simpl; lia|]. cbv zeta.
  destruct (_ || _).
  - cbn [fst]. rewrite DodgeSpec.saveHighScore_max. simpl. lia.
  - destruct (Qle_bool _ 0).
    + match goal with
      | |- context [Dodge.forEachPipe dt ?ps ?g3] =>
          pose proof (dodge_forEachPipe_highScore dt ps g3) as H;
          destruct (Dodge.forEachPipe dt ps g3) as [ps' g4]
      end.
      simpl in *. exact H.
    + match goal with
      | |- context [Dodge.forEachPipe dt ?ps ?g3] =>
          pose proof (dodge_forEachPipe_highScore dt ps g3) as H;
          destruct (Dodge.forEachPipe dt ps g3) as [ps' g4]
      end.
      simpl in *. exact H.
Qed.

End ScoreSpec.

(** * The collector: claims *)
Module CollectClaims.
Import Collect CollectSpec.

Local Open Scope Z_scope.

(** C2 (as amended).  On a tick of a running game the run ends exactly when
    the new head (the head plus the pending direction, which the move makes
    the active one) is outside the grid or lies on a segment behind the
    head; the tail is one of those segments, so stepping onto the cell of
    the tail of a character longer than one ends the run as well. *)
Theorem tick_game_over_iff (g : Game) (h : Cell) (t : list Cell) :
  gameOver g = false ->
  segments (character g) = h :: t ->
  let head := new_head h (nextDirection (character g)) in
  let collides :=
    ~ in_grid (gridW (character g)) (gridH (character g)) head
    \/ In head (behind_head (h :: t)) in
  (collides ->
     forall fuel rnd k,
       exists g', tick fuel rnd k g = Some (g', k) /\ gameOver g' = true)
  /\ (~ collides ->
        forall fuel rnd k g' k',
          tick fuel rnd k g = Some (g', k') -> gameOver g' = false)
  /\ (t <> [] -> last (h :: t) = Some head -> collides).
Proof.
  intros Hrun Hseg head collides.
  pose proof (move_false_iff (character g) h t Hseg) as Hmv.
  fold head in Hmv. simpl behind_head in collides.
  split; [|split].
  - intros Hc fuel rnd k. apply Hmv in Hc.
    unfold tick, update. rewrite Hrun. simpl negb. cbv iota.
    destruct (move (character g)) as [moved c]. simpl in Hc. subst moved.
    simpl. eexists. split; [reflexivity|].
    unfold endGame. now rewrite saveHighScore_gameOver.
  - intros Hnc fuel rnd k g' k'.
    assert (Hm : fst (move (character g)) = true).
    { destruct (fst (move (character g))) eqn:E; [reflexivity|].
      exfalso. apply Hnc. now apply Hmv. }
    unfold tick, update. rewrite Hrun. simpl negb. cbv iota.
    destruct (move (character g)) as [moved c]. simpl in Hm. subst moved.
    simpl negb. cbv iota.
    destruct (segments c) as [|hd tl'].
    + intros H. inversion H; subst. simpl. first [exact Hrun | reflexivity].
    + destruct ((cx hd =? cx (item g)) && (cy hd =? cy (item g))).
      * intros H. apply spawnItem_frame in H.
        destruct H as [_ [_ [Hg _]]]. rewrite Hg. simpl.
        first [exact Hrun | reflexivity].
      * intros H. inversion H; subst. simpl. first [exact Hrun | reflexivity].
  - intros Hne Hlast. right.
    destruct t as [|s t']; [congruence|].
    change (last (h :: s :: t')) with (last (s :: t')) in Hlast.
    clear -Hlast. revert s Hlast.
    induction t' as [|s' t'' IH]; intros s Hlast.
    + simpl in Hlast. inversion Hlast. now left.
    + right. apply IH. exact Hlast.
Qed.

Lemma tick_game_over_iff_witness :
  exists g', tick 0 constant_zero 0 tail_chase = Some (g', 0%nat)
             /\ gameOver g' = true.
Proof.
  refine (proj1 (tick_game_over_iff tail_chase (mkCell 12 11)
                   [mkCell 13 11; mkCell 13 10; mkCell 12 10]
                   eq_refl eq_refl) _ 0%nat constant_zero 0%nat).
  right. simpl. right. right. left. reflexivity.
Defined.

(** C2 (as stated) fails: in [tail_chase] the new head (12,10) is inside
    the grid and on no segment other than the tail, and the tick ends the
    run all the same. *)
Lemma tail_cell_step_ends_game :
  let c := character tail_chase in
  let head := new_head (mkCell 12 11) (nextDirection c) in
  gameOver tail_chase = false
  /\ hd_error (segments c) = Some (mkCell 12 11)
  /\ head = mkCell 12 10
  /\ in_grid (gridW c) (gridH c) head
  /\ ~ In head (non_tail (segments c))
  /\ last (segments c) = Some head
  /\ forall fuel rnd k,
       exists g', tick fuel rnd k tail_chase = Some (g', k)
                  /\ gameOver g' = true.
Proof.
  cbv zeta. split; [reflexivity|]. split; [reflexivity|].
  split; [reflexivity|]. split; [vm_compute; intuition congruence|].
  split; [|split; [reflexivity|]].
  - vm_compute. intros H.
    repeat (destruct H as [H|H]; [discriminate|]). exact H.
  - intros fuel rnd k. eexists. split; reflexivity.
Qed.

(** C3 (as amended).  On the 20x20 grid, with a length-1 character at
    (10,10) heading right, the item at (11,10) and score 0: one tick puts
    the head on (11,10), makes the score 1 and already leaves two segments,
    [grow] having appended the vacated cell (10,10) in that same tick (the
    tick returns as soon as a draw of the respawn finds a free cell).  The
    following tick keeps the length at 2 when the new item is not straight
    ahead at (12,10). *)
Theorem collect_grows_in_same_tick (g : Game) (rnd : RandomSource)
    (k n : nat) :
  gridSizeW g = 20 -> gridSizeH g = 20 ->
  gridW (character g) = 20 -> gridH (character g) = 20 ->
  segments (character g) = [mkCell 10 10] ->
  nextDirection (character g) = mkCell 1 0 ->
  item g = mkCell 11 10 -> score g = 0 -> gameOver g = false ->
  ~ In (drawn_cell rnd k 20 20 n) [mkCell 11 10; mkCell 10 10] ->
  exists g1 k1,
    tick (S n) rnd k g = Some (g1, k1)
    /\ segments (character g1) = [mkCell 11 10; mkCell 10 10]
    /\ score g1 = 1
    /\ gameOver g1 = false
    /\ (item g1 <> mkCell 12 10 ->
        forall fuel,
          exists g2, tick fuel rnd k1 g1 = Some (g2, k1)
                     /\ segments (character g2) = [mkCell 12 10; mkCell 11 10]
                     /\ score g2 = 1).
Proof.
  intros Hw Hh Hcw Hch Hseg Hdir Hitem Hscore Hrun Hfree.
  destruct (spawnItem_loop_returns rnd 20 20 _ n k Hfree) as [c [k1 Hloop]].
  remember (S n) as fuel1 eqn:Hfuel.
  unfold tick, update. rewrite Hrun. simpl negb. cbv iota.
  unfold move. rewrite Hseg, Hdir, Hcw, Hch, Hitem, Hscore. simpl.
  unfold spawnItem, new_head. simpl.
  change (10 + 1) with 11. change (10 + 0) with 10. change (0 + 1) with 1.
  rewrite Hw, Hh, Hloop.
  match goal with
  | |- exists g1 k0, Some (?G, _) = _ /\ _ => set (g1 := G); exists g1, k1
  end.
  do 4 (split; [reflexivity|]).
  intros Hne fuel.
  destruct (tick_plain_move g1 (mkCell 11 10) [mkCell 10 10]
              eq_refl eq_refl) with (fuel := fuel) (rnd := rnd) (k := k1)
    as [g2 [Ht [Hs [Hsc _]]]].
  - vm_compute. intuition congruence.
  - vm_compute. intros [H|[]]; discriminate.
  - intros Heq. apply Hne. now rewrite <- Heq.
  - exists g2. split; [exact Ht|]. split; [exact Hs|exact Hsc].
Qed.

Lemma collect_grows_in_same_tick_witness :
  exists g1 k1,
    tick 1 constant_zero 0 first_item = Some (g1, k1)
    /\ segments (character g1) = [mkCell 11 10; mkCell 10 10]
    /\ score g1 = 1
    /\ gameOver g1 = false
    /\ (item g1 <> mkCell 12 10 ->
        forall fuel,
          exists g2, tick fuel constant_zero k1 g1 = Some (g2, k1)
                     /\ segments (character g2) = [mkCell 12 10; mkCell 11 10]
                     /\ score g2 = 1).
Proof.
  apply (collect_grows_in_same_tick first_item constant_zero 0 0);
    try reflexivity.
  vm_compute. intros [H|[H|[]]]; discriminate.
Defined.

(** C3 (as stated) fails: at the end of the tick that collects the item
    the character already has two segments, not one. *)
Lemma first_item_length_after_one_tick :
  exists g1,
    tick 1 constant_zero 0 first_item = Some (g1, 2%nat)
    /\ hd_error (segments (character g1)) = Some (mkCell 11 10)
    /\ score g1 = 1
    /\ length (segments (character g1)) = 2%nat
    /\ length (segments (character g1)) <> 1%nat
    /\ lastTailPosition (character g1) = None.
Proof.
  eexists. split; [vm_compute; reflexivity|].
  simpl. repeat split. discriminate.
Qed.

(** C9.  For a fair stream of draws in [0,1) on a grid with cells: when
    some cell of the grid carries no segment, the respawn returns, from
    whatever cursor (enough rounds give the result, and more rounds give
    the same one); it leaves the character as it is and puts the item on a
    cell of the grid that no segment occupies.  When the segments cover the
    grid it never returns, however many rounds it is given. *)
Theorem spawnItem_terminates_on_free_cell (g : Game) (rnd : RandomSource) :
  valid_random rnd -> fair rnd (gridSizeW g) (gridSizeH g) ->
  0 < gridSizeW g -> 0 < gridSizeH g ->
  let segs := segments (character g) in
  ((exists c, in_grid (gridSizeW g) (gridSizeH g) c /\ ~ In c segs) ->
   forall k, exists fuel g' k',
     (forall fuel', (fuel <= fuel')%nat ->
                    spawnItem fuel' rnd k g = Some (g', k'))
     /\ character g' = character g
     /\ in_grid (gridSizeW g) (gridSizeH g) (item g')
     /\ ~ In (item g') segs)
  /\ (grid_full (gridSizeW g) (gridSizeH g) segs ->
      forall fuel k, spawnItem fuel rnd k g = None).
Proof.
  intros Hv Hfair Hw Hh segs. split.
  - intros [c [Hgrid Hfree]] k.
    destruct (Hfair k c Hgrid) as [n Hn].
    assert (Hdraw : ~ In (drawn_cell rnd k (gridSizeW g) (gridSizeH g) n)
                      segs) by now rewrite Hn.
    destruct (spawnItem_loop_returns rnd _ _ _ n k Hdraw)
      as [c' [k' Hloop]].
    exists (S n).
    exists (with_round g (character g) c' (score g) (gameOver g)
              (gameLoopInterval g)).
    exists k'. split; [|split; [reflexivity|]].
    + intros fuel' Hle. unfold spawnItem. fold segs.
      now rewrite (spawnItem_loop_fuel_mono rnd _ _ segs (S n) fuel' k
                     (c', k') Hle Hloop).
    + cbn [item with_round].
      apply spawnItem_loop_sound in Hloop.
      destruct Hloop as [Hnin [m [_ [Hc _]]]]. split; [|exact Hnin].
      subst c'. now apply drawn_cell_in_grid.
  - intros Hfull fuel k. unfold spawnItem. fold segs.
    now rewrite (spawnItem_loop_full rnd _ _ segs Hv Hw Hh Hfull).
Qed.

Lemma spawnItem_terminates_on_free_cell_witness :
  exists fuel g' k',
    (forall fuel', (fuel <= fuel')%nat ->
                   spawnItem fuel' (sweep 20 20) 0 first_item
                   = Some (g', k'))
    /\ character g' = character first_item
    /\ in_grid 20 20 (item g')
    /\ ~ In (item g') (segments (character first_item)).
Proof.
  refine (proj1 (spawnItem_terminates_on_free_cell first_item (sweep 20 20)
                   (valid_sweep 20 20 _ _) (fair_sweep 20 20 _ _) _ _)
            _ 0%nat); try reflexivity.
  exists (mkCell 0 0). split.
  - vm_compute. intuition discriminate.
  - vm_compute. intros [H|[]]. discriminate.
Defined.

End CollectClaims.

(** * The dodge game: claims *)
Module DodgeClaims.
Import Dodge DodgeSpec.

Local Open Scope Q_scope.

(** C6 (as amended).  When the screen is at least two gap heights high, a
    spawn pushes one pipe whose gap height is the configured one and whose
    [gapY] lies in [[gapHeight*0.5, screenHeight - gapHeight*1.5]], for
    every draw in [0,1); with gapHeight = 200 that is
    [100 <= gapY <= screenHeight - 300].  On a lower screen the interval
    is empty and nothing is promised. *)
Theorem spawn_gap_in_range (g : Game) (r1 r2 : Q) :
  0 <= r1 -> r1 < 1 ->
  2 * pipeGapHeight (config g) <= canvasHeight g ->
  exists p,
    pipes (spawnPipe r1 r2 g) = pipes g ++ [p]
    /\ gapHeight p = pipeGapHeight (config g)
    /\ gapHeight p * 0.5 <= gapY p
    /\ gapY p <= canvasHeight g - gapHeight p * 1.5
    /\ (gapHeight p == 200 ->
        100 <= gapY p /\ gapY p <= canvasHeight g - 300).
Proof.
  intros H0 H1 Hh.
  destruct (spawn_gapY_range _ _ r1 H0 H1 Hh) as [Hlo Hhi].
  eexists. split; [reflexivity|]. simpl.
  split; [reflexivity|]. split; [exact Hlo|]. split; [exact Hhi|].
  intros Hgh. split; lra.
Qed.

Lemma spawn_gap_in_range_witness :
  exists p,
    pipes (spawnPipe (1 # 2) 0 (loaded_page online 850 600)) = [] ++ [p]
    /\ gapHeight p = 200
    /\ gapHeight p * 0.5 <= gapY p
    /\ gapY p <= 600 - gapHeight p * 1.5
    /\ (gapHeight p == 200 -> 100 <= gapY p /\ gapY p <= 600 - 300).
Proof.
  apply (spawn_gap_in_range (loaded_page online 850 600) (1 # 2) 0);
    vm_compute; congruence.
Defined.

(** C6 (as stated) fails: in a window 320 pixels high the first frame
    spawns a pipe with gapHeight 200 and gapY 60, outside
    [[100, 320 - 300]]. *)
Lemma low_screen_gap_out_of_range :
  let g := fst (run constant_half [Frame 16]
                  (loaded_page online 568 320, 0%nat)) in
  exists p,
    pipes g = [p]
    /\ gapHeight p == 200
    /\ gapY p == 60
    /\ ~ (100 <= gapY p /\ gapY p <= canvasHeight g - 300).
Proof.
  cbv zeta. eexists. split; [vm_compute; reflexivity|].
  split; [reflexivity|]. split; [reflexivity|].
  intros [H _]. vm_compute in H. apply H. reflexivity.
Qed.

(** C8.  For an actor and an obstacle of positive width, [isColliding] is
    true exactly when the actor's horizontal span overlaps the obstacle's
    and the actor's vertical span [[y, y+height]] is outside the gap
    interval [[gapY, gapY+gapHeight]], that is, not contained in it. *)
Theorem isColliding_iff (p : Pipe) (b : Bird) :
  0 < bwidth b -> 0 <= bheight b -> 0 < width p ->
  (isColliding p b = true
   <-> spans_overlap (bx b) (bx b + bwidth b) (x p) (x p + width p)
       /\ span_outside (by_ b) (by_ b + bheight b)
            (gapY p) (gapY p + gapHeight p)).
Proof.
  intros Hbw Hbh Hpw.
  assert (Hcode : isColliding p b = true
                  <-> (x p < bx b + bwidth b /\ bx b < x p + width p)
                      /\ (by_ b < gapY p
                          \/ gapY p + gapHeight p < by_ b + bheight b)).
  { unfold isColliding.
    destruct (Qltb (x p) (bx b + bwidth b)) eqn:E1;
    destruct (Qltb (bx b) (x p + width p)) eqn:E2;
    destruct (Qltb (by_ b) (gapY p)) eqn:E3;
    destruct (Qltb (gapY p + gapHeight p) (by_ b + bheight b)) eqn:E4;
    simpl;
    repeat match goal with
           | H : Qltb _ _ = true |- _ => apply Qltb_lt in H
           | H : Qltb _ _ = false |- _ => apply Qltb_ge in H
           end;
    split; intros H; try reflexivity; try discriminate;
    try (split; [split; assumption|]; (now left) || (now right));
    exfalso; destruct H as [[H1 H2] [H3|H3]]; lra. }
  rewrite Hcode. unfold spans_overlap, span_outside. split.
  - intros [[H1 H2] H3]. split.
    + destruct (Qlt_le_dec (bx b) (x p)) as [Hl|Hl];
      destruct (Qlt_le_dec (bx b + bwidth b) (x p + width p)) as [Hu|Hu].
      * exists ((x p + (bx b + bwidth b)) * (1 # 2)). repeat split; lra.
      * exists ((x p + (x p + width p)) * (1 # 2)). repeat split; lra.
      * exists ((bx b + (bx b + bwidth b)) * (1 # 2)). repeat split; lra.
      * exists ((bx b + (x p + width p)) * (1 # 2)). repeat split; lra.
    + destruct H3 as [H3|H3].
      * exists (by_ b). split; [lra|]. split; [lra|]. now left.
      * exists (by_ b + bheight b). split; [lra|]. split; [lra|].
        now right.
  - intros [[t [T1 [T2 [T3 T4]]]] [s [S1 [S2 S3]]]].
    split; [split; lra|]. destruct S3 as [S3|S3]; [left|right]; lra.
Qed.

Lemma isColliding_iff_witness :
  isColliding (mkPipe None 120 100 200 200 90 false)
              (mkBird 60 365 40 40 (-350)) = true
  <-> spans_overlap 60 (60 + 40) 90 (90 + 120)
      /\ span_outside 365 (365 + 40) 100 (100 + 200).
Proof.
  apply (isColliding_iff (mkPipe None 120 100 200 200 90 false)
           (mkBird 60 365 40 40 (-350))); reflexivity || discriminate.
Defined.

(** C10.  [restart] empties the pipes, zeroes the score and the timer,
    puts the bird back at mid-height with no velocity and clears the
    game-over flag, but leaves the configuration object as it is; a spawn
    adds the increment to the configured speed and lowers the configured
    gap height (not below 80), so the first pipe spawned after a restart
    moves at the speed the previous run had reached and has the gap height
    it had reached. *)
Theorem restart_keeps_difficulty :
  (forall now g,
     let g' := restart now g in
     pipes g' = [] /\ score g' = 0%Z /\ pipeTimer g' = 0
     /\ by_ (bird g') = canvasHeight g / 2 /\ velocity (bird g') = 0
     /\ gameOver g' = false
     /\ config g' = config g)
  /\ (forall r1 r2 g,
        pipeSpeed (config (spawnPipe r1 r2 g))
        = pipeSpeed (config g) + speedIncreaseRate (config g)
        /\ pipeGapHeight (config (spawnPipe r1 r2 g))
           = Qmax 80 (pipeGapHeight (config g) - gapDecreaseRate (config g)))
  /\ (forall now r1 r2 g,
        exists p,
          pipes (spawnPipe r1 r2 (restart now g)) = [p]
          /\ speed p = pipeSpeed (config g)
          /\ gapHeight p = pipeGapHeight (config g)).
Proof.
  split; [|split].
  - intros now g. simpl. repeat split; reflexivity.
  - intros r1 r2 g. split; reflexivity.
  - intros now r1 r2 g. eexists. split; [reflexivity|].
    split; reflexivity.
Qed.

(** C10 on the default configuration: one frame of play spawns a pipe and
    raises the speed from 200 to 202 and lowers the gap height from 200 to
    199.5; after a restart both are still there. *)
Example ramp_survives_restart :
  let played := fst (run constant_half [Frame 16]
                       (loaded_page online 850 600, 0%nat)) in
  let again := restart 5000 played in
  pipeSpeed (config (loaded_page online 850 600)) = 200
  /\ pipeSpeed (config again) == 202
  /\ pipeGapHeight (config again) == 199.5
  /\ pipes again = [] /\ score again = 0%Z.
Proof. vm_compute. repeat split; congruence. Qed.

End DodgeClaims.

(** * Claims about both games *)
Module SharedClaims.

(** C1 in the dodge game.  When one of the three images fails to load,
    [init] only writes the error to the console: no image is assigned,
    [restart] is not called and no frame is ever queued, so whatever frames,
    taps and resizes follow, no pipe appears, the score stays 0 and the
    bird stays at mid-height.  (The collector replaces the failed image
    and starts: [ScoreSpec.collect_init_starts].) *)
Theorem dodge_asset_failure_never_starts (net : Network)
    (cfg : Dodge.Config) (tp : string) (store : gmap string Z)
    (w h : Q) (err : string) :
  Dodge.loadAll net cfg = inr err ->
  let g := Dodge.init net w h 0 (Dodge.newGame cfg tp store) in
  Dodge.console g = [err]
  /\ Dodge.birdImage g = None /\ Dodge.pipeImage g = None
  /\ Dodge.backgroundImage g = None
  /\ Dodge.pendingFrames g = 0%nat
  /\ forall rnd es k,
       let g' := fst (Dodge.run rnd es (g, k)) in
       Dodge.pendingFrames g' = 0%nat /\ Dodge.pipes g' = []
       /\ Dodge.score g' = 0%Z
       /\ Dodge.by_ (Dodge.bird g') = (h / 2)%Q
       /\ Dodge.birdImage g' = None.
Proof.
  intros Hload g.
  assert (Hg : Dodge.console g = [err] /\ Dodge.birdImage g = None
               /\ Dodge.pipeImage g = None
               /\ Dodge.backgroundImage g = None
               /\ Dodge.pendingFrames g = 0%nat
               /\ Dodge.gameOver g = false /\ Dodge.pipes g = []
               /\ Dodge.score g = 0%Z
               /\ Dodge.by_ (Dodge.bird g) = (h / 2)%Q).
  { unfold g, Dodge.init. simpl Dodge.config. rewrite Hload. simpl.
    repeat split; reflexivity. }
  destruct Hg as [H1 [H2 [H3 [H4 [H5 [H6 [H7 [H8 H9]]]]]]]].
  do 5 (split; [assumption|]).
  intros rnd es k.
  destruct (DodgeSpec.idle_forever rnd es g k H5 H6)
    as [I1 [_ [I3 [I4 [I5 [I6 _]]]]]].
  cbv zeta. rewrite I1, I3, I4, I5, I6. repeat split; assumption.
Qed.

Lemma dodge_asset_failure_never_starts_witness :
  let g := Dodge.loaded_page Dodge.no_background 850 600 in
  Dodge.console g
  = ["Failed to load image: "
     +:+ GameConfig.background GameConfig.default_assets]
  /\ Dodge.birdImage g = None /\ Dodge.pipeImage g = None
  /\ Dodge.backgroundImage g = None
  /\ Dodge.pendingFrames g = 0%nat
  /\ forall rnd es k,
       let g' := fst (Dodge.run rnd es (g, k)) in
       Dodge.pendingFrames g' = 0%nat /\ Dodge.pipes g' = []
       /\ Dodge.score g' = 0%Z
       /\ Dodge.by_ (Dodge.bird g') = (600 / 2)%Q
       /\ Dodge.birdImage g' = None.
Proof.
  apply (dodge_asset_failure_never_starts Dodge.no_background
           (Dodge.gameConfig GameConfig.default_assets) "default" ∅ 850 600).
  vm_compute. reflexivity.
Defined.

(** C4 in the dodge game, at the end of the overtaking run.  The last frame
    visits the older pipe first: the bird hits it, the flag is set and
    [saveHighScore] runs with score 0; the same [forEach] then visits the
    newer pipe, which has just passed the bird, and raises the score to 1.
    The run is over with final score 1, while the high score is still 0
    and nothing was stored. *)
Theorem late_score_not_saved :
  let before :=
    fst (Dodge.run Dodge.overtaking_draws Dodge.overtaking_events
           (Dodge.loaded_page Dodge.online 850 600, 0%nat)) in
  let g :=
    fst (Dodge.run Dodge.overtaking_draws
           (Dodge.overtaking_events ++ [Dodge.Frame 3800])
           (Dodge.loaded_page Dodge.online 850 600, 0%nat)) in
  Dodge.gameOver before = false /\ Dodge.score before = 0%Z
  /\ Dodge.highScore before = 0%Z
  /\ Dodge.gameOver g = true
  /\ Dodge.score g = 1%Z
  /\ Dodge.highScore g = 0%Z
  /\ Dodge.localStorage g !! Dodge.localStorageKey g = None
  /\ Dodge.highScore g
     <> Z.max (Dodge.highScore before) (Dodge.score g).
Proof.
  vm_compute. repeat split; congruence.
Qed.

(** C5.  Once a game is over, a model update changes nothing at all: in
    the dodge game [update] returns the game as it is and a whole frame
    touches only the clock; in the collector the timer callback returns the
    game as it is.  The inputs that do not restart (a resize in the dodge
    game, a direction button in the collector) leave the entities and the
    score alone as well. *)
Theorem game_over_freezes (d : Dodge.Game) (c : Collect.Game) :
  Dodge.gameOver d = true ->
  Collect.gameOver c = true ->
  (forall rnd k dt, Dodge.update rnd k dt d = (d, k))
  /\ (forall rnd k timestamp,
        let d' := fst (Dodge.loop rnd k timestamp d) in
        Dodge.bird d' = Dodge.bird d /\ Dodge.pipes d' = Dodge.pipes d
        /\ Dodge.score d' = Dodge.score d
        /\ Dodge.highScore d' = Dodge.highScore d
        /\ Dodge.config d' = Dodge.config d
        /\ Dodge.pipeTimer d' = Dodge.pipeTimer d
        /\ Dodge.localStorage d' = Dodge.localStorage d
        /\ Dodge.gameOver d' = true)
  /\ (forall w h,
        let d' := Dodge.onResize w h d in
        Dodge.bird d' = Dodge.bird d /\ Dodge.pipes d' = Dodge.pipes d
        /\ Dodge.score d' = Dodge.score d /\ Dodge.gameOver d' = true)
  /\ (forall fuel rnd k, Collect.tick fuel rnd k c = Some (c, k))
  /\ (forall dir, Collect.handleButtonClick dir c = c).
Proof.
  intros Hd Hc. split; [|split; [|split; [|split]]].
  - intros rnd k dt. unfold Dodge.update. now rewrite Hd.
  - intros rnd k timestamp. unfold Dodge.loop, Dodge.update.
    simpl Dodge.gameOver. rewrite Hd. simpl. rewrite Hd. simpl.
    repeat split; try reflexivity. exact Hd.
  - intros w h. unfold Dodge.onResize. simpl Dodge.gameOver.
    rewrite Hd. simpl. repeat split; try reflexivity. exact Hd.
  - intros fuel rnd k. unfold Collect.tick. now rewrite Hc.
  - intros dir. unfold Collect.handleButtonClick. now rewrite Hc.
Qed.

Lemma game_over_freezes_witness :
  let d := Dodge.set_gameOver true (Dodge.loaded_page Dodge.online 850 600) in
  let c := Collect.endGame Collect.tail_chase in
  (forall rnd k dt, Dodge.update rnd k dt d = (d, k))
  /\ (forall fuel rnd k, Collect.tick fuel rnd k c = Some (c, k)).
Proof.
  pose proof (game_over_freezes
                (Dodge.set_gameOver true
                   (Dodge.loaded_page Dodge.online 850 600))
                (Collect.endGame Collect.tail_chase)
                eq_refl eq_refl) as H.
  cbv zeta. split; [exact (proj1 H) | exact (proj1 (proj2 (proj2 (proj2 H))))].
Defined.

End SharedClaims.

(** * The collector between inputs *)
Module CollectInvariant.
Import Collect CollectSpec CollectPage.

Local Open Scope Z_scope.

(** ** Lists: dropping and re-attaching the last element *)

Lemma split_last (l : list Cell) :
  l <> [] -> exists l' x, l = l' ++ [x] /\ last l = Some x
                          /\ removelast l = l'.
Proof.
  intros Hne. destruct (exists_last Hne) as [l' [x E]]. subst l.
  exists l', x. split; [reflexivity|]. split.
  - apply last_snoc.
  - apply removelast_last.
Qed.

Lemma chained_cons (a : Cell) (l : list Cell) :
  chained (a :: l)
  <-> match l with b :: _ => adjacent a b | [] => True end /\ chained l.
Proof. destruct l; simpl; tauto. Qed.

Lemma chained_app_inv (l1 l2 : list Cell) :
  chained (l1 ++ l2) -> chained l1.
Proof.
  induction l1 as [|a l1 IH]; intros H; [exact I|].
  change ((a :: l1) ++ l2) with (a :: (l1 ++ l2)) in H.
  apply chained_cons in H. destruct H as [Hadj Hc].
  apply chained_cons. split; [|now apply IH].
  destruct l1; [exact I|exact Hadj].
Qed.

Lemma unit_step_moves (h d : Cell) :
  unit_step d -> adjacent (new_head h d) h /\ new_head h d <> h.
Proof.
  intros Hd. unfold adjacent, new_head. destruct h as [a b].
  destruct Hd as [E|[E|[E|E]]]; subst d; simpl; split;
    try lia; intros Heq; inversion Heq; lia.
Qed.

Lemma unit_step_not_opposite (d : Cell) : unit_step d -> ~ opposite d d.
Proof.
  intros Hd [H1 H2]. destruct Hd as [E|[E|[E|E]]]; subst d; simpl in *; lia.
Qed.

(** ** One successful move *)

(** What a successful [move] leaves: the new head in front of the old
    segments without their last, and the dropped cell remembered. *)
Lemma move_true (c : Character) (h : Cell) (t : list Cell) (c' : Character) :
  segments c = h :: t ->
  move c = (true, c') ->
  let head := new_head h (nextDirection c) in
  segments c' = head :: removelast (h :: t)
  /\ lastTailPosition c' = last (h :: t)
  /\ direction c' = nextDirection c /\ nextDirection c' = nextDirection c
  /\ gridW c' = gridW c /\ gridH c' = gridH c
  /\ in_grid (gridW c) (gridH c) head /\ ~ In head t.
Proof.
  intros E. unfold move. rewrite E.
  destruct (outside_grid _ _ _) eqn:Ho; [discriminate|].
  destruct (hits_body _ _) eqn:Hb; [discriminate|].
  intros H. injection H as Hc. subst c'. cbv zeta.
  cbn [segments lastTailPosition direction nextDirection gridW gridH].
  do 6 (split; [reflexivity|]).
  split; [now apply outside_grid_false_iff|].
  intros Hin. apply (hits_body_iff h) in Hin. congruence.
Qed.

Lemma move_false (c c' : Character) :
  move c = (false, c') ->
  segments c' = segments c /\ direction c' = nextDirection c
  /\ nextDirection c' = nextDirection c
  /\ gridW c' = gridW c /\ gridH c' = gridH c.
Proof.
  unfold move. destruct (segments c) as [|h t] eqn:E; [discriminate|].
  destruct (outside_grid _ _ _).
  - intros H. injection H as Hc. subst c'. simpl. repeat split.
  - destruct (hits_body _ _); [|discriminate].
    intros H. injection H as Hc. subst c'. simpl. repeat split.
Qed.

(** [grow] right after a successful [move] puts the dropped cell back: the
    fallback branch of [grow] does not run. *)
Lemma grow_after_move (c c' : Character) (h : Cell) (t : list Cell) :
  segments c = h :: t ->
  move c = (true, c') ->
  segments (grow c') = new_head h (nextDirection c) :: h :: t
  /\ direction (grow c') = nextDirection c
  /\ nextDirection (grow c') = nextDirection c
  /\ gridW (grow c') = gridW c /\ gridH (grow c') = gridH c.
Proof.
  intros E Hm.
  destruct (move_true c h t c' E Hm) as [Hs [Hl [Hd [Hn [Hw [Hh _]]]]]].
  destruct (split_last (h :: t)) as [l' [x [El [Elast Erem]]]];
    [discriminate|].
  unfold grow. simpl. rewrite Hl, Elast, Hs, Erem, Hd, Hn, Hw, Hh.
  repeat split. rewrite El.
  change ((new_head h (nextDirection c) :: l') ++ [x])
    with (new_head h (nextDirection c) :: (l' ++ [x])).
  reflexivity.
Qed.

(** ** The invariant *)

#[local] Arguments grow : simpl never.
#[local] Arguments move : simpl never.

(** Reduce the projections of a rebuilt game, leaving the character's
    methods folded. *)
Ltac game_fields :=
  cbn [with_round gridSizeW gridSizeH character item score gameOver
         gameLoopInterval].

Tactic Notation "game_fields" "in" ne_hyp_list(Hs) :=
  cbn [with_round gridSizeW gridSizeH character item score gameOver
         gameLoopInterval] in Hs.

Lemma wf_build (g : Game) (c : Character) (it : Cell) (sc : Z)
    (over loop : bool) :
  0 < gridSizeW g /\ 0 < gridSizeH g ->
  gridW c = gridSizeW g /\ gridH c = gridSizeH g ->
  segments c <> [] ->
  NoDup (segments c) ->
  Forall (in_grid (gridSizeW g) (gridSizeH g)) (segments c) ->
  chained (segments c) ->
  Z.of_nat (length (segments c)) = sc + 1 ->
  ~ In it (segments c) ->
  in_grid (gridSizeW g) (gridSizeH g) it ->
  unit_step (direction c) /\ unit_step (nextDirection c) ->
  loop = negb over ->
  (over = false ->
   heading (segments c) (direction c)
   /\ ((1 < length (segments c))%nat ->
       ~ opposite (nextDirection c) (direction c))) ->
  well_formed (with_round g c it sc over loop).
Proof. intros. constructor; simpl; assumption. Qed.

Lemma wf_saveHighScore (g : Game) :
  well_formed g -> well_formed (saveHighScore g).
Proof.
  intros [H1 H2 H3 H4 H5 H6 H7 H8 H9 H10 H11 H12]. unfold saveHighScore.
  destruct (highScore g <? score g); constructor; simpl; assumption.
Qed.

Lemma same_cell_true (a b : Cell) :
  (cx a =? cx b) && (cy a =? cy b) = true -> a = b.
Proof.
  intros E. apply andb_true_iff in E. destruct E as [E1 E2].
  apply Z.eqb_eq in E1. apply Z.eqb_eq in E2.
  destruct a, b; simpl in *; now subst.
Qed.

Lemma same_cell_neq (a b : Cell) :
  (cx a =? cx b) && (cy a =? cy b) = false -> a <> b.
Proof.
  intros E Heq. subst b. now rewrite !Z.eqb_refl in E.
Qed.

(** What [spawnItem] returns: the same game with a new item, free and on
    the grid. *)
Lemma spawnItem_result (fuel : nat) (rnd : RandomSource) (k : nat)
    (g g' : Game) (k' : nat) :
  valid_random rnd -> 0 < gridSizeW g -> 0 < gridSizeH g ->
  spawnItem fuel rnd k g = Some (g', k') ->
  g' = with_round g (character g) (item g') (score g) (gameOver g)
         (gameLoopInterval g)
  /\ ~ In (item g') (segments (character g))
  /\ in_grid (gridSizeW g) (gridSizeH g) (item g').
Proof.
  intros Hv Hw Hh. unfold spawnItem.
  destruct (spawnItem_loop _ _ _ _ _ _) as [[c k1]|] eqn:E; [|discriminate].
  intros H. injection H as Hg Hk. subst g'. simpl.
  apply spawnItem_loop_sound in E. destruct E as [Hfree [n [_ [Hc _]]]].
  split; [reflexivity|]. split; [exact Hfree|].
  subst c. now apply drawn_cell_in_grid.
Qed.

Lemma wf_tick (fuel : nat) (rnd : RandomSource) (k : nat) (g g' : Game)
    (k' : nat) :
  valid_random rnd -> well_formed g ->
  tick fuel rnd k g = Some (g', k') -> well_formed g'.
Proof.
  intros Hv Hwf. unfold tick.
  destruct (gameOver g) eqn:Hover; simpl negb; cbv iota.
  { intros H. injection H as Hg _. now subst g'. }
  destruct Hwf as [Hgrid [Hsw Hsh] Hne Hnd Hin Hch Hlen Hit Hitg [Hdu Hnu]
                     Htimer Hrun].
  rewrite Hover in Htimer. simpl in Htimer.
  unfold update.
  destruct (move (character g)) as [moved c'] eqn:Hm.
  destruct (segments (character g)) as [|h t] eqn:E; [congruence|].
  destruct moved; simpl negb; cbv iota.
  - destruct (move_true _ h t c' E Hm)
      as [Hs [Hl [Hd [Hn [Hw [Hh [Hg Hnt]]]]]]].
    destruct (unit_step_moves h _ Hnu) as [Hadj Hneq].
    set (head := new_head h (nextDirection (character g))) in *.
    assert (Hfresh : ~ In head (h :: t)).
    { intros [Heq|Hin']; [now apply Hneq | now apply Hnt]. }
    destruct (split_last (h :: t)) as [l' [x [El [_ Erem]]]]; [discriminate|].
    rewrite Hs.
    destruct ((cx head =? cx (item g)) && (cy head =? cy (item g))) eqn:Eat.
    + (* the item is collected *)
      destruct (grow_after_move _ c' h t E Hm) as [Gs [Gd [Gn [Gw Gh]]]].
      fold head in Gs.
      intros Hsp. apply spawnItem_result in Hsp; try tauto.
      destruct Hsp as [Hg' [Hfree Hig]].
      game_fields in Hg' Hfree Hig.
      rewrite Hg'.
      apply wf_build;
        game_fields;
        rewrite ?Gs, ?Gd, ?Gn, ?Gw, ?Gh.
      * exact Hgrid.
      * split; congruence.
      * discriminate.
      * apply NoDup_cons. split; [|exact Hnd].
        now rewrite list_elem_of_In.
      * constructor; [|exact Hin]. now rewrite <- Hsw, <- Hsh.
      * split; [exact Hadj|exact Hch].
      * simpl length in *. lia.
      * now rewrite Gs in Hfree.
      * exact Hig.
      * now split.
      * now rewrite Hover.
      * intros _. split; [reflexivity|].
        intros _. now apply unit_step_not_opposite.
    + (* a plain step *)
      intros H. injection H as Hg' _. subst g'.
      rewrite Erem in *. rewrite El in Hnd, Hin, Hch, Hlen, Hit, Hfresh.
      apply wf_build;
        game_fields;
        rewrite ?Hs, ?Hd, ?Hn, ?Hw, ?Hh.
      * exact Hgrid.
      * split; congruence.
      * discriminate.
      * apply NoDup_cons. split.
        -- rewrite list_elem_of_In. intros Hx. apply Hfresh.
           apply in_or_app. now left.
        -- now apply NoDup_app in Hnd.
      * constructor; [now rewrite <- Hsw, <- Hsh|].
        now apply Forall_app in Hin.
      * apply chained_cons. split; [|now apply chained_app_inv in Hch].
        destruct l' as [|b l'']; [exact I|].
        simpl in El. injection El as Eh _. now subst b.
      * rewrite length_app in Hlen. simpl length in *. lia.
      * intros [Hx|Hx].
        -- apply same_cell_neq in Eat. now apply Eat.
        -- apply Hit. apply in_or_app. now left.
      * exact Hitg.
      * now split.
      * now rewrite Hover.
      * intros _. split.
        -- destruct l' as [|b l'']; [exact I|].
           simpl in El. injection El as Eh _. now subst b.
        -- intros _. now apply unit_step_not_opposite.
  - (* the move fails: the run ends *)
    destruct (move_false _ c' Hm) as [Hs [Hd [Hn [Hw Hh]]]].
    intros H. injection H as Hg' _. subst g'.
    unfold endGame. apply wf_saveHighScore.
    game_fields.
    rewrite E in Hs.
    apply wf_build;
        game_fields;
        rewrite ?Hs, ?Hd, ?Hn, ?Hw, ?Hh.
    + exact Hgrid.
    + split; congruence.
    + discriminate.
    + exact Hnd.
    + exact Hin.
    + exact Hch.
    + exact Hlen.
    + exact Hit.
    + exact Hitg.
    + now split.
    + reflexivity.
    + discriminate.
Qed.

Lemma wf_steer (d : Cell) (g : Game) :
  unit_step d -> well_formed g -> well_formed (steer d g).
Proof.
  intros Hd [Hgrid [Hsw Hsh] Hne Hnd Hin Hch Hlen Hit Hitg [Hdu Hnu]
               Htimer Hrun].
  unfold steer, setDirection.
  destruct ((1 <? Z.of_nat (length (segments (character g))))
            && (cx d =? - cx (direction (character g)))
            && (cy d =? - cy (direction (character g)))) eqn:Hrev.
  - apply wf_build; try assumption; now split.
  - apply wf_build;
      cbn [segments direction nextDirection gridW gridH];
      try assumption; try (now split).
    intros Hover. destruct (Hrun Hover) as [Hhead _].
    split; [exact Hhead|]. intros Hlong [O1 O2].
    rewrite !andb_false_iff in Hrev.
    destruct Hrev as [[Hrev|Hrev]|Hrev].
    + apply Z.ltb_ge in Hrev. lia.
    + apply Z.eqb_neq in Hrev. contradiction.
    + apply Z.eqb_neq in Hrev. contradiction.
Qed.

Lemma buttonDirection_unit (b : ButtonId) : unit_step (buttonDirection b).
Proof. destruct b; unfold unit_step; simpl; tauto. Qed.

Lemma keyDirection_unit (key : string) (d : Cell) :
  keyDirection key = Some d -> unit_step d.
Proof.
  unfold keyDirection, unit_step.
  repeat match goal with
         | |- context [if ?c then _ else _] => destruct c
         end;
    intros H; inversion H; tauto.
Qed.

Lemma swipeDirection_unit (dx dy : Q) (d : Cell) :
  swipeDirection dx dy = Some d -> unit_step d.
Proof.
  unfold swipeDirection, unit_step.
  repeat match goal with
         | |- context [if ?c then _ else _] => destruct c
         end;
    intros H; inversion H; tauto.
Qed.

(** [setup] followed by [startGameLoop], as [init] and [restart] run
    them. *)
Lemma wf_restart (fuel : nat) (rnd : RandomSource) (k : nat) (g g' : Game)
    (k' : nat) :
  valid_random rnd -> 0 < gridSizeW g -> 0 < gridSizeH g ->
  restart fuel rnd k g = Some (g', k') ->
  well_formed g' /\ gameOver g' = false /\ score g' = 0
  /\ highScore g' = highScore g /\ localStorage g' = localStorage g.
Proof.
  intros Hv Hw Hh. unfold restart, setup.
  destruct (spawnItem _ _ _ _) as [[g1 k1]|] eqn:Hsp; [|discriminate].
  intros H. injection H as Hg _. subst g'.
  apply spawnItem_result in Hsp; try assumption.
  destruct Hsp as [Hg1 [Hfree Hig]].
  cbn [with_round gridSizeW gridSizeH character item score gameOver
         gameLoopInterval] in Hg1, Hfree, Hig.
  rewrite Hg1. unfold startGameLoop.
  cbn [with_round gridSizeW gridSizeH character item score gameOver
         gameLoopInterval highScore localStorage].
  split; [|repeat split].
  apply wf_build; cbn [newCharacter segments direction nextDirection
                         gridW gridH length]; try assumption.
  - now split.
  - now split.
  - discriminate.
  - apply NoDup_singleton.
  - constructor; [|constructor]. unfold in_grid. simpl.
    split; split; try (apply Z.div_pos; lia);
      apply Z.div_lt_upper_bound; lia.
  - exact I.
  - reflexivity.
  - split; unfold unit_step; tauto.
  - reflexivity.
  - intros _. split; [exact I|]. simpl. lia.
Qed.

Lemma wf_init (cfg : Config) (tp : string) (net : Network)
    (store : gmap string Z) (fuel : nat) (rnd : RandomSource) (k : nat)
    (g : Game) (k' : nat) :
  valid_random rnd -> 0 < gridWidth cfg -> 0 < gridHeight cfg ->
  init cfg tp net store fuel rnd k = Some (g, k') ->
  well_formed g.
Proof.
  intros Hv Hw Hh. unfold init.
  destruct (loadImage net (characterSrc cfg)) as [ci l1].
  destruct (loadImage net (itemSrc cfg)) as [ii l2].
  destruct (loadImage net (backgroundSrc cfg)) as [bi l3].
  destruct (in_settle_order (settles net) l1 l2 l3) as [[w1 w2] w3].
  match goal with
  | |- match setup fuel rnd k ?g0 with _ => _ end = _ -> _ =>
      intros H;
      apply (wf_restart fuel rnd k g0 g k' Hv Hw Hh)
  end.
  exact H.
Qed.

Lemma wf_handleKeyDown (fuel : nat) (rnd : RandomSource) (k : nat)
    (key : string) (g g' : Game) (k' : nat) :
  valid_random rnd -> well_formed g ->
  handleKeyDown fuel rnd k key g = Some (g', k') -> well_formed g'.
Proof.
  intros Hv Hwf. unfold handleKeyDown.
  destruct (gameOver g && String.eqb key "Enter").
  - intros H. eapply wf_restart in H; try eassumption; try apply Hwf.
    tauto.
  - destruct (gameOver g).
    + intros H. injection H as Hg _. now subst.
    + destruct (keyDirection key) as [d|] eqn:Ek;
        intros H; injection H as Hg _; subst g'; [|exact Hwf].
      apply wf_steer; [|exact Hwf]. eapply keyDirection_unit; eauto.
Qed.

Lemma wf_deliver (fuel : nat) (rnd : RandomSource) (i : Input)
    (p p' : Page) (k k' : nat) :
  valid_random rnd -> well_formed (game p) ->
  deliver fuel rnd i (p, k) = Some (p', k') -> well_formed (game p').
Proof.
  intros Hv Hwf. unfold deliver. destruct i as [|b|key|x y|x y].
  - destruct (gameLoopInterval (game p)).
    + destruct (tick fuel rnd k (game p)) as [[g1 k1]|] eqn:Ht;
        [|discriminate].
      intros H. injection H as Hp _. subst p'. simpl.
      eapply wf_tick; eauto.
    + intros H. injection H as Hp _. now subst p'.
  - intros H. injection H as Hp _. subst p'. simpl.
    unfold handleButtonClick.
    destruct (gameOver (game p)) eqn:Ho; [exact Hwf|]. simpl.
    pose proof (wf_steer _ _ (buttonDirection_unit b) Hwf) as Hs.
    unfold steer in Hs. rewrite Ho in Hs. exact Hs.
  - destruct (handleKeyDown fuel rnd k key (game p)) as [[g1 k1]|] eqn:Hk;
      [|discriminate].
    intros H. injection H as Hp _. subst p'. simpl.
    eapply wf_handleKeyDown; eauto.
  - unfold handleCanvasTouchStart. destruct (gameOver (game p)).
    + destruct (restart fuel rnd k (game p)) as [[g1 k1]|] eqn:Hr;
        [|discriminate].
      intros H. injection H as Hp _. subst p'. simpl.
      eapply wf_restart in Hr; try eassumption; try apply Hwf. tauto.
    + intros H. injection H as Hp _. now subst p'.
  - intros H. injection H as Hp _. subst p'.
    unfold handleCanvasTouchEnd.
    destruct (gameOver (game p) || Qeq_bool (touchStartX p) 0);
      [exact Hwf|].
    simpl. destruct (swipeDirection _ _) as [d|] eqn:Es; [|exact Hwf].
    apply wf_steer; [|exact Hwf]. eapply swipeDirection_unit; eauto.
Qed.

Lemma wf_play (fuel : nat) (rnd : RandomSource) (inputs : list Input) :
  forall (p p' : Page) (k k' : nat),
    valid_random rnd -> well_formed (game p) ->
    play fuel rnd inputs (p, k) = Some (p', k') -> well_formed (game p').
Proof.
  induction inputs as [|i rest IH]; intros p p' k k' Hv Hwf; cbn [play].
  - intros H. injection H as Hp _. now subst p'.
  - destruct (deliver fuel rnd i (p, k)) as [[p1 k1]|] eqn:Hd;
      [|discriminate].
    intros H. eapply IH; [exact Hv| |exact H].
    eapply wf_deliver; eauto.
Qed.

(** Every state the page reaches is well formed. *)
Lemma wf_reached (cfg : Config) (tp : string) (net : Network)
    (store : gmap string Z) (fuel0 fuel : nat) (rnd : RandomSource)
    (inputs : list Input) (s0 : Page * nat) (p : Page) (k : nat) :
  valid_random rnd -> 0 < gridWidth cfg -> 0 < gridHeight cfg ->
  openPage cfg tp net store fuel0 rnd 0 = Some s0 ->
  play fuel rnd inputs s0 = Some (p, k) ->
  well_formed (game p).
Proof.
  intros Hv Hw Hh. unfold openPage.
  destruct (init cfg tp net store fuel0 rnd 0) as [[g0 k0]|] eqn:Hi;
    [|discriminate].
  intros H. injection H as Hs. subst s0. intros Hp.
  eapply wf_play; [exact Hv| |exact Hp]. simpl.
  eapply wf_init; eauto.
Qed.

End CollectInvariant.

(** * The collector: score and store *)
Module CollectScores.
Import Collect CollectSpec CollectPage.

Local Open Scope Z_scope.

Lemma quiet_refl (g : Game) : quiet g g.
Proof. unfold quiet. tauto. Qed.

Lemma spawnItem_scores (fuel : nat) (rnd : RandomSource) (k : nat)
    (g g' : Game) (k' : nat) :
  spawnItem fuel rnd k g = Some (g', k') ->
  topic g' = topic g /\ highScore g' = highScore g
  /\ localStorage g' = localStorage g /\ gameOver g' = gameOver g
  /\ score g' = score g.
Proof.
  unfold spawnItem.
  destruct (spawnItem_loop _ _ _ _ _ _) as [[c k1]|]; [|discriminate].
  intros H. injection H as Hg _. subst g'. simpl. repeat split.
Qed.

Lemma restart_scores (fuel : nat) (rnd : RandomSource) (k : nat)
    (g g' : Game) (k' : nat) :
  restart fuel rnd k g = Some (g', k') ->
  topic g' = topic g /\ highScore g' = highScore g
  /\ localStorage g' = localStorage g /\ gameOver g' = false
  /\ score g' = 0.
Proof.
  unfold restart, setup.
  destruct (spawnItem _ _ _ _) as [[g1 k1]|] eqn:Hs; [|discriminate].
  intros H. injection H as Hg _. subst g'.
  apply spawnItem_scores in Hs. simpl in *. tauto.
Qed.

Lemma tick_scores (fuel : nat) (rnd : RandomSource) (k : nat)
    (g g' : Game) (k' : nat) :
  tick fuel rnd k g = Some (g', k') ->
  topic g' = topic g /\ (quiet g g' \/ ended g g').
Proof.
  unfold tick. destruct (gameOver g) eqn:Hover; simpl negb; cbv iota.
  { intros H. injection H as Hg _. subst g'.
    split; [reflexivity|]. left. apply quiet_refl. }
  unfold update. destruct (move (character g)) as [moved c].
  destruct moved; simpl negb; cbv iota.
  - assert (Hq : forall g1 : Game,
               topic g1 = topic g -> highScore g1 = highScore g ->
               localStorage g1 = localStorage g -> gameOver g1 = false ->
               topic g1 = topic g /\ (quiet g g1 \/ ended g g1)).
    { intros g1 H1 H2 H3 H4. split; [exact H1|]. left.
      unfold quiet. rewrite H4. repeat split; try assumption; discriminate. }
    destruct (segments c) as [|hd tl'].
    + intros H. injection H as Hg _. subst g'. apply Hq; simpl; auto.
    + destruct ((cx hd =? _) && _).
      * intros H. apply spawnItem_scores in H. simpl in H.
        destruct H as [H1 [H2 [H3 [H4 _]]]]. apply Hq; congruence.
      * intros H. injection H as Hg _. subst g'. apply Hq; simpl; auto.
  - intros H. injection H as Hg _. subst g'.
    unfold endGame, saveHighScore. simpl.
    split; [now destruct (highScore g <? score g)|]. right.
    unfold ended. rewrite Hover.
    destruct (highScore g <? score g) eqn:E; simpl;
      repeat split; try reflexivity.
    + apply Z.ltb_lt in E. lia.
    + apply Z.ltb_ge in E. lia.
Qed.

Lemma steer_scores (d : Cell) (g : Game) :
  topic (steer d g) = topic g /\ quiet g (steer d g).
Proof. unfold steer, quiet. simpl. tauto. Qed.

Lemma deliver_scores (fuel : nat) (rnd : RandomSource) (i : Input)
    (p p' : Page) (k k' : nat) :
  deliver fuel rnd i (p, k) = Some (p', k') ->
  topic (game p') = topic (game p)
  /\ (quiet (game p) (game p') \/ ended (game p) (game p')).
Proof.
  assert (Hr : forall g1 : Game,
             topic g1 = topic (game p) /\ highScore g1 = highScore (game p)
             /\ localStorage g1 = localStorage (game p)
             /\ gameOver g1 = false /\ score g1 = 0 ->
             topic g1 = topic (game p)
             /\ (quiet (game p) g1 \/ ended (game p) g1)).
  { intros g1 [H1 [H2 [H3 [H4 _]]]]. split; [exact H1|]. left.
    unfold quiet. rewrite H4. repeat split; try assumption; discriminate. }
  unfold deliver. destruct i as [|b|key|x y|x y].
  - destruct (gameLoopInterval (game p)).
    + destruct (tick fuel rnd k (game p)) as [[g1 k1]|] eqn:Ht;
        [|discriminate].
      intros H. injection H as Hp _. subst p'. simpl.
      now apply tick_scores in Ht.
    + intros H. injection H as Hp _. subst p'.
      split; [reflexivity|]. left. apply quiet_refl.
  - intros H. injection H as Hp _. subst p'. simpl.
    unfold handleButtonClick. destruct (negb (gameOver (game p))).
    + pose proof (steer_scores (buttonDirection b) (game p)) as [H1 H2].
      split; [exact H1|now left].
    + split; [reflexivity|]. left. apply quiet_refl.
  - destruct (handleKeyDown fuel rnd k key (game p)) as [[g1 k1]|] eqn:Hk;
      [|discriminate].
    intros H. injection H as Hp _. subst p'. simpl.
    unfold handleKeyDown in Hk.
    destruct (gameOver (game p) && String.eqb key "Enter").
    + apply restart_scores in Hk. now apply Hr.
    + destruct (gameOver (game p)).
      * injection Hk as Hg _. subst g1.
        split; [reflexivity|]. left. apply quiet_refl.
      * destruct (keyDirection key) as [d|];
          injection Hk as Hg _; subst g1.
        -- pose proof (steer_scores d (game p)) as [H1 H2].
           split; [exact H1|now left].
        -- split; [reflexivity|]. left. apply quiet_refl.
  - unfold handleCanvasTouchStart. destruct (gameOver (game p)).
    + destruct (restart fuel rnd k (game p)) as [[g1 k1]|] eqn:Hres;
        [|discriminate].
      intros H. injection H as Hp _. subst p'. simpl.
      apply restart_scores in Hres. now apply Hr.
    + intros H. injection H as Hp _. subst p'. simpl.
      split; [reflexivity|]. left. apply quiet_refl.
  - intros H. injection H as Hp _. subst p'.
    unfold handleCanvasTouchEnd.
    destruct (gameOver (game p) || Qeq_bool (touchStartX p) 0).
    + split; [reflexivity|]. left. apply quiet_refl.
    + simpl. destruct (swipeDirection _ _) as [d|].
      * pose proof (steer_scores d (game p)) as [H1 H2].
        split; [exact H1|now left].
      * split; [reflexivity|]. left. apply quiet_refl.
Qed.

(** A property of the high score, the store and the topic that every save
    keeps holds in every state the inputs lead to. *)
Lemma play_keeps (Keeps : Z -> gmap string Z -> string -> Prop)
    (fuel : nat) (rnd : RandomSource) (inputs : list Input) :
  (forall hs st tp s,
     Keeps hs st tp -> hs < s ->
     Keeps s (<["collectIt_highScore_" +:+ tp := s]> st) tp) ->
  forall p p' k k',
    Keeps (highScore (game p)) (localStorage (game p)) (topic (game p)) ->
    play fuel rnd inputs (p, k) = Some (p', k') ->
    Keeps (highScore (game p')) (localStorage (game p')) (topic (game p')).
Proof.
  intros Hsave. induction inputs as [|i rest IH]; intros p p' k k' H;
    cbn [play].
  - intros E. injection E as Hp _. now subst p'.
  - destruct (deliver fuel rnd i (p, k)) as [[p1 k1]|] eqn:Hd;
      [|discriminate].
    apply IH. apply deliver_scores in Hd.
    destruct Hd as [Ht [[Hh [Hs _]]|[Hrun [_ [_ [Hh Hs]]]]]].
    + now rewrite Ht, Hh, Hs.
    + rewrite Ht, Hh, Hs.
      destruct (highScore (game p) <? score (game p)) eqn:E.
      * apply Z.ltb_lt in E.
        replace (Z.max _ _) with (score (game p)) by lia.
        now apply (Hsave (highScore (game p))).
      * apply Z.ltb_ge in E.
        replace (Z.max _ _) with (highScore (game p)) by lia.
        exact H.
Qed.

(** Once the run is over the score is not above the high score. *)
Lemma play_saved (fuel : nat) (rnd : RandomSource) (inputs : list Input) :
  forall p p' k k',
    (gameOver (game p) = true -> score (game p) <= highScore (game p)) ->
    play fuel rnd inputs (p, k) = Some (p', k') ->
    gameOver (game p') = true -> score (game p') <= highScore (game p').
Proof.
  induction inputs as [|i rest IH]; intros p p' k k' H; cbn [play].
  - intros E. injection E as Hp _. now subst p'.
  - destruct (deliver fuel rnd i (p, k)) as [[p1 k1]|] eqn:Hd;
      [|discriminate].
    apply IH. apply deliver_scores in Hd.
    destruct Hd as [_ [[Hh [_ Ho]]|[_ [_ [Hsc [Hh _]]]]]]; intros Hover.
    + destruct (Ho Hover) as [Ho1 Ho2]. rewrite Ho2, Hh. now apply H.
    + rewrite Hsc, Hh. lia.
Qed.

End CollectScores.

(** * The dodge game: frames and runs *)
Module DodgeFrames.
Import Dodge DodgeSpec DodgeParts.

Local Open Scope Q_scope.

(** ** One visit *)

(** The game after a visit: the score raised or not, then the run ended
    and saved or not. *)
Lemma visitPipe_cases (dt : Q) (p : Pipe) (g : Game) :
  exists g1,
    (g1 = g \/ g1 = set_score (score g + 1)%Z g)
    /\ (snd (visitPipe dt p g) = g1
        \/ snd (visitPipe dt p g) = saveHighScore (set_gameOver true g1)).
Proof.
  unfold visitPipe. cbn [snd].
  destruct (negb _ && _).
  - exists (set_score (score g + 1)%Z g). split; [now right|].
    destruct (isColliding _ _); [now right|now left].
  - exists g. split; [now left|].
    destruct (isColliding _ _); [now right|now left].
Qed.

(** The pipe after a visit depends on the game through the bird only, and
    whether it collides does not depend on [scored]. *)
Lemma visitPipe_pipe_bird (dt : Q) (p : Pipe) (g1 g2 : Game) :
  bird g1 = bird g2 -> fst (visitPipe dt p g1) = fst (visitPipe dt p g2).
Proof. intros H. unfold visitPipe. cbn [fst]. now rewrite H. Qed.

Lemma isColliding_visited (dt : Q) (p : Pipe) (g : Game) (b : Bird) :
  isColliding (fst (visitPipe dt p g)) b = isColliding (Pipe_update dt p) b.
Proof.
  unfold visitPipe. cbn [fst]. destruct (negb _ && _); reflexivity.
Qed.

Lemma visitPipe_gameOver (dt : Q) (p : Pipe) (g : Game) :
  gameOver (snd (visitPipe dt p g))
  = gameOver g || isColliding (Pipe_update dt p) (bird g).
Proof.
  unfold visitPipe. cbn [snd].
  destruct (negb _ && _) eqn:Ep; cbn [bird set_score];
    match goal with
    | |- context [isColliding ?q ?b] =>
        replace (isColliding q b)
          with (isColliding (Pipe_update dt p) (bird g)) by reflexivity
    end;
    destruct (isColliding _ _);
    rewrite ?(proj1 (proj2 (proj2 (saveHighScore_frame _))));
    simpl; rewrite ?orb_true_r, ?orb_false_r; reflexivity.
Qed.

(** ** The whole [forEach] *)

Lemma forEachPipe_preserves (P : Game -> Prop) (dt : Q) :
  (forall p g, P g -> P (snd (visitPipe dt p g))) ->
  forall ps g, P g -> P (snd (forEachPipe dt ps g)).
Proof.
  intros Hstep. induction ps as [|p ps IH]; intros g Hg;
    cbn [forEachPipe]; [exact Hg|].
  specialize (Hstep p g Hg).
  destruct (visitPipe dt p g) as [p' g1]. cbn [snd] in Hstep.
  specialize (IH g1 Hstep).
  destruct (forEachPipe dt ps g1) as [rest g2]. exact IH.
Qed.

Lemma forEachPipe_bird (dt : Q) (ps : list Pipe) (g : Game) :
  bird (snd (forEachPipe dt ps g)) = bird g.
Proof.
  apply (forEachPipe_preserves (fun g' => bird g' = bird g)); [|reflexivity].
  intros p g0 H. destruct (visitPipe_game dt p g0) as [Hb _]. congruence.
Qed.

Lemma forEachPipe_pipes (dt : Q) (ps : list Pipe) :
  forall g,
    fst (forEachPipe dt ps g) = map (fun p => fst (visitPipe dt p g)) ps.
Proof.
  induction ps as [|p ps IH]; intros g; cbn [forEachPipe map];
    [reflexivity|].
  destruct (visitPipe dt p g) as [p' g1] eqn:Ev.
  specialize (IH g1).
  destruct (forEachPipe dt ps g1) as [rest g2]. cbn [fst] in *.
  f_equal. rewrite IH. apply map_ext. intros q.
  apply visitPipe_pipe_bird.
  replace g1 with (snd (visitPipe dt p g)) by now rewrite Ev.
  apply visitPipe_game.
Qed.

Lemma forEachPipe_gameOver (dt : Q) (ps : list Pipe) :
  forall g,
    gameOver (snd (forEachPipe dt ps g))
    = gameOver g
      || existsb (fun p => isColliding (Pipe_update dt p) (bird g)) ps.
Proof.
  induction ps as [|p ps IH]; intros g; cbn [forEachPipe existsb].
  - cbn [snd]. now rewrite orb_false_r.
  - pose proof (visitPipe_gameOver dt p g) as Hv.
    pose proof (visitPipe_game dt p g) as [Hb _].
    destruct (visitPipe dt p g) as [p' g1]. cbn [snd] in Hv, Hb.
    specialize (IH g1).
    destruct (forEachPipe dt ps g1) as [rest g2]. cbn [snd] in *.
    rewrite IH, Hv, Hb. now rewrite orb_assoc.
Qed.

(** ** A frame, stage by stage *)

Lemma update_running (rnd : RandomSource) (k : nat) (dt : Q) (g : Game) :
  gameOver g = false ->
  update rnd k dt g
  = if out_of_bounds (canvasHeight g) (fallen dt (bird g))
    then (saveHighScore (set_gameOver true (set_bird (fallen dt (bird g)) g)),
          k)
    else
      let g3 := before_pipes rnd k dt g in
      (set_pipes
         (filter (fun p => Qltb (- width p) (x p))
            (fst (forEachPipe dt (pipes g3) g3)))
         (snd (forEachPipe dt (pipes g3) g3)),
       if Qle_bool (pipeTimer g - dt) 0 then S (S k) else k).
Proof.
  intros Hrun. unfold update, out_of_bounds, before_pipes, fallen.
  rewrite Hrun. cbv zeta. cbn [by_ bheight].
  destruct (_ || _); [reflexivity|].
  cbn [pipeTimer set_pipeTimer set_bird].
  destruct (Qle_bool (pipeTimer g - dt) 0);
    match goal with
    | |- context [forEachPipe dt ?ps ?g3] =>
        destruct (forEachPipe dt ps g3) as [ps' g4]
    end; reflexivity.
Qed.

Lemma before_pipes_frame (rnd : RandomSource) (k : nat) (dt : Q) (g : Game) :
  let g3 := before_pipes rnd k dt g in
  bird g3 = fallen dt (bird g) /\ gameOver g3 = gameOver g
  /\ score g3 = score g /\ highScore g3 = highScore g
  /\ localStorage g3 = localStorage g /\ topic g3 = topic g
  /\ canvasHeight g3 = canvasHeight g /\ canvasWidth g3 = canvasWidth g.
Proof.
  unfold before_pipes. cbv zeta.
  destruct (Qle_bool _ 0); simpl; repeat split; reflexivity.
Qed.

Lemma isColliding_overlap (p : Pipe) (b : Bird) :
  isColliding p b = true -> bx b < x p + width p.
Proof.
  unfold isColliding.
  destruct (Qltb (x p) (bx b + bwidth b)); [|discriminate].
  destruct (Qltb (bx b) (x p + width p)) eqn:E; [|discriminate].
  intros _. now apply Qltb_lt.
Qed.

(** ** What a frame and a run can change *)

(** The fields a visit leaves alone. *)
Lemma visitPipe_frame (dt : Q) (p : Pipe) (g : Game) :
  let g' := snd (visitPipe dt p g) in
  config g' = config g /\ pipeTimer g' = pipeTimer g
  /\ topic g' = topic g /\ canvasWidth g' = canvasWidth g
  /\ canvasHeight g' = canvasHeight g
  /\ pendingFrames g' = pendingFrames g /\ lastTime g' = lastTime g.
Proof.
  destruct (visitPipe_cases dt p g) as [g1 [[E1|E1] [E|E]]];
    cbv zeta; rewrite E, E1;
    unfold saveHighScore; try destruct (_ <? _)%Z; simpl;
    repeat split; reflexivity.
Qed.

Lemma forEachPipe_frame (dt : Q) (ps : list Pipe) (g : Game) :
  let g' := snd (forEachPipe dt ps g) in
  config g' = config g /\ pipeTimer g' = pipeTimer g
  /\ topic g' = topic g /\ canvasWidth g' = canvasWidth g
  /\ canvasHeight g' = canvasHeight g
  /\ pendingFrames g' = pendingFrames g /\ lastTime g' = lastTime g.
Proof.
  cbv zeta.
  apply (forEachPipe_preserves
           (fun g' => config g' = config g /\ pipeTimer g' = pipeTimer g
                      /\ topic g' = topic g
                      /\ canvasWidth g' = canvasWidth g
                      /\ canvasHeight g' = canvasHeight g
                      /\ pendingFrames g' = pendingFrames g
                      /\ lastTime g' = lastTime g));
    [|repeat split; reflexivity].
  intros p g0 [H1 [H2 [H3 [H4 [H5 [H6 H7]]]]]].
  destruct (visitPipe_frame dt p g0) as [E1 [E2 [E3 [E4 [E5 [E6 E7]]]]]].
  repeat split; congruence.
Qed.

(** A property of the high score, the store and the topic that every save
    keeps is kept by every visit, frame, input and run. *)
Section StoreInvariant.

Variable Keeps : Z -> gmap string Z -> string -> Prop.

Hypothesis Keeps_save :
  forall hs st tp s,
    Keeps hs st tp -> (hs < s)%Z ->
    Keeps s (<["dodgeDanger_highScore_" +:+ tp := s]> st) tp.

Let P (g : Game) : Prop := Keeps (highScore g) (localStorage g) (topic g).

Lemma store_saveHighScore (g : Game) : P g -> P (saveHighScore g).
Proof.
  unfold P, saveHighScore. intros H.
  destruct (highScore g <? score g)%Z eqn:E; [|exact H].
  apply Z.ltb_lt in E. cbn [highScore localStorage topic].
  now apply (Keeps_save (highScore g)).
Qed.

Lemma store_visitPipe (dt : Q) (p : Pipe) (g : Game) :
  P g -> P (snd (visitPipe dt p g)).
Proof.
  intros H. destruct (visitPipe_cases dt p g) as [g1 [[E1|E1] [E|E]]];
    rewrite E, E1; try apply store_saveHighScore; exact H.
Qed.

Lemma store_update (rnd : RandomSource) (k : nat) (dt : Q) (g : Game) :
  P g -> P (fst (update rnd k dt g)).
Proof.
  intros H. destruct (gameOver g) eqn:Hrun.
  - unfold update. now rewrite Hrun.
  - rewrite (update_running rnd k dt g Hrun).
    destruct (out_of_bounds _ _); cbv zeta; cbn [fst].
    + apply store_saveHighScore. exact H.
    + destruct (before_pipes_frame rnd k dt g)
        as [_ [_ [_ [Hh [Hs [Ht _]]]]]].
      assert (H3 : P (before_pipes rnd k dt g)).
      { unfold P. now rewrite Hh, Hs, Ht. }
      apply (forEachPipe_preserves P dt (store_visitPipe dt)
               (pipes (before_pipes rnd k dt g))) in H3.
      exact H3.
Qed.

Lemma store_step (rnd : RandomSource) (e : Event) (g : Game) (k : nat) :
  P g -> P (fst (step rnd e (g, k))).
Proof.
  intros H. destruct e as [t|now|w h]; cbn [step].
  - destruct (0 <? pendingFrames g)%nat; [|exact H].
    unfold loop.
    match goal with
    | |- context [update rnd k ?dt ?g1] =>
        pose proof (store_update rnd k dt g1 H) as Hu;
        destruct (update rnd k dt g1) as [g2 k2]
    end.
    cbn [fst] in Hu. destruct (negb (gameOver g2)); exact Hu.
  - cbn [fst]. unfold jumpHandler.
    destruct (negb (gameOver g)); exact H.
  - cbn [fst]. unfold onResize.
    destruct (negb (gameOver (set_canvas w h g))); exact H.
Qed.

Lemma store_run (rnd : RandomSource) (es : list Event) :
  forall g k, P g -> P (fst (run rnd es (g, k))).
Proof.
  induction es as [|e es IH]; intros g k H; [exact H|].
  unfold run. cbn [fold_left]. fold (run rnd es).
  pose proof (store_step rnd e g k H) as Hs.
  destruct (step rnd e (g, k)) as [g1 k1]. now apply IH.
Qed.

End StoreInvariant.

(** A property of the configuration that the difficulty ramp keeps is kept
    by every frame, input and run. *)
Section ConfigInvariant.

Variable Keeps : Config -> Prop.
Hypothesis Keeps_ramp : forall c, Keeps c -> Keeps (ramped c).

Lemma config_update (rnd : RandomSource) (k : nat) (dt : Q) (g : Game) :
  Keeps (config g) -> Keeps (config (fst (update rnd k dt g))).
Proof.
  intros H. destruct (gameOver g) eqn:Hrun.
  - unfold update. now rewrite Hrun.
  - rewrite (update_running rnd k dt g Hrun).
    destruct (out_of_bounds _ _); cbv zeta; cbn [fst].
    + destruct (saveHighScore_frame
                  (set_gameOver true (set_bird (fallen dt (bird g)) g)))
        as [_ [_ [_ [Hc _]]]].
      rewrite Hc. exact H.
    + cbn [config set_pipes].
      destruct (forEachPipe_frame dt (pipes (before_pipes rnd k dt g))
                  (before_pipes rnd k dt g)) as [Hc _].
      rewrite Hc. unfold before_pipes. cbv zeta.
      destruct (Qle_bool _ 0); [|exact H].
      now apply Keeps_ramp.
Qed.

Lemma config_run (rnd : RandomSource) (es : list Event) :
  forall g k, Keeps (config g) -> Keeps (config (fst (run rnd es (g, k)))).
Proof.
  induction es as [|e es IH]; intros g k H; [exact H|].
  unfold run. cbn [fold_left]. fold (run rnd es).
  assert (Hs : Keeps (config (fst (step rnd e (g, k))))).
  { destruct e as [t|now|w h]; cbn [step].
    - destruct (0 <? pendingFrames g)%nat; [|exact H].
      unfold loop.
      match goal with
      | |- context [update rnd k ?dt ?g1] =>
          pose proof (config_update rnd k dt g1 H) as Hu;
          destruct (update rnd k dt g1) as [g2 k2]
      end.
      cbn [fst] in Hu. destruct (negb (gameOver g2)); exact Hu.
    - cbn [fst]. unfold jumpHandler.
      destruct (negb (gameOver g)); exact H.
    - cbn [fst]. unfold onResize.
      destruct (negb (gameOver (set_canvas w h g))); exact H. }
  destruct (step rnd e (g, k)) as [g1 k1]. now apply IH.
Qed.

End ConfigInvariant.

End DodgeFrames.

(** * The scoring of pipes *)
Module ScoringClaims.
Import Dodge DodgeSpec DodgeParts DodgeFrames.

Local Open Scope Q_scope.

(** What a visit makes of a pipe depends on the game through [bird.x]
    only. *)
Lemma visitPipe_pipe_bx (dt : Q) (p : Pipe) (g1 g2 : Game) :
  bx (bird g1) = bx (bird g2) ->
  fst (visitPipe dt p g1) = fst (visitPipe dt p g2).
Proof. intros H. unfold visitPipe. cbn [fst]. now rewrite H. Qed.

(** The [forEach] adds one point for every pipe whose visit sets
    [scored]. *)
Lemma forEachPipe_score (dt : Q) (ps : list Pipe) :
  forall g,
    score (snd (forEachPipe dt ps g))
    = (score g
       + Z.of_nat
           (length
              (filter (fun p => negb (scored p)
                                && scored (fst (visitPipe dt p g)))
                 ps)))%Z.
Proof.
  induction ps as [|p ps IH]; intros g; cbn [forEachPipe].
  - cbn [snd]. rewrite filter_nil. simpl. lia.
  - pose proof (visitPipe_game dt p g) as [Hb [_ Hs]].
    destruct (visitPipe dt p g) as [p' g1] eqn:Ev. cbn [fst snd] in *.
    specialize (IH g1).
    destruct (forEachPipe dt ps g1) as [rest g2]. cbn [snd] in *.
    rewrite IH, Hs, filter_cons, Ev. cbn [fst].
    assert (Hsame : filter (fun q => negb (scored q)
                                     && scored (fst (visitPipe dt q g1)))
                      ps
                    = filter (fun q => negb (scored q)
                                       && scored (fst (visitPipe dt q g)))
                        ps).
    { apply list_filter_iff. intros q.
      rewrite (visitPipe_pipe_bx dt q g1 g) by now rewrite Hb.
      reflexivity. }
    rewrite Hsame.
    destruct (negb (scored p) && scored p') eqn:En.
    + rewrite decide_True by exact I. simpl length. lia.
    + rewrite decide_False by (simpl; tauto). lia.
Qed.

(** C7.  A frame of a running game that keeps the bird on the canvas
    visits the pipes of the game, and after them the pipe it spawns, which
    is unscored; it visits each once and keeps those still on the screen.
    A visit moves the pipe and never clears [scored]; it sets [scored] on
    an unscored pipe exactly when the moved pipe's trailing edge
    [x + width] is left of [bird.x]; and the frame adds to the score
    exactly 1 for each pipe whose [scored] it sets.  So along the visits
    of a pipe, frame after frame, [scored] goes from false to true at most
    once. *)
Theorem pipe_is_scored_once (rnd : RandomSource) (k : nat) (dt : Q)
    (g : Game) :
  gameOver g = false ->
  out_of_bounds (canvasHeight g) (fallen dt (bird g)) = false ->
  let g' := fst (update rnd k dt g) in
  let visit := fun p => fst (visitPipe dt p g) in
  (exists visited,
     (visited = pipes g
      \/ exists new, visited = pipes g ++ [new] /\ scored new = false)
     /\ pipes g'
        = filter (fun p => Qltb (- width p) (x p)) (map visit visited)
     /\ score g'
        = (score g
           + Z.of_nat
               (length
                  (filter (fun p => negb (scored p) && scored (visit p))
                     visited)))%Z)
  /\ (forall p,
        x (visit p) = x p - speed p * dt /\ width (visit p) = width p
        /\ (scored p = true -> scored (visit p) = true)
        /\ (scored p = false ->
            (scored (visit p) = true
             <-> x (visit p) + width (visit p) < bx (bird g))))
  /\ (forall visits p, (transitions p (lifetime visits p) <= 1)%nat).
Proof.
  intros Hrun Hin g' visit. split; [|split].
  - exists (pipes (before_pipes rnd k dt g)).
    destruct (before_pipes_frame rnd k dt g) as [Hb [_ [Hs _]]].
    assert (Hbx : bx (bird (before_pipes rnd k dt g)) = bx (bird g))
      by now rewrite Hb.
    split; [|split].
    + unfold before_pipes. cbv zeta. destruct (Qle_bool _ 0).
      * right. eexists. split; reflexivity.
      * now left.
    + unfold g'. rewrite (update_running rnd k dt g Hrun), Hin.
      cbv zeta. cbn [fst pipes set_pipes].
      rewrite forEachPipe_pipes. f_equal. apply map_ext. intros p.
      now apply visitPipe_pipe_bx.
    + unfold g'. rewrite (update_running rnd k dt g Hrun), Hin.
      cbv zeta. cbn [fst score set_pipes].
      rewrite forEachPipe_score, Hs. do 3 f_equal.
      apply list_filter_iff. intros p. unfold visit.
      now rewrite (visitPipe_pipe_bx dt p _ g Hbx).
  - intros p. unfold visit.
    destruct (visitPipe_pipe dt p g) as [Hx [Hw [_ [_ [_ Hsc]]]]].
    split; [exact Hx|]. split; [exact Hw|]. split.
    + intros Hp. now rewrite Hsc, Hp.
    + intros Hp. rewrite Hsc, Hx, Hw, Hp. cbn [orb]. apply Qltb_lt.
  - intros visits p. apply transitions_at_most_one.
Qed.

(** The last frame of the overtaking run: of the two pipes it visits, the
    newer one has just passed the bird. *)
Lemma pipe_is_scored_once_witness :
  let g := fst (run overtaking_draws overtaking_events
                  (loaded_page online 850 600, 0%nat)) in
  let g' := fst (update overtaking_draws 4 0.1 g) in
  let visit := fun p => fst (visitPipe 0.1 p g) in
  (exists visited,
     (visited = pipes g
      \/ exists new, visited = pipes g ++ [new] /\ scored new = false)
     /\ pipes g'
        = filter (fun p => Qltb (- width p) (x p)) (map visit visited)
     /\ score g'
        = (score g
           + Z.of_nat
               (length
                  (filter (fun p => negb (scored p) && scored (visit p))
                     visited)))%Z)
  /\ (forall p,
        x (visit p) = x p - speed p * 0.1 /\ width (visit p) = width p
        /\ (scored p = true -> scored (visit p) = true)
        /\ (scored p = false ->
            (scored (visit p) = true
             <-> x (visit p) + width (visit p) < bx (bird g))))
  /\ (forall visits p, (transitions p (lifetime visits p) <= 1)%nat).
Proof.
  apply (pipe_is_scored_once overtaking_draws 4 0.1
           (fst (run overtaking_draws overtaking_events
                   (loaded_page online 850 600, 0%nat)))).
  - vm_compute. reflexivity.
  - vm_compute. reflexivity.
Defined.

(** In that frame the score goes from 0 to 1, for the one pipe whose
    [scored] is set. *)
Example overtaking_pipe_scored :
  let g := fst (run overtaking_draws overtaking_events
                  (loaded_page online 850 600, 0%nat)) in
  let g' := fst (update overtaking_draws 4 0.1 g) in
  map scored (pipes g) = [false; false]
  /\ map scored (pipes g') = [false; true]
  /\ score g = 0%Z /\ score g' = 1%Z.
Proof. vm_compute. repeat split; reflexivity. Qed.

End ScoringClaims.

(** * The collector: further properties *)
Module CollectExtras.
Import Collect CollectSpec CollectPage CollectInvariant.

Local Open Scope Z_scope.

Lemma valid_tail_chase_draws : valid_random tail_chase_draws.
Proof.
  intros n. unfold tail_chase_draws.
  do 6 (destruct n as [|n]; [simpl; split; lra|]).
  simpl. destruct n; split; lra.
Qed.

Lemma tail_chase_opened :
  openPage (gameConfig GameConfig.default_assets) "default"
    (all_loads true Settle012)
    ∅ 1 tail_chase_draws 0
  = Some (mkPage first_item 0 0, 2%nat).
Proof. vm_compute. reflexivity. Qed.

Lemma tail_chase_played :
  play 1 tail_chase_draws tail_chase_inputs (mkPage first_item 0 0, 2%nat)
  = Some (mkPage tail_chase 0 0, 8%nat).
Proof. vm_compute. reflexivity. Qed.

(** X1.  In every state the collector reaches from [init], through timer
    ticks, buttons, keys, swipes and restarts, the character has exactly
    [score + 1] segments. *)
Theorem length_is_score_plus_one (cfg : Config) (tp : string)
    (net : Network) (store : gmap string Z) (fuel0 fuel : nat)
    (rnd : RandomSource) (inputs : list Input) (s0 : Page * nat)
    (p : Page) (k : nat) :
  valid_random rnd -> 0 < gridWidth cfg -> 0 < gridHeight cfg ->
  openPage cfg tp net store fuel0 rnd 0 = Some s0 ->
  play fuel rnd inputs s0 = Some (p, k) ->
  Z.of_nat (length (segments (character (game p)))) = score (game p) + 1.
Proof.
  intros Hv Hw Hh Ho Hp.
  apply (wf_length _ (wf_reached _ _ _ _ _ _ _ _ _ _ _ Hv Hw Hh Ho Hp)).
Qed.

Lemma length_is_score_plus_one_witness :
  Z.of_nat (length (segments (character tail_chase))) = score tail_chase + 1.
Proof.
  exact (length_is_score_plus_one (gameConfig GameConfig.default_assets)
           _ _ _ _ _ _ _ _ _ _
           valid_tail_chase_draws eq_refl eq_refl
           tail_chase_opened tail_chase_played).
Defined.

(** X2.  In every state the collector reaches, no two segments share a
    cell, every segment is on the grid, and consecutive segments are one
    grid step apart. *)
Theorem body_is_a_simple_path (cfg : Config) (tp : string)
    (net : Network) (store : gmap string Z) (fuel0 fuel : nat)
    (rnd : RandomSource) (inputs : list Input) (s0 : Page * nat)
    (p : Page) (k : nat) :
  valid_random rnd -> 0 < gridWidth cfg -> 0 < gridHeight cfg ->
  openPage cfg tp net store fuel0 rnd 0 = Some s0 ->
  play fuel rnd inputs s0 = Some (p, k) ->
  let g := game p in
  NoDup (segments (character g))
  /\ Forall (in_grid (gridSizeW g) (gridSizeH g)) (segments (character g))
  /\ chained (segments (character g)).
Proof.
  intros Hv Hw Hh Ho Hp g.
  pose proof (wf_reached _ _ _ _ _ _ _ _ _ _ _ Hv Hw Hh Ho Hp) as Hwf.
  split; [apply Hwf|]. split; apply Hwf.
Qed.

Lemma body_is_a_simple_path_witness :
  NoDup (segments (character tail_chase))
  /\ Forall (in_grid 20 20) (segments (character tail_chase))
  /\ chained (segments (character tail_chase)).
Proof.
  exact (body_is_a_simple_path (gameConfig GameConfig.default_assets)
           _ _ _ _ _ _ _ _ _ _
           valid_tail_chase_draws eq_refl eq_refl
           tail_chase_opened tail_chase_played).
Defined.

(** X3.  In every state the collector reaches, the item is on the grid and
    on no segment of the character. *)
Theorem item_is_free_and_on_grid (cfg : Config) (tp : string)
    (net : Network) (store : gmap string Z) (fuel0 fuel : nat)
    (rnd : RandomSource) (inputs : list Input) (s0 : Page * nat)
    (p : Page) (k : nat) :
  valid_random rnd -> 0 < gridWidth cfg -> 0 < gridHeight cfg ->
  openPage cfg tp net store fuel0 rnd 0 = Some s0 ->
  play fuel rnd inputs s0 = Some (p, k) ->
  let g := game p in
  in_grid (gridSizeW g) (gridSizeH g) (item g)
  /\ ~ In (item g) (segments (character g)).
Proof.
  intros Hv Hw Hh Ho Hp g.
  pose proof (wf_reached _ _ _ _ _ _ _ _ _ _ _ Hv Hw Hh Ho Hp) as Hwf.
  split; apply Hwf.
Qed.

Lemma item_is_free_and_on_grid_witness :
  in_grid 20 20 (item tail_chase)
  /\ ~ In (item tail_chase) (segments (character tail_chase)).
Proof.
  exact (item_is_free_and_on_grid (gameConfig GameConfig.default_assets)
           _ _ _ _ _ _ _ _ _ _
           valid_tail_chase_draws eq_refl eq_refl
           tail_chase_opened tail_chase_played).
Defined.

(** X4.  In every running state the collector reaches with a character
    longer than one segment, the pending direction is not the opposite of
    the direction of travel, and the next move does not put the head on the
    segment right behind it: whatever the player presses, the character
    never turns back into its own neck. *)
Theorem never_turns_into_its_neck (cfg : Config) (tp : string)
    (net : Network) (store : gmap string Z) (fuel0 fuel : nat)
    (rnd : RandomSource) (inputs : list Input) (s0 : Page * nat)
    (p : Page) (k : nat) (h n : Cell) (rest : list Cell) :
  valid_random rnd -> 0 < gridWidth cfg -> 0 < gridHeight cfg ->
  openPage cfg tp net store fuel0 rnd 0 = Some s0 ->
  play fuel rnd inputs s0 = Some (p, k) ->
  gameOver (game p) = false ->
  segments (character (game p)) = h :: n :: rest ->
  let c := character (game p) in
  ~ opposite (nextDirection c) (direction c)
  /\ new_head h (nextDirection c) <> n.
Proof.
  intros Hv Hw Hh Ho Hp Hrun Hseg c.
  pose proof (wf_reached _ _ _ _ _ _ _ _ _ _ _ Hv Hw Hh Ho Hp) as Hwf.
  destruct (wf_running _ Hwf Hrun) as [Hhead Hguard].
  fold c in Hhead, Hguard. unfold c in Hhead at 1, Hguard at 1.
  rewrite Hseg in Hhead, Hguard. simpl in Hhead.
  assert (Hno : ~ opposite (nextDirection c) (direction c)).
  { apply Hguard. simpl. lia. }
  split; [exact Hno|].
  intros Heq. apply Hno. subst h. unfold new_head in Heq.
  destruct n as [a b]. simpl in Heq. injection Heq as E1 E2.
  unfold opposite. lia.
Qed.

Lemma never_turns_into_its_neck_witness :
  ~ opposite (nextDirection (character tail_chase))
      (direction (character tail_chase))
  /\ new_head (mkCell 12 11) (nextDirection (character tail_chase))
     <> mkCell 13 11.
Proof.
  exact (never_turns_into_its_neck (gameConfig GameConfig.default_assets)
           _ _ _ _ _ _ _ _ _ _
           (mkCell 12 11) (mkCell 13 11) [mkCell 13 10; mkCell 12 10]
           valid_tail_chase_draws eq_refl eq_refl
           tail_chase_opened tail_chase_played eq_refl eq_refl).
Defined.

(** X5.  In every state the collector reaches, the interval timer is armed
    exactly when the game is not over. *)
Theorem timer_armed_iff_running (cfg : Config) (tp : string)
    (net : Network) (store : gmap string Z) (fuel0 fuel : nat)
    (rnd : RandomSource) (inputs : list Input) (s0 : Page * nat)
    (p : Page) (k : nat) :
  valid_random rnd -> 0 < gridWidth cfg -> 0 < gridHeight cfg ->
  openPage cfg tp net store fuel0 rnd 0 = Some s0 ->
  play fuel rnd inputs s0 = Some (p, k) ->
  gameLoopInterval (game p) = negb (gameOver (game p)).
Proof.
  intros Hv Hw Hh Ho Hp.
  apply (wf_timer _ (wf_reached _ _ _ _ _ _ _ _ _ _ _ Hv Hw Hh Ho Hp)).
Qed.

Lemma timer_armed_iff_running_witness :
  gameLoopInterval tail_chase = negb (gameOver tail_chase).
Proof.
  exact (timer_armed_iff_running (gameConfig GameConfig.default_assets)
           _ _ _ _ _ _ _ _ _ _
           valid_tail_chase_draws eq_refl eq_refl
           tail_chase_opened tail_chase_played).
Defined.

End CollectExtras.

(** * The dodge game: further properties *)
Module DodgeExtras.
Import Dodge DodgeSpec DodgeParts DodgeFrames.

Local Open Scope Q_scope.

(** X6.  A frame of a running dodge game, with the bird not left of the
    screen edge, ends the run exactly when, at the positions the frame
    leaves, the bird is above the top or below the bottom of the screen or
    collides with one of the pipes that remain. *)
Theorem frame_ends_run_iff (rnd : RandomSource) (k : nat) (dt : Q)
    (g : Game) :
  gameOver g = false -> 0 <= bx (bird g) ->
  let g' := fst (update rnd k dt g) in
  gameOver g' = true
  <-> (by_ (bird g') < 0
       \/ canvasHeight g' < by_ (bird g') + bheight (bird g'))
      \/ exists p, In p (pipes g') /\ isColliding p (bird g') = true.
Proof.
  intros Hrun Hbx. rewrite (update_running rnd k dt g Hrun).
  unfold out_of_bounds.
  destruct (Qltb (by_ (fallen dt (bird g))) 0
            || Qltb (canvasHeight g)
                 (by_ (fallen dt (bird g)) + bheight (fallen dt (bird g))))
    eqn:Hout; cbv zeta; cbn [fst].
  - destruct (saveHighScore_frame
                (set_gameOver true (set_bird (fallen dt (bird g)) g)))
      as [_ [Hb [Ho _]]].
    rewrite Ho, Hb. cbn [gameOver set_gameOver bird set_bird].
    split; [intros _|reflexivity]. left.
    unfold saveHighScore. destruct (_ <? _)%Z; cbn [canvasHeight];
      apply orb_true_iff in Hout; destruct Hout as [H|H];
      apply Qltb_lt in H; tauto.
  - destruct (before_pipes_frame rnd k dt g)
      as [Hb [Ho [_ [_ [_ [_ [Hh _]]]]]]].
    set (g3 := before_pipes rnd k dt g) in *.
    pose proof (forEachPipe_gameOver dt (pipes g3) g3) as Hgo.
    pose proof (forEachPipe_bird dt (pipes g3) g3) as Hbird.
    pose proof (forEachPipe_pipes dt (pipes g3) g3) as Hps.
    assert (Hheight : canvasHeight (snd (forEachPipe dt (pipes g3) g3))
                      = canvasHeight g3).
    { apply (forEachPipe_preserves
               (fun g' => canvasHeight g' = canvasHeight g3));
        [|reflexivity].
      intros p g0 H0. destruct (visitPipe_cases dt p g0)
        as [g1 [[E1|E1] [E|E]]]; rewrite E, E1;
        unfold saveHighScore; try destruct (_ <? _)%Z; exact H0. }
    cbn [gameOver set_pipes bird pipes canvasHeight].
    rewrite Hgo, Hbird, Hheight, Ho, Hrun, Hb, Hh, Hps. cbn [orb].
    apply orb_false_iff in Hout. destruct Hout as [O1 O2].
    apply Qltb_ge in O1. apply Qltb_ge in O2.
    rewrite existsb_exists. split.
    + intros [p [Hin Hc]]. right.
      exists (fst (visitPipe dt p g3)). split.
      * apply list_elem_of_In. apply list_elem_of_filter. split.
        -- apply Is_true_true. apply Qltb_lt.
           rewrite <- (isColliding_visited dt p g3) in Hc.
           apply isColliding_overlap in Hc.
           replace (bx (fallen dt (bird g))) with (bx (bird g)) in Hc
             by reflexivity.
           lra.
        -- apply list_elem_of_In. apply in_map_iff. now exists p.
      * now rewrite isColliding_visited.
    + intros [[H|H]|[p' [Hin Hc]]].
      * exfalso. lra.
      * exfalso. lra.
      * apply list_elem_of_In in Hin. apply list_elem_of_filter in Hin.
        destruct Hin as [_ Hin]. apply list_elem_of_In in Hin.
        apply in_map_iff in Hin. destruct Hin as [p [Ep Hin]].
        exists p. split; [exact Hin|]. subst p'.
        now rewrite isColliding_visited in Hc.
Qed.

Lemma frame_ends_run_iff_witness :
  let g := fst (run overtaking_draws overtaking_events
                  (loaded_page online 850 600, 0%nat)) in
  let g' := fst (update overtaking_draws 4 0.1 g) in
  gameOver g' = true
  <-> (by_ (bird g') < 0
       \/ canvasHeight g' < by_ (bird g') + bheight (bird g'))
      \/ exists p, In p (pipes g') /\ isColliding p (bird g') = true.
Proof.
  apply (frame_ends_run_iff overtaking_draws 4 0.1
           (fst (run overtaking_draws overtaking_events
                   (loaded_page online 850 600, 0%nat)))).
  - vm_compute. reflexivity.
  - vm_compute. discriminate.
Defined.

(** X7.  In the dodge game no frame lowers the score; a running frame that
    keeps the bird on the screen adds one point for each unscored pipe it
    takes past the bird; and over any run of frames, taps and resizes,
    restarts included, the score is never negative. *)
Theorem score_counts_passed_pipes :
  (forall rnd k dt g, (score g <= score (fst (update rnd k dt g)))%Z)
  /\ (forall rnd k dt g,
        gameOver g = false ->
        out_of_bounds (canvasHeight g) (fallen dt (bird g)) = false ->
        score (fst (update rnd k dt g))
        = (score g
           + Z.of_nat
               (length
                  (filter (fun p => newly_passed dt (bx (bird g)) p)
                     (pipes (before_pipes rnd k dt g)))))%Z)
  /\ (forall rnd es g k,
        (0 <= score g)%Z -> (0 <= score (fst (run rnd es (g, k))))%Z).
Proof.
  assert (Hcount : forall dt ps g,
             score (snd (forEachPipe dt ps g))
             = (score g
                + Z.of_nat
                    (length
                       (filter (fun p => newly_passed dt (bx (bird g)) p)
                          ps)))%Z).
  { intros dt. induction ps as [|p ps IH]; intros g; cbn [forEachPipe].
    - simpl. lia.
    - pose proof (visitPipe_game dt p g) as [Hb [_ Hs]].
      pose proof (visitPipe_pipe dt p g) as [_ [_ [_ [_ [_ Hsc]]]]].
      destruct (visitPipe dt p g) as [p' g1]. cbn [fst snd] in *.
      specialize (IH g1).
      destruct (forEachPipe dt ps g1) as [rest g2]. cbn [snd] in *.
      rewrite IH, Hs, Hb, Hsc.
      assert (E : negb (scored p)
                  && (scored p
                      || Qltb (x p - speed p * dt + width p) (bx (bird g)))
                  = newly_passed dt (bx (bird g)) p).
      { unfold newly_passed. now destruct (scored p). }
      rewrite E. rewrite filter_cons.
      destruct (newly_passed dt (bx (bird g)) p) eqn:En.
      + rewrite decide_True by exact I. simpl length. lia.
      + rewrite decide_False by (simpl; tauto). lia. }
  assert (Hmono : forall rnd k dt g,
             (score g <= score (fst (update rnd k dt g)))%Z).
  { intros rnd k dt g. destruct (gameOver g) eqn:Hrun.
    - unfold update. rewrite Hrun. simpl. lia.
    - rewrite (update_running rnd k dt g Hrun).
      destruct (out_of_bounds _ _); cbv zeta; cbn [fst].
      + destruct (saveHighScore_frame
                    (set_gameOver true (set_bird (fallen dt (bird g)) g)))
          as [Hs _].
        rewrite Hs. simpl. lia.
      + cbn [score set_pipes]. rewrite Hcount.
        destruct (before_pipes_frame rnd k dt g) as [_ [_ [Hs _]]].
        rewrite Hs. lia. }
  split; [exact Hmono|]. split.
  - intros rnd k dt g Hrun Hin.
    rewrite (update_running rnd k dt g Hrun), Hin. cbv zeta. cbn [fst].
    cbn [score set_pipes]. rewrite Hcount.
    destruct (before_pipes_frame rnd k dt g) as [Hb [_ [Hs _]]].
    rewrite Hs, Hb. reflexivity.
  - intros rnd es. induction es as [|e es IH]; intros g k H; [exact H|].
    unfold run. cbn [fold_left]. fold (run rnd es).
    assert (Hs : (0 <= score (fst (step rnd e (g, k))))%Z).
    { destruct e as [t|now|w h]; cbn [step].
      - destruct (0 <? pendingFrames g)%nat; [|exact H].
        unfold loop.
        match goal with
        | |- context [update rnd k ?dt ?g1] =>
            pose proof (Hmono rnd k dt g1) as Hu;
            destruct (update rnd k dt g1) as [g2 k2]
        end.
        cbn [fst] in Hu. simpl in Hu.
        destruct (negb (gameOver g2)); simpl; lia.
      - cbn [fst]. unfold jumpHandler.
        destruct (negb (gameOver g)); simpl; lia.
      - cbn [fst]. unfold onResize.
        destruct (negb (gameOver (set_canvas w h g))); exact H. }
    destruct (step rnd e (g, k)) as [g1 k1]. now apply IH.
Qed.

(** X8.  A running dodge frame that keeps the bird on the screen leaves
    only pipes whose right edge is still right of the screen's left edge
    ([x > -width]).  When the countdown runs out in the frame it spawns one
    pipe, draws twice, ramps the configuration and sets the countdown
    between 0.8 and 1.2 spawn intervals; otherwise it spawns nothing, draws
    nothing and only counts down. *)
Theorem spawn_cadence (rnd : RandomSource) (k : nat) (dt : Q) (g : Game) :
  gameOver g = false ->
  out_of_bounds (canvasHeight g) (fallen dt (bird g)) = false ->
  valid_random rnd -> 0 <= spawnInterval (config g) ->
  let g' := fst (update rnd k dt g) in
  let k' := snd (update rnd k dt g) in
  Forall (fun p => - width p < x p) (pipes g')
  /\ (pipeTimer g - dt <= 0 ->
      k' = S (S k) /\ (length (pipes g') <= S (length (pipes g)))%nat
      /\ config g' = ramped (config g)
      /\ spawnInterval (config g) * 0.8 <= pipeTimer g'
      /\ pipeTimer g' <= spawnInterval (config g) * 1.2)
  /\ (0 < pipeTimer g - dt ->
      k' = k /\ (length (pipes g') <= length (pipes g))%nat
      /\ config g' = config g /\ pipeTimer g' = pipeTimer g - dt).
Proof.
  intros Hrun Hin Hv Hint.
  rewrite (update_running rnd k dt g Hrun), Hin. cbv zeta. cbn [fst snd].
  set (g3 := before_pipes rnd k dt g).
  destruct (forEachPipe_frame dt (pipes g3) g3) as [Hc [Ht _]].
  pose proof (forEachPipe_pipes dt (pipes g3) g3) as Hps.
  cbn [pipes set_pipes config pipeTimer]. rewrite Hc, Ht, Hps.
  split; [|split].
  - apply Forall_forall. intros p Hp.
    apply list_elem_of_filter in Hp.
    destruct Hp as [Hp _]. apply Is_true_true in Hp. now apply Qltb_lt.
  - intros Hexp. apply Qle_bool_iff in Hexp.
    unfold g3, before_pipes. cbv zeta.
    cbn [pipeTimer set_pipeTimer set_bird]. rewrite Hexp.
    split; [reflexivity|]. split; [|split; [reflexivity|]].
    + etransitivity; [apply length_filter|].
      rewrite length_map. unfold spawnPipe. cbn [pipes set_config
        set_pipeTimer set_pipes set_bird].
      rewrite length_app. simpl. lia.
    + unfold spawnPipe. cbn [pipeTimer set_config set_pipeTimer config
        set_pipes set_bird].
      destruct (Hv (S k)) as [R0 R1].
      set (i := spawnInterval (config g)) in *.
      set (r := rnd (S k)) in *.
      assert (Hir : 0 <= r * i) by (apply Qmult_le_0_compat; assumption).
      assert (Hir' : r * i <= i).
      { rewrite <- (Qmult_1_l i) at 2.
        apply Qmult_le_compat_r; [now apply Qlt_le_weak | exact Hint]. }
      split; lra.
  - intros Hpos.
    assert (Hexp : Qle_bool (pipeTimer g - dt) 0 = false).
    { destruct (Qle_bool (pipeTimer g - dt) 0) eqn:E; [|reflexivity].
      apply Qle_bool_iff in E. exfalso. lra. }
    unfold g3, before_pipes. cbv zeta.
    cbn [pipeTimer set_pipeTimer set_bird]. rewrite Hexp.
    split; [reflexivity|]. split; [|split; reflexivity].
    etransitivity; [apply length_filter|]. now rewrite length_map.
Qed.

Lemma spawn_cadence_witness :
  let g := loaded_page online 850 600 in
  let g' := fst (update constant_half 0 0.016 g) in
  let k' := snd (update constant_half 0 0.016 g) in
  Forall (fun p => - width p < x p) (pipes g')
  /\ (pipeTimer g - 0.016 <= 0 ->
      k' = 2%nat /\ (length (pipes g') <= S (length (pipes g)))%nat
      /\ config g' = ramped (config g)
      /\ spawnInterval (config g) * 0.8 <= pipeTimer g'
      /\ pipeTimer g' <= spawnInterval (config g) * 1.2)
  /\ (0 < pipeTimer g - 0.016 ->
      k' = 0%nat /\ (length (pipes g') <= length (pipes g))%nat
      /\ config g' = config g /\ pipeTimer g' = pipeTimer g - 0.016).
Proof.
  apply (spawn_cadence constant_half 0 0.016 (loaded_page online 850 600)).
  - reflexivity.
  - vm_compute. reflexivity.
  - intros n. unfold constant_half. split; lra.
  - vm_compute. discriminate.
Defined.

(** X9.  A frame of a running dodge game integrates the bird over
    [min((timestamp - lastTime) / 1000, 0.1)] seconds: however long the
    page was paused the step is at most 0.1 s, so the velocity grows by at
    most 150; for a gap of at most 100 ms the step is the gap itself; and
    the frame records its timestamp as the new [lastTime]. *)
Theorem frame_step_is_capped (rnd : RandomSource) (k : nat) (timestamp : Q)
    (g : Game) :
  gameOver g = false ->
  let dt := Qmin ((timestamp - lastTime g) / 1000) 0.1 in
  let g' := fst (loop rnd k timestamp g) in
  bird g' = fallen dt (bird g)
  /\ dt <= 0.1
  /\ velocity (bird g') <= velocity (bird g) + 150
  /\ (timestamp - lastTime g <= 100 -> dt == (timestamp - lastTime g) / 1000)
  /\ lastTime g' = timestamp.
Proof.
  intros Hrun dt g'.
  assert (Hdt : dt <= 0.1) by apply Q.le_min_r.
  assert (Hb : bird g' = fallen dt (bird g) /\ lastTime g' = timestamp).
  { unfold g', loop. fold dt.
    set (g1 := set_clock timestamp (Nat.pred (pendingFrames g)) g).
    assert (Hrun1 : gameOver g1 = false) by exact Hrun.
    rewrite (update_running rnd k dt g1 Hrun1).
    destruct (out_of_bounds _ _); cbv zeta.
    - pose proof (saveHighScore_frame
                    (set_gameOver true (set_bird (fallen dt (bird g1)) g1)))
        as [_ [Hb [_ [_ [_ [_ [_ [_ Hl]]]]]]]].
      match goal with
      | |- context [negb (gameOver ?x)] => destruct (negb (gameOver x))
      end; cbn [fst bird lastTime set_clock]; rewrite Hb, Hl;
        split; reflexivity.
    - pose proof (forEachPipe_bird dt (pipes (before_pipes rnd k dt g1))
                    (before_pipes rnd k dt g1)) as Hb.
      destruct (forEachPipe_frame dt (pipes (before_pipes rnd k dt g1))
                  (before_pipes rnd k dt g1))
        as [_ [_ [_ [_ [_ [_ Hl]]]]]].
      destruct (before_pipes_frame rnd k dt g1) as [Hb1 _].
      assert (Hl1 : lastTime (before_pipes rnd k dt g1) = timestamp).
      { unfold before_pipes. cbv zeta. now destruct (Qle_bool _ 0). }
      match goal with
      | |- context [negb (gameOver ?x)] => destruct (negb (gameOver x))
      end; cbn [fst bird lastTime set_clock set_pipes];
        rewrite Hb, Hl, Hb1, Hl1; split; reflexivity. }
  destruct Hb as [Hb Hl]. split; [exact Hb|]. split; [exact Hdt|].
  split; [|split; [|exact Hl]].
  - rewrite Hb. unfold fallen, gravity. cbn [velocity]. lra.
  - intros Hgap. unfold dt. apply Q.min_l.
    apply Qle_shift_div_r; [reflexivity|]. lra.
Qed.

Lemma frame_step_is_capped_witness :
  let g := loaded_page online 850 600 in
  let dt := Qmin ((60000 - lastTime g) / 1000) 0.1 in
  let g' := fst (loop constant_half 0 60000 g) in
  bird g' = fallen dt (bird g)
  /\ dt <= 0.1
  /\ velocity (bird g') <= velocity (bird g) + 150
  /\ (60000 - lastTime g <= 100 -> dt == (60000 - lastTime g) / 1000)
  /\ lastTime g' = 60000.
Proof.
  apply (frame_step_is_capped constant_half 0 60000
           (loaded_page online 850 600)).
  reflexivity.
Defined.

(** X10.  With non-negative ramp rates and a configured gap height of at
    least 80, every run of frames, taps and resizes, restarts included,
    keeps the configured gap height between 80 and its starting value,
    never lowers the configured pipe speed, and leaves the rates, the pipe
    width and the spawn interval as they were. *)
Theorem difficulty_stays_in_bounds (rnd : RandomSource) (es : list Event)
    (g : Game) (k : nat) :
  0 <= speedIncreaseRate (config g) -> 0 <= gapDecreaseRate (config g) ->
  80 <= pipeGapHeight (config g) ->
  let c := config g in
  let c' := config (fst (run rnd es (g, k))) in
  80 <= pipeGapHeight c' /\ pipeGapHeight c' <= pipeGapHeight c
  /\ pipeSpeed c <= pipeSpeed c'
  /\ speedIncreaseRate c' = speedIncreaseRate c
  /\ gapDecreaseRate c' = gapDecreaseRate c
  /\ pipeWidth c' = pipeWidth c /\ spawnInterval c' = spawnInterval c.
Proof.
  intros Hs Hd Hg c c'.
  apply (config_run
           (fun c' =>
              80 <= pipeGapHeight c' /\ pipeGapHeight c' <= pipeGapHeight c
              /\ pipeSpeed c <= pipeSpeed c'
              /\ speedIncreaseRate c' = speedIncreaseRate c
              /\ gapDecreaseRate c' = gapDecreaseRate c
              /\ pipeWidth c' = pipeWidth c
              /\ spawnInterval c' = spawnInterval c)).
  - intros c0 [H1 [H2 [H3 [H4 [H5 [H6 H7]]]]]]. unfold ramped. cbn.
    fold c in Hs, Hd. rewrite H4, H5.
    split; [apply Q.le_max_l|]. split; [|split; [|tauto]].
    + apply Q.max_lub; lra.
    + lra.
  - fold c. repeat split; try reflexivity; try lra. exact Hg.
Qed.

Lemma difficulty_stays_in_bounds_witness :
  let c := config (loaded_page online 850 600) in
  let c' := config (fst (run overtaking_draws overtaking_events
                           (loaded_page online 850 600, 0%nat))) in
  80 <= pipeGapHeight c' /\ pipeGapHeight c' <= pipeGapHeight c
  /\ pipeSpeed c <= pipeSpeed c'
  /\ speedIncreaseRate c' = speedIncreaseRate c
  /\ gapDecreaseRate c' = gapDecreaseRate c
  /\ pipeWidth c' = pipeWidth c /\ spawnInterval c' = spawnInterval c.
Proof.
  apply (difficulty_stays_in_bounds overtaking_draws overtaking_events
           (loaded_page online 850 600) 0); vm_compute; discriminate.
Defined.

(** X11.  When the images load, the dodge game keeps the stored high score
    equal to the one in memory through every run of frames, taps and
    resizes: the store holds the in-memory value under the game's key, or
    holds nothing while that value is 0.  A game opened later on the same
    topic therefore reads back exactly the high score this one ended
    with. *)
Theorem high_score_survives_reload (net : Network) (cfg cfg2 : Config)
    (tp : string) (store : gmap string Z) (w h now : Q)
    (imgs : Image * Image * Image) (rnd : RandomSource) (es : list Event)
    (k : nat) :
  loadAll net cfg = inl imgs ->
  let g := fst (run rnd es (init net w h now (newGame cfg tp store), k)) in
  synced (highScore g) (localStorage g) (localStorageKey g)
  /\ topic g = tp
  /\ highScore (loadHighScore (newGame cfg2 tp (localStorage g)))
     = highScore g.
Proof.
  intros Hload g.
  assert (H : synced (highScore g) (localStorage g)
                ("dodgeDanger_highScore_" +:+ topic g)
              /\ topic g = tp).
  { unfold g.
    apply (store_run
             (fun hs st t =>
                synced hs st ("dodgeDanger_highScore_" +:+ t) /\ t = tp)).
    - intros hs st t s [_ Ht] _. split; [|exact Ht].
      left. apply lookup_insert_eq.
    - unfold init. cbn [config set_bird set_canvas newGame].
      rewrite Hload. destruct imgs as [[bi pi] gi].
      cbn [highScore localStorage topic restart].
      split; [|unfold loadHighScore; cbn;
               now destruct (store !! _)].
      unfold loadHighScore, localStorageKey, synced. cbn.
      destruct (store !! ("dodgeDanger_highScore_" +:+ tp)) as [v|] eqn:E;
        cbn; rewrite E; [now left|now right]. }
  destruct H as [Hsync Ht]. split; [exact Hsync|]. split; [exact Ht|].
  unfold loadHighScore, localStorageKey. cbn [localStorage topic newGame].
  rewrite Ht in Hsync. destruct Hsync as [E|[E E0]]; rewrite E; cbn.
  - reflexivity.
  - now rewrite E0.
Qed.

Lemma high_score_survives_reload_witness :
  let g := fst (run overtaking_draws overtaking_events
                  (loaded_page online 850 600, 0%nat)) in
  synced (highScore g) (localStorage g) (localStorageKey g)
  /\ topic g = "default"
  /\ highScore
       (loadHighScore
          (newGame (gameConfig GameConfig.default_assets) "default"
             (localStorage g)))
     = highScore g.
Proof.
  apply (high_score_survives_reload online
           (gameConfig GameConfig.default_assets)
           (gameConfig GameConfig.default_assets) "default" ∅ 850 600 0
           (Loaded (GameConfig.character GameConfig.default_assets),
            Loaded (GameConfig.item GameConfig.default_assets),
            Loaded (GameConfig.background GameConfig.default_assets))
           overtaking_draws overtaking_events 0).
  reflexivity.
Defined.

End DodgeExtras.

(** * Storage, topics, input geometry and loaders *)
Module PageExtras.
Import CollectPage.

Local Open Scope Z_scope.

Lemma init_scores (cfg : Collect.Config) (tp : string) (net : Network)
    (store : gmap string Z) (fuel : nat) (rnd : RandomSource) (k : nat)
    (g : Collect.Game) (k' : nat) :
  Collect.init cfg tp net store fuel rnd k = Some (g, k') ->
  Collect.topic g = tp
  /\ Collect.highScore g
     = Collect.loadHighScore store ("collectIt_highScore_" +:+ tp)
  /\ Collect.localStorage g = store /\ Collect.gameOver g = false.
Proof.
  unfold Collect.init.
  destruct (Collect.loadImage net (Collect.characterSrc cfg)) as [ci l1].
  destruct (Collect.loadImage net (Collect.itemSrc cfg)) as [ii l2].
  destruct (Collect.loadImage net (Collect.backgroundSrc cfg)) as [bi l3].
  destruct (in_settle_order (settles net) l1 l2 l3) as [[w1 w2] w3].
  unfold Collect.setup.
  destruct (Collect.spawnItem _ _ _ _) as [[g1 k1]|] eqn:Hs; [|discriminate].
  intros H. injection H as Hg _. subst g.
  apply CollectScores.spawnItem_scores in Hs. simpl in *. tauto.
Qed.

(** X12.  In every state the collector reaches from [init], the store holds
    the in-memory high score under the game's key (or nothing while it is
    0), so a later [loadHighScore] reads it back; the high score is never
    below the one read at start-up; and whenever the game is over the
    final score is not above the high score: the run's score was saved. *)
Theorem collector_saves_final_score (cfg : Collect.Config) (tp : string)
    (net : Network) (store : gmap string Z) (fuel0 fuel : nat)
    (rnd : RandomSource) (inputs : list Input) (s0 : Page * nat)
    (p : Page) (k : nat) :
  openPage cfg tp net store fuel0 rnd 0 = Some s0 ->
  play fuel rnd inputs s0 = Some (p, k) ->
  let g := game p in
  Collect.topic g = tp
  /\ DodgeParts.synced (Collect.highScore g) (Collect.localStorage g)
       (Collect.localStorageKey g)
  /\ Collect.loadHighScore (Collect.localStorage g)
       (Collect.localStorageKey g)
     = Collect.highScore g
  /\ Collect.loadHighScore store (Collect.localStorageKey g)
     <= Collect.highScore g
  /\ (Collect.gameOver g = true -> Collect.score g <= Collect.highScore g).
Proof.
  unfold openPage.
  destruct (Collect.init cfg tp net store fuel0 rnd 0) as [[g0 k0]|] eqn:Hi;
    [|discriminate].
  intros H. injection H as Hs. subst s0. intros Hp.
  set (g := game p).
  apply init_scores in Hi. destruct Hi as [I1 [I2 [I3 I4]]].
  set (K := fun (hs : Z) (st : gmap string Z) (t : string) =>
              t = tp
              /\ DodgeParts.synced hs st ("collectIt_highScore_" +:+ t)
              /\ Collect.loadHighScore store
                   ("collectIt_highScore_" +:+ t) <= hs).
  assert (Hsave : forall hs st t s,
             K hs st t -> hs < s ->
             K s (<["collectIt_highScore_" +:+ t := s]> st) t).
  { intros hs st t s [Ht [_ Hle]] Hlt.
    split; [exact Ht|]. split; [left; apply lookup_insert_eq | lia]. }
  assert (Hinit : K (Collect.highScore g0) (Collect.localStorage g0)
                    (Collect.topic g0)).
  { unfold K. rewrite I1, I2, I3. split; [reflexivity|]. split; [|lia].
    unfold DodgeParts.synced, Collect.loadHighScore.
    destruct (store !! _); [now left | now right]. }
  pose proof (CollectScores.play_keeps K fuel rnd inputs Hsave
                (mkPage g0 0 0) p k0 k Hinit Hp) as Hk.
  unfold K in Hk. fold g in Hk.
  destruct Hk as [Ht [Hsync Hle]].
  unfold Collect.localStorageKey. split; [exact Ht|].
  split; [exact Hsync|]. split; [|split; [exact Hle|]].
  - unfold Collect.loadHighScore.
    destruct Hsync as [E|[E E0]]; rewrite E; [reflexivity|now rewrite E0].
  - apply (CollectScores.play_saved fuel rnd inputs (mkPage g0 0 0) p k0 k);
      [|exact Hp].
    cbn [game]. rewrite I4. discriminate.
Qed.

Lemma collector_saves_final_score_witness :
  let g := Collect.tail_chase in
  Collect.topic g = "default"
  /\ DodgeParts.synced (Collect.highScore g) (Collect.localStorage g)
       (Collect.localStorageKey g)
  /\ Collect.loadHighScore (Collect.localStorage g)
       (Collect.localStorageKey g)
     = Collect.highScore g
  /\ Collect.loadHighScore ∅ (Collect.localStorageKey g)
     <= Collect.highScore g
  /\ (Collect.gameOver g = true -> Collect.score g <= Collect.highScore g).
Proof.
  exact (collector_saves_final_score
           (Collect.gameConfig GameConfig.default_assets) "default"
           (all_loads true Settle012) ∅ 1 1 Collect.tail_chase_draws
           tail_chase_inputs
           _ _ _
           CollectExtras.tail_chase_opened CollectExtras.tail_chase_played).
Defined.

(** X13.  Neither game ever writes a storage entry other than its own:
    through any run of the dodge game and any inputs to the collector,
    every key different from the game's own keeps the value it had. *)
Theorem only_own_key_is_written (rnd : RandomSource)
    (es : list Dodge.Event) (d : Dodge.Game) (kd : nat)
    (fuel : nat) (inputs : list Input) (p p' : Page) (k k' : nat)
    (key : string) :
  key <> Dodge.localStorageKey d ->
  key <> Collect.localStorageKey (game p) ->
  play fuel rnd inputs (p, k) = Some (p', k') ->
  Dodge.localStorage (fst (Dodge.run rnd es (d, kd))) !! key
  = Dodge.localStorage d !! key
  /\ Collect.localStorage (game p') !! key
     = Collect.localStorage (game p) !! key.
Proof.
  intros Hd Hc Hp. split.
  - apply (DodgeFrames.store_run
             (fun _ st t =>
                t = Dodge.topic d /\ st !! key = Dodge.localStorage d !! key));
      [|split; reflexivity].
    intros hs st t s [Ht Hst] _. split; [exact Ht|].
    rewrite lookup_insert_ne; [exact Hst|].
    subst t. intros E. apply Hd. now rewrite <- E.
  - apply (CollectScores.play_keeps
             (fun _ st t =>
                t = Collect.topic (game p)
                /\ st !! key = Collect.localStorage (game p) !! key)
             fuel rnd inputs) with (p := p) (k := k) (k' := k');
      [|split; reflexivity|exact Hp].
    intros hs st t s [Ht Hst] _. split; [exact Ht|].
    rewrite lookup_insert_ne; [exact Hst|].
    subst t. intros E. apply Hc. now rewrite <- E.
Qed.

Lemma only_own_key_is_written_witness :
  Dodge.localStorage
    (fst (Dodge.run Collect.tail_chase_draws Dodge.overtaking_events
            (Dodge.loaded_page Dodge.online 850 600, 0%nat)))
  !! "collectIt_highScore_other"
  = Dodge.localStorage (Dodge.loaded_page Dodge.online 850 600)
    !! "collectIt_highScore_other"
  /\ Collect.localStorage (game (mkPage Collect.tail_chase 0 0))
     !! "collectIt_highScore_other"
     = Collect.localStorage (game (mkPage Collect.first_item 0 0))
       !! "collectIt_highScore_other".
Proof.
  apply (only_own_key_is_written Collect.tail_chase_draws
           Dodge.overtaking_events
           (Dodge.loaded_page Dodge.online 850 600) 0 1
           tail_chase_inputs (mkPage Collect.first_item 0 0)
           (mkPage Collect.tail_chase 0 0) 2 8
           "collectIt_highScore_other").
  - intros E. vm_compute in E. discriminate.
  - intros E. vm_compute in E. discriminate.
  - exact CollectExtras.tail_chase_played.
Defined.

(** X14.  The storage keys are namespaced by game and topic: different
    topics give different keys within a game, a dodge key never equals a
    collector key, each game's key is the one of its topic, and the topic
    taken from the URL is never empty ("default" when the parameter is
    missing or empty). *)
Theorem storage_keys_are_namespaced :
  (forall t1 t2, Topic.dodgeKey t1 = Topic.dodgeKey t2 -> t1 = t2)
  /\ (forall t1 t2, Topic.collectKey t1 = Topic.collectKey t2 -> t1 = t2)
  /\ (forall t1 t2, Topic.dodgeKey t1 <> Topic.collectKey t2)
  /\ (forall g, Dodge.localStorageKey g = Topic.dodgeKey (Dodge.topic g))
  /\ (forall g,
        Collect.localStorageKey g = Topic.collectKey (Collect.topic g))
  /\ (forall param, Topic.getTopicFromUrl param <> "")
  /\ Topic.getTopicFromUrl None = "default"
  /\ Topic.getTopicFromUrl (Some "") = "default".
Proof.
  split; [|split; [|split; [|split; [|split; [|split; [|split]]]]]];
    try reflexivity.
  - intros t1 t2 H. now apply String.app_inj in H.
  - intros t1 t2 H. now apply String.app_inj in H.
  - intros t1 t2 H. cbv in H. discriminate.
  - intros [t|]; simpl; [|discriminate].
    destruct (String.eqb t "") eqn:E; [discriminate|].
    intros Ht. subst t. discriminate.
Qed.

(** X15.  A swipe gives no direction exactly when neither displacement
    exceeds the 30 pixel threshold in absolute value; otherwise it gives
    the unit step along the axis of the larger absolute displacement (the
    vertical one on a tie), pointing the way of that displacement. *)
Theorem swipe_follows_dominant_axis (dx dy : Q) :
  (swipeDirection dx dy = None
   <-> (Qabs dx <= 30 /\ Qabs dy <= 30)%Q)
  /\ ((Qabs dy < Qabs dx)%Q -> (30 < Qabs dx)%Q ->
      ((0 < dx)%Q -> swipeDirection dx dy = Some (Collect.mkCell 1 0))
      /\ ((dx < 0)%Q -> swipeDirection dx dy = Some (Collect.mkCell (-1) 0)))
  /\ ((Qabs dx <= Qabs dy)%Q -> (30 < Qabs dy)%Q ->
      ((0 < dy)%Q -> swipeDirection dx dy = Some (Collect.mkCell 0 1))
      /\ ((dy < 0)%Q -> swipeDirection dx dy = Some (Collect.mkCell 0 (-1)))).
Proof.
  assert (Hgt : forall a b : Q, Qgtb a b = true <-> (b < a)%Q).
  { intros a b. unfold Qgtb. rewrite negb_true_iff.
    destruct (Qle_bool a b) eqn:E.
    - apply Qle_bool_iff in E. split; [discriminate|].
      intros H. exfalso. eapply Qlt_not_le; eauto.
    - split; [intros _|reflexivity].
      apply Qnot_le_lt. intros H. apply Qle_bool_iff in H. congruence. }
  assert (Hle : forall a b : Q, Qgtb a b = false <-> (a <= b)%Q).
  { intros a b. unfold Qgtb. rewrite negb_false_iff. apply Qle_bool_iff. }
  unfold swipeDirection, swipeThreshold.
  destruct (Qgtb (Qabs dx) (Qabs dy)) eqn:Eaxis;
    [apply Hgt in Eaxis | apply Hle in Eaxis].
  - destruct (Qgtb (Qabs dx) 30) eqn:Ex;
      [apply Hgt in Ex | apply Hle in Ex].
    + split; [split; [discriminate | intros [H _]; exfalso; lra]|].
      split.
      * intros _ _. split; intros Hs.
        -- apply Hgt in Hs. now rewrite Hs.
        -- assert (E : Qgtb dx 0 = false) by (apply Hle; lra).
           now rewrite E.
      * intros H. exfalso. lra.
    + split; [split; [intros _; split; lra | reflexivity]|].
      split; intros H1 H2; exfalso; lra.
  - destruct (Qgtb (Qabs dy) 30) eqn:Ey;
      [apply Hgt in Ey | apply Hle in Ey].
    + split; [split; [discriminate | intros [_ H]; exfalso; lra]|].
      split.
      * intros H. exfalso. lra.
      * intros _ _. split; intros Hs.
        -- apply Hgt in Hs. now rewrite Hs.
        -- assert (E : Qgtb dy 0 = false) by (apply Hle; lra).
           now rewrite E.
    + split; [split; [intros _; split; lra | reflexivity]|].
      split; intros H1 H2; exfalso; lra.
Qed.

(** X16.  For a container and a grid of positive size, [resizeAndCalculate]
    makes the canvas fit the container, touching it in width or in height,
    with the aspect ratio of the grid, and makes the cells square: a cell
    is as wide as it is high, and the cells tile the canvas exactly. *)
Theorem canvas_fits_and_cells_are_square (availableWidth availableHeight : Q)
    (gridW gridH : Z) :
  (0 < availableWidth)%Q -> (0 < availableHeight)%Q ->
  0 < gridW -> 0 < gridH ->
  let l := resizeAndCalculate availableWidth availableHeight gridW gridH in
  (0 < canvasWidth l /\ 0 < canvasHeight l
   /\ canvasWidth l <= availableWidth
   /\ canvasHeight l <= availableHeight
   /\ (canvasWidth l == availableWidth
       \/ canvasHeight l == availableHeight)
   /\ canvasWidth l * inject_Z gridH == canvasHeight l * inject_Z gridW
   /\ cellSizeW l == cellSizeH l
   /\ cellSizeW l * inject_Z gridW == canvasWidth l
   /\ cellSizeH l * inject_Z gridH == canvasHeight l)%Q.
Proof.
  intros Haw Hah Hgw Hgh.
  assert (HW : (0 < inject_Z gridW)%Q).
  { change 0%Q with (inject_Z 0). now rewrite <- Zlt_Qlt. }
  assert (HH : (0 < inject_Z gridH)%Q).
  { change 0%Q with (inject_Z 0). now rewrite <- Zlt_Qlt. }
  set (W := inject_Z gridW) in *. set (H := inject_Z gridH) in *.
  assert (HW0 : ~ (W == 0)%Q) by (intros E; rewrite E in HW; lra).
  assert (HH0 : ~ (H == 0)%Q) by (intros E; rewrite E in HH; lra).
  assert (Hah0 : ~ (availableHeight == 0)%Q)
    by (intros E; rewrite E in Hah; lra).
  assert (Haw0 : ~ (availableWidth == 0)%Q)
    by (intros E; rewrite E in Haw; lra).
  assert (Hgt : forall a b : Q, Qgtb a b = true <-> (b < a)%Q).
  { intros a b. unfold Qgtb. rewrite negb_true_iff.
    destruct (Qle_bool a b) eqn:E.
    - apply Qle_bool_iff in E. split; [discriminate|].
      intros Hx. exfalso. eapply Qlt_not_le; eauto.
    - split; [intros _|reflexivity].
      apply Qnot_le_lt. intros Hx. apply Qle_bool_iff in Hx. congruence. }
  assert (Hle : forall a b : Q, Qgtb a b = false <-> (a <= b)%Q).
  { intros a b. unfold Qgtb. rewrite negb_false_iff. apply Qle_bool_iff. }
  assert (Hr : (0 < W / H)%Q) by (apply Qlt_shift_div_l; lra).
  unfold resizeAndCalculate. fold W H. cbv zeta.
  cbn [canvasWidth canvasHeight cellSizeW cellSizeH].
  destruct (Qgtb (availableWidth / availableHeight) (W / H)) eqn:Ewide;
    cbn [fst snd].
  - apply Hgt in Ewide.
    assert (Hfit : (availableHeight * (W / H) < availableWidth)%Q).
    { apply (Qmult_lt_l _ _ availableHeight Hah) in Ewide.
      assert (E : (availableHeight * (availableWidth / availableHeight)
                   == availableWidth)%Q) by (field; exact Hah0).
      rewrite E in Ewide. exact Ewide. }
    assert (Hpos : (0 < availableHeight * (W / H))%Q)
      by (apply Qmult_lt_0_compat; assumption).
    split; [exact Hpos|]. split; [exact Hah|].
    split; [now apply Qlt_le_weak|]. split; [apply Qle_refl|].
    split; [right; reflexivity|].
    repeat split; field; repeat split; assumption.
  - apply Hle in Ewide.
    assert (Hfit : (availableWidth / (W / H) <= availableHeight)%Q).
    { apply Qle_shift_div_r; [exact Hr|].
      apply (Qmult_le_l _ _ availableHeight Hah) in Ewide.
      assert (E : (availableHeight * (availableWidth / availableHeight)
                   == availableWidth)%Q) by (field; exact Hah0).
      rewrite E in Ewide. exact Ewide. }
    assert (Hpos : (0 < availableWidth / (W / H))%Q)
      by (apply Qlt_shift_div_l; [exact Hr | lra]).
    split; [exact Haw|]. split; [exact Hpos|].
    split; [apply Qle_refl|]. split; [exact Hfit|].
    split; [left; reflexivity|].
    repeat split; field; repeat split; assumption.
Qed.

Lemma canvas_fits_and_cells_are_square_witness :
  let l := resizeAndCalculate 390 844 20 20 in
  (0 < canvasWidth l /\ 0 < canvasHeight l
   /\ canvasWidth l <= 390
   /\ canvasHeight l <= 844
   /\ (canvasWidth l == 390 \/ canvasHeight l == 844)
   /\ canvasWidth l * inject_Z 20 == canvasHeight l * inject_Z 20
   /\ cellSizeW l == cellSizeH l
   /\ cellSizeW l * inject_Z 20 == canvasWidth l
   /\ cellSizeH l * inject_Z 20 == canvasHeight l)%Q.
Proof.
  apply (canvas_fits_and_cells_are_square 390 844 20 20); reflexivity.
Defined.

(** X17.  [loadImageWithFallback] never resolves with an image that
    failed to load: a loaded image is the source or a non-empty fallback
    and did load; the placeholder comes exactly when the source failed and
    the fallback is left out, empty or failed too; the console stays empty
    exactly when the source itself loaded; and an empty fallback is never
    tried: it gives what leaving the fallback out gives. *)
Theorem fallback_loader_resolves_honestly (net : Network) (src : string)
    (fallbackSrc : option string) :
  let r := GameConfig.loadImageWithFallback net src fallbackSrc in
  (forall u, fst r = Loaded u ->
             net u = true
             /\ (u = src \/ (fallbackSrc = Some u /\ u <> "")))
  /\ (fst r = Placeholder
      <-> net src = false
          /\ (fallbackSrc = None \/ fallbackSrc = Some ""
              \/ exists f, fallbackSrc = Some f /\ net f = false))
  /\ (snd r = [] <-> net src = true)
  /\ (net src = true -> fst r = Loaded src)
  /\ GameConfig.loadImageWithFallback net src (Some "")
     = GameConfig.loadImageWithFallback net src None.
Proof.
  unfold GameConfig.loadImageWithFallback.
  destruct (net src) eqn:Es; cbn [fst snd].
  - split; [intros u E; injection E as <-; tauto|].
    split; [split; [discriminate | intros [H _]; discriminate]|].
    split; [tauto|]. split; reflexivity.
  - destruct fallbackSrc as [f|].
    + destruct (String.eqb f "") eqn:Ee.
      * apply String.eqb_eq in Ee. subst f. cbn [fst snd].
        split; [intros u E; discriminate|].
        split; [split; [intros _; split; [reflexivity|]; right; now left
                       | reflexivity]|].
        split; [split; discriminate|]. split; [discriminate|reflexivity].
      * apply String.eqb_neq in Ee.
        destruct (net f) eqn:Ef; cbn [fst snd].
        -- split.
           { intros u E. injection E as <-. split; [exact Ef|].
             right. split; [reflexivity|exact Ee]. }
           split; [split; [discriminate|]|].
           { intros [_ [H|[H|[f' [E1 E2]]]]]; [discriminate| |].
             - injection H as ->. now contradiction Ee.
             - injection E1 as <-. congruence. }
           split; [split; discriminate|].
           split; [discriminate|reflexivity].
        -- split; [intros u E; discriminate|].
           split.
           { split; [|reflexivity].
             intros _. split; [reflexivity|]. right. right. eauto. }
           split; [split; discriminate|].
           split; [discriminate|reflexivity].
    + cbn [fst snd]. split; [intros u E; discriminate|].
      split; [split; [intros _; split; [reflexivity|now left]
                     | reflexivity]|].
      split; [split; discriminate|]. split; [discriminate|reflexivity].
Qed.

(** X18.  A swipe is consumed by the first [touchend]: delivering a second
    one without a new [touchstart] changes nothing; and a touch that
    started at [clientX = 0] is never taken for a swipe. *)
Theorem touch_end_consumes_the_swipe (p : Page) (x1 y1 x2 y2 : Q) :
  handleCanvasTouchEnd x2 y2 (handleCanvasTouchEnd x1 y1 p)
  = handleCanvasTouchEnd x1 y1 p
  /\ ((touchStartX p == 0)%Q -> handleCanvasTouchEnd x1 y1 p = p).
Proof.
  split.
  - unfold handleCanvasTouchEnd at 2.
    destruct (Collect.gameOver (game p) || Qeq_bool (touchStartX p) 0)
      eqn:E.
    + unfold handleCanvasTouchEnd. now rewrite E.
    + cbv zeta. unfold handleCanvasTouchEnd. cbn [game touchStartX].
      replace (Qeq_bool 0 0) with true by reflexivity.
      now rewrite orb_true_r, E.
  - intros H0. unfold handleCanvasTouchEnd.
    apply Qeq_bool_iff in H0. rewrite H0. now rewrite orb_true_r.
Qed.

(** X19.  The keyboard does what the buttons do: each arrow key has the
    effect of the button of its direction, in a running game and in a
    finished one; Enter restarts a finished game and does nothing to a
    running one; every other key does nothing. *)
Theorem keyboard_matches_buttons (fuel : nat) (rnd : RandomSource)
    (k : nat) (g : Collect.Game) :
  handleKeyDown fuel rnd k "ArrowUp" g
  = Some (Collect.handleButtonClick (buttonDirection BtnUp) g, k)
  /\ handleKeyDown fuel rnd k "ArrowDown" g
     = Some (Collect.handleButtonClick (buttonDirection BtnDown) g, k)
  /\ handleKeyDown fuel rnd k "ArrowLeft" g
     = Some (Collect.handleButtonClick (buttonDirection BtnLeft) g, k)
  /\ handleKeyDown fuel rnd k "ArrowRight" g
     = Some (Collect.handleButtonClick (buttonDirection BtnRight) g, k)
  /\ handleKeyDown fuel rnd k "Enter" g
     = (if Collect.gameOver g then Collect.restart fuel rnd k g
        else Some (g, k))
  /\ (forall key,
        keyDirection key = None -> key <> "Enter" ->
        handleKeyDown fuel rnd k key g = Some (g, k)).
Proof.
  unfold handleKeyDown, Collect.handleButtonClick, steer.
  destruct (Collect.gameOver g) eqn:Ho; simpl;
    repeat split; try reflexivity.
  - intros key Hk Hne.
    destruct (String.eqb key "Enter") eqn:E; [|reflexivity].
    apply String.eqb_eq in E. contradiction.
  - intros key Hk Hne. now rewrite Hk.
Qed.

(** X20.  The collector starts whatever the network does: as soon as a
    draw of the first respawn finds a cell off the character, [init]
    returns a running game with score 0 and the loop armed; an image whose
    load failed is the placeholder, one with an empty source is absent,
    and the console holds one line per failed load, in the order in which
    the loads settled. *)
Theorem collector_starts_despite_failed_loads (cfg : Collect.Config)
    (tp : string) (net : Network) (store : gmap string Z)
    (rnd : RandomSource) (n : nat) :
  ~ In (Collect.drawn_cell rnd 0 (Collect.gridWidth cfg)
          (Collect.gridHeight cfg) n)
       [Collect.mkCell (Collect.gridWidth cfg / 2)
          (Collect.gridHeight cfg / 2)] ->
  let image src :=
    if String.eqb src "" then None
    else Some (if net src then Loaded src else Placeholder) in
  let line src :=
    if String.eqb src "" || net src then []
    else ["Failed to load image: " +:+ src] in
  exists g k',
    Collect.init cfg tp net store (S n) rnd 0 = Some (g, k')
    /\ Collect.gameLoopInterval g = true /\ Collect.gameOver g = false
    /\ Collect.score g = 0
    /\ Collect.characterImage g = image (Collect.characterSrc cfg)
    /\ Collect.itemImage g = image (Collect.itemSrc cfg)
    /\ Collect.backgroundImage g = image (Collect.backgroundSrc cfg)
    /\ Collect.console g
       = (let '(first, second, third) :=
            in_settle_order (settles net)
              (line (Collect.characterSrc cfg))
              (line (Collect.itemSrc cfg))
              (line (Collect.backgroundSrc cfg)) in
          first ++ second ++ third).
Proof.
  intros Hfree image line.
  destruct (CollectSpec.spawnItem_loop_returns rnd _ _ _ n 0%nat Hfree)
    as [c [k' Hloop]].
  assert (Hload : forall src,
             Collect.loadImage net src = (image src, line src)).
  { intros src. unfold Collect.loadImage, image, line.
    destruct (String.eqb src ""); [reflexivity|].
    destruct (net src); reflexivity. }
  unfold Collect.init. rewrite !Hload.
  destruct (in_settle_order (settles net) _ _ _) as [[w1 w2] w3].
  unfold Collect.setup, Collect.spawnItem.
  cbn [Collect.with_round Collect.gridSizeW Collect.gridSizeH
         Collect.character Collect.newCharacter Collect.segments].
  rewrite Hloop.
  eexists. eexists. split; [reflexivity|].
  cbn. repeat split; reflexivity.
Qed.

Lemma collector_starts_despite_failed_loads_witness :
  exists g k',
    Collect.init (Collect.gameConfig GameConfig.default_assets) "default"
      (all_loads false Settle210) ∅ 1 constant_zero 0 = Some (g, k')
    /\ Collect.gameLoopInterval g = true /\ Collect.gameOver g = false
    /\ Collect.score g = 0
    /\ Collect.characterImage g = Some Placeholder
    /\ Collect.itemImage g = Some Placeholder
    /\ Collect.backgroundImage g = Some Placeholder
    /\ Collect.console g
       = ["Failed to load image: "
          +:+ GameConfig.background GameConfig.default_assets]
         ++ ["Failed to load image: "
             +:+ GameConfig.item GameConfig.default_assets]
         ++ ["Failed to load image: "
             +:+ GameConfig.character GameConfig.default_assets].
Proof.
  apply (collector_starts_despite_failed_loads
           (Collect.gameConfig GameConfig.default_assets) "default"
           (all_loads false Settle210) ∅ constant_zero 0).
  vm_compute. intros [H|[]]. discriminate.
Defined.

End PageExtras.

(** * Runs of both games: high score and scheduling *)
Module RunExtras.
Import CollectPage.

Local Open Scope Z_scope.

(** X21.  The high score never decreases: not through any run of frames,
    taps and resizes of the dodge game, and not through any inputs to the
    collector, restarts included. *)
Theorem high_score_never_decreases (rnd : RandomSource)
    (es : list Dodge.Event) (d : Dodge.Game) (kd : nat)
    (fuel : nat) (inputs : list Input) (p p' : Page) (k k' : nat) :
  play fuel rnd inputs (p, k) = Some (p', k') ->
  Dodge.highScore d <= Dodge.highScore (fst (Dodge.run rnd es (d, kd)))
  /\ Collect.highScore (game p) <= Collect.highScore (game p').
Proof.
  intros Hp. split.
  - apply (DodgeFrames.store_run
             (fun hs _ _ => Dodge.highScore d <= hs)); [|lia].
    intros hs st t s H Hlt. lia.
  - apply (CollectScores.play_keeps
             (fun hs _ _ => Collect.highScore (game p) <= hs)
             fuel rnd inputs) with (p := p) (k := k) (k' := k');
      [|lia|exact Hp].
    intros hs st t s H Hlt. lia.
Qed.

Lemma high_score_never_decreases_witness :
  Dodge.highScore (Dodge.loaded_page Dodge.online 850 600)
  <= Dodge.highScore
       (fst (Dodge.run Collect.tail_chase_draws Dodge.overtaking_events
               (Dodge.loaded_page Dodge.online 850 600, 0%nat)))
  /\ Collect.highScore (game (mkPage Collect.first_item 0 0))
     <= Collect.highScore (game (mkPage Collect.tail_chase 0 0)).
Proof.
  exact (high_score_never_decreases Collect.tail_chase_draws
           Dodge.overtaking_events
           (Dodge.loaded_page Dodge.online 850 600) 0 1
           tail_chase_inputs (mkPage Collect.first_item 0 0)
           (mkPage Collect.tail_chase 0 0) 2 8
           CollectExtras.tail_chase_played).
Defined.

Lemma update_pendingFrames (rnd : RandomSource) (k : nat) (dt : Q)
    (g : Dodge.Game) :
  Dodge.pendingFrames (fst (Dodge.update rnd k dt g))
  = Dodge.pendingFrames g.
Proof.
  destruct (Dodge.gameOver g) eqn:Hrun.
  - unfold Dodge.update. now rewrite Hrun.
  - rewrite (DodgeFrames.update_running rnd k dt g Hrun).
    destruct (DodgeParts.out_of_bounds _ _); cbv zeta; cbn [fst].
    + destruct (DodgeSpec.saveHighScore_frame
                  (Dodge.set_gameOver true
                     (Dodge.set_bird
                        (DodgeParts.fallen dt (Dodge.bird g)) g)))
        as [_ [_ [_ [_ [_ [_ [_ [Hp _]]]]]]]].
      rewrite Hp. reflexivity.
    + cbn [Dodge.pendingFrames Dodge.set_pipes].
      destruct (DodgeFrames.forEachPipe_frame dt
                  (Dodge.pipes (DodgeParts.before_pipes rnd k dt g))
                  (DodgeParts.before_pipes rnd k dt g))
        as [_ [_ [_ [_ [_ [Hp _]]]]]].
      rewrite Hp. unfold DodgeParts.before_pipes. cbv zeta.
      now destruct (Qle_bool _ 0).
Qed.

(** X22.  Once the images have loaded, the dodge game has exactly one
    animation frame queued while it runs and none when it is over, through
    every run of frames, taps and resizes: a restart never starts a second
    loop and a running game never stops being scheduled. *)
Theorem one_frame_queued_while_running (net : Network) (cfg : Dodge.Config)
    (tp : string) (store : gmap string Z) (w h now : Q)
    (imgs : Image * Image * Image) (rnd : RandomSource)
    (es : list Dodge.Event) (k : nat) :
  Dodge.loadAll net cfg = inl imgs ->
  let g := fst (Dodge.run rnd es
                  (Dodge.init net w h now (Dodge.newGame cfg tp store), k)) in
  Dodge.pendingFrames g = if Dodge.gameOver g then 0%nat else 1%nat.
Proof.
  intros Hload.
  assert (Hinit : let g0 := Dodge.init net w h now
                              (Dodge.newGame cfg tp store) in
                  Dodge.pendingFrames g0
                  = if Dodge.gameOver g0 then 0%nat else 1%nat).
  { unfold Dodge.init. cbn [Dodge.config Dodge.set_bird Dodge.set_canvas
                              Dodge.newGame].
    rewrite Hload. destruct imgs as [[bi pi] gi].
    unfold Dodge.loadHighScore. cbn.
    now destruct (store !! _). }
  cbv zeta in Hinit. revert Hinit.
  generalize (Dodge.init net w h now (Dodge.newGame cfg tp store)).
  clear Hload. revert k.
  induction es as [|e es IH]; intros k g0 H0; cbv zeta; [exact H0|].
  unfold Dodge.run. cbn [fold_left]. fold (Dodge.run rnd es).
  assert (Hs : let g1 := fst (Dodge.step rnd e (g0, k)) in
               Dodge.pendingFrames g1
               = if Dodge.gameOver g1 then 0%nat else 1%nat).
  { destruct e as [t|tnow|w' h']; cbn [Dodge.step]; cbv zeta.
    - destruct (Dodge.gameOver g0) eqn:Ho; rewrite H0.
      + cbn [Nat.ltb Nat.leb fst]. now rewrite H0, Ho.
      + cbn [Nat.ltb Nat.leb]. unfold Dodge.loop.
        match goal with
        | |- context [Dodge.update rnd k ?dt ?g1] =>
            pose proof (update_pendingFrames rnd k dt g1) as Hu;
            destruct (Dodge.update rnd k dt g1) as [g2 k2]
        end.
        cbn [fst Dodge.pendingFrames Dodge.set_clock] in Hu.
        rewrite H0 in Hu. cbn [Nat.pred] in Hu.
        destruct (Dodge.gameOver g2) eqn:Ho2; cbn [negb fst].
        * now rewrite Ho2.
        * cbn [Dodge.pendingFrames Dodge.gameOver Dodge.set_clock].
          now rewrite Ho2, Hu.
    - cbn [fst]. unfold Dodge.jumpHandler.
      destruct (Dodge.gameOver g0) eqn:Ho; cbn [negb].
      + cbn. now rewrite H0.
      + cbn. now rewrite H0, Ho.
    - cbn [fst]. unfold Dodge.onResize.
      cbn [Dodge.gameOver Dodge.set_canvas].
      destruct (Dodge.gameOver g0) eqn:Ho; cbn [negb]; cbn;
        now rewrite H0, ?Ho. }
  cbv zeta in Hs.
  destruct (Dodge.step rnd e (g0, k)) as [g1 k1]. cbn [fst] in Hs.
  now apply IH.
Qed.

Lemma one_frame_queued_while_running_witness :
  let g := fst (Dodge.run Dodge.overtaking_draws
                  (Dodge.overtaking_events ++ [Dodge.Frame 3800])
                  (Dodge.loaded_page Dodge.online 850 600, 0%nat)) in
  Dodge.pendingFrames g = if Dodge.gameOver g then 0%nat else 1%nat.
Proof.
  apply (one_frame_queued_while_running Dodge.online
           (Dodge.gameConfig GameConfig.default_assets) "default" ∅
           850 600 0
           (Loaded (GameConfig.character GameConfig.default_assets),
            Loaded (GameConfig.item GameConfig.default_assets),
            Loaded (GameConfig.background GameConfig.default_assets))
           Dodge.overtaking_draws
           (Dodge.overtaking_events ++ [Dodge.Frame 3800]) 0).
  reflexivity.
Defined.

End RunExtras.
